(** * De Bruijn graph assembly (debruijn/debruijn.py): model and properties

    A shallow embedding of the assembler: k-mer counting, construction of the
    weighted de Bruijn graph, path selection, bubble and tip resolution and
    contig extraction.

    Conventions of the model.
    - A Python [str] is a [string]; a Python [int] is a [Z]; a number that
      is an [int] or a finite [float] is its exact value in [Q], and numbers
      are compared by value, as Python compares them.
    - The [statistics] module is the one of CPython 3.11: sums are exact
      fractions and the result is converted once, a whole mean of integers
      to an [int], any other to the nearest [float] (ties to even); a value
      that is too large for a float raises OverflowError.
    - A Python [dict] is its list of items in insertion order.
    - A [networkx.DiGraph] is its list of nodes in insertion order together
      with its list of weighted edges in insertion order: the successors and
      the predecessors of a node, and the iteration over the edges, are read
      off these two lists in the order networkx yields them.
    - An exception is a value [Raise e]; functions that can raise return a
      [result].
    - The recursion of [simplify_bubbles] is bounded by a fuel argument;
      [None] stands for a recursion that has not ended within the fuel.
    - The functions of networkx that the assembler calls ([all_simple_paths],
      [has_path], [lowest_common_ancestor], [is_directed_acyclic_graph],
      [subgraph], [copy], [remove_nodes_from]) are modelled after their
      documented behaviour in networkx 3, errors included.
    - The state of the [random] module and the order in which a Python set
      of strings is iterated are parameters of the functions that depend on
      them.

    The file has three parts: the model of the program, the vocabulary in
    which the properties are stated, and the properties with their proofs,
    which end with further properties of each function and of the program
    as a whole. *)

From Stdlib Require Import List String Ascii ZArith QArith Qround Qabs Qpower.
From Stdlib Require Import Lia Lqa Bool Arith Permutation.
Import ListNotations.

Set Implicit Arguments.

Close Scope Q_scope.
Local Open Scope string_scope.
Local Open Scope list_scope.
Local Open Scope nat_scope.

(** ** Exceptions *)

Inductive exn : Type :=
| StatisticsError            (* statistics: too few data points *)
| IndexError                 (* index out of range *)
| ValueError                 (* list.index / max of an empty sequence *)
| NodeNotFound               (* networkx: a node is not in the graph *)
| NetworkXError              (* networkx: LCA on a graph that is not a DAG *)
| NetworkXPointlessConcept   (* networkx: LCA on the null graph *)
| RuntimeError               (* StopIteration raised inside a generator *)
| OverflowError.             (* a result too large for a float *)

Inductive result (A : Type) : Type :=
| Ok (a : A)
| Raise (e : exn).

Arguments Ok {A} a.
Arguments Raise {A} e.

Definition bind {A B : Type} (r : result A) (k : A -> result B) : result B :=
  match r with
  | Ok a => k a
  | Raise e => Raise e
  end.

Notation "x <- e ;; k" := (bind e (fun x => k))
  (at level 61, e at next level, right associativity).

Fixpoint mapM {A B : Type} (f : A -> result B) (l : list A) : result (list B) :=
  match l with
  | [] => Ok []
  | x :: r => y <- f x ;; ys <- mapM f r ;; Ok (y :: ys)
  end.

(** ** Python sequences *)

Definition mem (x : string) (l : list string) : bool :=
  existsb (String.eqb x) l.

(** Normalisation of a slice bound: a negative bound counts from the end,
    and every bound is clamped to [0, len]. *)
Definition clamp_index (len i : Z) : Z :=
  if (i <? 0)%Z then Z.max 0 (i + len) else Z.min i len.

Definition slice_bounds (len : nat) (start stop : option Z) : nat * nat :=
  let n := Z.of_nat len in
  let a := match start with Some i => clamp_index n i | None => 0%Z end in
  let b := match stop with Some i => clamp_index n i | None => n end in
  (Z.to_nat a, Z.to_nat (b - a)).

(** [s[start:stop]] on a string. *)
Definition str_slice (s : string) (start stop : option Z) : string :=
  let '(a, n) := slice_bounds (String.length s) start stop in
  substring a n s.

(** [l[start:stop]] on a list. *)
Definition list_slice {A : Type} (l : list A) (start stop : option Z) : list A :=
  let '(a, n) := slice_bounds (List.length l) start stop in
  firstn n (skipn a l).

(** [l[i]] on a list, negative indices counting from the end. *)
Definition list_getitem {A : Type} (l : list A) (i : Z) : result A :=
  let n := Z.of_nat (List.length l) in
  let j := if (i <? 0)%Z then (i + n)%Z else i in
  if ((0 <=? j) && (j <? n))%Z
  then match nth_error l (Z.to_nat j) with
       | Some x => Ok x
       | None => Raise IndexError
       end
  else Raise IndexError.

(** [range(n)] *)
Definition range (n : Z) : list Z :=
  map Z.of_nat (seq 0 (Z.to_nat n)).

(** ** Dictionaries (insertion ordered) *)

Definition dict (V : Type) : Type := list (string * V).

Fixpoint dict_get {V : Type} (d : dict V) (k : string) : option V :=
  match d with
  | [] => None
  | (k', v) :: r => if String.eqb k' k then Some v else dict_get r k
  end.

Definition dict_contains {V : Type} (d : dict V) (k : string) : bool :=
  match dict_get d k with Some _ => true | None => false end.

(** [d[k] = v]: an existing key keeps its position, a new key goes last. *)
Fixpoint dict_set {V : Type} (d : dict V) (k : string) (v : V) : dict V :=
  match d with
  | [] => [(k, v)]
  | (k', v') :: r =>
      if String.eqb k' k then (k', v) :: r else (k', v') :: dict_set r k v
  end.

(** ** Reading the reads and counting k-mers *)

(** Characters for which [str.isspace] holds, among the first 256 code points. *)
Definition isspace (c : ascii) : bool :=
  let n := nat_of_ascii c in
  ((9 <=? n) && (n <=? 13)) || ((28 <=? n) && (n <=? 32))
  || (n =? 133) || (n =? 160).

Fixpoint lstrip (s : string) : string :=
  match s with
  | String c r => if isspace c then lstrip r else s
  | EmptyString => EmptyString
  end.

Fixpoint rstrip (s : string) : string :=
  match s with
  | EmptyString => EmptyString
  | String c r =>
      match rstrip r with
      | EmptyString => if isspace c then EmptyString else String c EmptyString
      | r' => String c r'
      end
  end.

Definition strip (s : string) : string := rstrip (lstrip s).

(** [read_fastq]: the file is the list of its lines.  Each record is four
    lines, of which the second, stripped, is yielded.  A record cut short
    makes [next(filin)] raise StopIteration inside the generator, which
    reaches the consumer as a RuntimeError. *)
Fixpoint read_fastq (lines : list string) : result (list string) :=
  match lines with
  | [] => Ok []
  | _ :: sequence :: _ :: _ :: rest =>
      reads <- read_fastq rest ;; Ok (strip sequence :: reads)
  | _ => Raise RuntimeError
  end.

(** [cut_kmer]: the k-mers of a read, from left to right. *)
Definition cut_kmer (read : string) (kmer_size : Z) : list string :=
  map (fun i => str_slice read (Some i) (Some (i + kmer_size)%Z))
      (range (Z.of_nat (String.length read) - kmer_size + 1)).

Definition count_kmer (kmer_dict : dict Z) (kmer : string) : dict Z :=
  if dict_contains kmer_dict kmer
  then match dict_get kmer_dict kmer with
       | Some n => dict_set kmer_dict kmer (n + 1)%Z
       | None => kmer_dict
       end
  else dict_set kmer_dict kmer 1%Z.

(** [build_kmer_dict]: the size passed in is not used; the reads are cut at
    the constant 3. *)
Definition build_kmer_dict (fastq_file : list string) (kmer_size : Z)
  : result (dict Z) :=
  reads <- read_fastq fastq_file ;;
  Ok (fold_left
        (fun kmer_dict read => fold_left count_kmer (cut_kmer read 3%Z) kmer_dict)
        reads []).

(** ** Directed weighted graphs (networkx.DiGraph) *)

Definition node : Type := string.

Record edge : Type := mkEdge { src : node; dst : node; weight : Z }.

Record DiGraph : Type := mkGraph {
  nodes : list node;      (* insertion order of the nodes *)
  edges : list edge       (* insertion order of the edges *)
}.

Definition empty_graph : DiGraph := mkGraph [] [].

Definition has_node (g : DiGraph) (n : node) : bool := mem n (nodes g).

Definition is_edge (u v : node) (e : edge) : bool :=
  String.eqb (src e) u && String.eqb (dst e) v.

Definition has_edge (g : DiGraph) (u v : node) : bool :=
  existsb (is_edge u v) (edges g).

(** [G.successors(u)] and [G.predecessors(v)], in adjacency order. *)
Definition successors (g : DiGraph) (u : node) : list node :=
  map dst (filter (fun e => String.eqb (src e) u) (edges g)).

Definition predecessors (g : DiGraph) (v : node) : list node :=
  map src (filter (fun e => String.eqb (dst e) v) (edges g)).

(** [G.edges(data=True)]: node by node, each node's out-edges in order. *)
Definition out_edges (g : DiGraph) (u : node) : list edge :=
  filter (fun e => String.eqb (src e) u) (edges g).

Definition edges_view (g : DiGraph) : list edge :=
  flat_map (out_edges g) (nodes g).

Definition add_node (g : DiGraph) (n : node) : DiGraph :=
  if has_node g n then g else mkGraph (nodes g ++ [n]) (edges g).

(** [G[u][v]['weight'] += c] *)
Definition add_to_weight (g : DiGraph) (u v : node) (c : Z) : DiGraph :=
  mkGraph (nodes g)
          (map (fun e => if is_edge u v e
                         then mkEdge (src e) (dst e) (weight e + c)
                         else e) (edges g)).

(** [G.add_edge(u, v, weight=w)]: missing endpoints are added, an existing
    edge has its weight replaced, a new edge goes last. *)
Definition add_edge (g : DiGraph) (u v : node) (w : Z) : DiGraph :=
  let g := add_node (add_node g u) v in
  if has_edge g u v
  then mkGraph (nodes g)
               (map (fun e => if is_edge u v e then mkEdge u v w else e) (edges g))
  else mkGraph (nodes g) (edges g ++ [mkEdge u v w]).

(** [G.remove_node(n)] for a node of the graph; [remove_nodes_from] skips
    the nodes that are not in the graph. *)
Definition remove_node (g : DiGraph) (n : node) : DiGraph :=
  mkGraph (filter (fun m => negb (String.eqb m n)) (nodes g))
          (filter (fun e => negb (String.eqb (src e) n) && negb (String.eqb (dst e) n))
                  (edges g)).

Definition remove_nodes_from (g : DiGraph) (ns : list node) : DiGraph :=
  fold_left (fun g n => if has_node g n then remove_node g n else g) ns g.

(** [G.copy()]: the nodes are added in order, then the edges as
    [G.edges(data=True)] yields them. *)
Definition copy (g : DiGraph) : DiGraph :=
  mkGraph (nodes g) (edges_view g).

(** [build_graph] *)
Definition build_graph_step (graph : DiGraph) (item : string * Z) : DiGraph :=
  let '(kmer, count) := item in
  let prefix := str_slice kmer None (Some (-1)%Z) in
  let suffix := str_slice kmer (Some 1%Z) None in
  let graph := if negb (has_node graph prefix) then add_node graph prefix else graph in
  let graph := if negb (has_node graph suffix) then add_node graph suffix else graph in
  if has_edge graph prefix suffix
  then add_to_weight graph prefix suffix count
  else add_edge graph prefix suffix count.

Definition build_graph (kmer_dict : dict Z) : DiGraph :=
  fold_left build_graph_step kmer_dict empty_graph.

(** ** Removing paths *)

(** The nodes of a path that [remove_paths] deletes, by the two flags. *)
Definition nodes_to_remove (path : list node)
           (delete_entry_node delete_sink_node : bool) : list node :=
  if delete_entry_node && delete_sink_node
  then path
  else if delete_entry_node && negb delete_sink_node
  then list_slice path None (Some (-1)%Z)
  else if negb delete_entry_node && delete_sink_node
  then list_slice path (Some 1%Z) None
  else list_slice path (Some 1%Z) (Some (-1)%Z).

(** [remove_paths]: the work is done on a copy of the graph. *)
Definition remove_paths (graph : DiGraph) (path_list : list (list node))
           (delete_entry_node delete_sink_node : bool) : DiGraph :=
  fold_left
    (fun new_graph path =>
       remove_nodes_from new_graph
                         (nodes_to_remove path delete_entry_node delete_sink_node))
    path_list (copy graph).

(** ** Floats

    A finite float is a rational [m * 2^e] with [|m| < 2^53] and
    [-1074 <= e <= 971].  The smallest positive one is [2^-1074]; the
    largest is [2^1024 - 2^971]. *)

Definition Qlt_bool (x y : Q) : bool := negb (Qle_bool y x).

Definition float_min : Q := 1 # (2 ^ 1074).

(** Half-way between the largest float and [2^1024]: from this value on, no
    finite float is nearest. *)
Definition float_overflow : Q := inject_Z (2 ^ 1024 - 2 ^ 970).

(** The integer part of the binary logarithm of a positive rational. *)
Definition ilog2 (x : Q) : Z :=
  let k := (Z.log2 (Qnum x) - Z.log2 (Zpos (Qden x)))%Z in
  if Qle_bool (2 ^ k) x then k else (k - 1)%Z.

(** The nearest integer, the even one of two that are equally near. *)
Definition round_half_even (x : Q) : Z :=
  let f := Qfloor x in
  match Qcompare (x - inject_Z f) (1 # 2) with
  | Lt => f
  | Gt => (f + 1)%Z
  | Eq => if Z.even f then f else (f + 1)%Z
  end.

(** The nearest float, ties to even: 53 bits from the leading one, or the
    multiples of [2^-1074] below [2^-1022]. *)
Definition float_round (x : Q) : Q :=
  if Qeq_bool x 0 then 0%Q
  else
    let a := Qabs x in
    let e := Z.max (ilog2 a - 52) (-1074) in
    let m := (inject_Z (round_half_even (a / 2 ^ e)) * 2 ^ e)%Q in
    if Qle_bool 0 x then m else (- m)%Q.

(** [float(Fraction(a, b))], which is the true division [a / b] of two
    integers: correctly rounded, OverflowError when too large. *)
Definition float_of_fraction (x : Q) : result Q :=
  if Qle_bool float_overflow (Qabs x) then Raise OverflowError
  else Ok (float_round x).

(** ** The statistics module *)

Definition sumQ (data : list Q) : Q := fold_right Qplus 0%Q data.

Definition Qlen (data : list Q) : Q := inject_Z (Z.of_nat (List.length data)).

(** [statistics.mean] of integers: [_sum] adds them exactly and [_convert]
    returns the mean as an [int] when it is whole, as a [float] otherwise. *)
Definition mean (data : list Z) : result Q :=
  match data with
  | [] => Raise StatisticsError
  | _ =>
      let total := fold_right Z.add 0%Z data in
      let n := Z.of_nat (List.length data) in
      if (total mod n =? 0)%Z
      then Ok (inject_Z total / inject_Z n)%Q
      else float_of_fraction (inject_Z total / inject_Z n)%Q
  end.

(** [_ss]: the sum of the squares of the deviations from the mean, computed
    from the exact sums of the data and of their squares. *)
Definition ss (data : list Q) : Q :=
  let count := Qlen data in
  let sx := sumQ data in
  let sxx := sumQ (map (fun x => x * x)%Q data) in
  ((count * sxx - sx * sx) / count)%Q.

(** [statistics.stdev(data) > 0].  With fewer than two data points [stdev]
    raises StatisticsError.  Otherwise it returns the square root of
    [ss / (n - 1)] correctly rounded to a float ([_float_sqrt_of_frac]): the
    conversion raises OverflowError when the root is [float_overflow] or
    more, and the float is [0.0] when the root is at most half of
    [float_min]. *)
Definition stdev_positive (data : list Q) : result bool :=
  if List.length data <? 2 then Raise StatisticsError
  else
    let mss := (ss data / (Qlen data - 1))%Q in
    if Qle_bool (float_overflow * float_overflow) mss then Raise OverflowError
    else Ok (Qlt_bool ((float_min / 2) * (float_min / 2)) mss).

(** ** [max] and [list.index] *)

Section PyOrder.
Variable A : Type.
Variable ltb eqb : A -> A -> bool.

(** [max] keeps the first of several largest items. *)
Fixpoint max_from (best : A) (l : list A) : A :=
  match l with
  | [] => best
  | x :: r => max_from (if ltb best x then x else best) r
  end.

Definition py_max (l : list A) : result A :=
  match l with
  | [] => Raise ValueError
  | x :: r => Ok (max_from x r)
  end.

(** [l.index(x)]: the position of the first item equal to [x]. *)
Fixpoint index_from (i : nat) (x : A) (l : list A) : result Z :=
  match l with
  | [] => Raise ValueError
  | y :: r => if eqb y x then Ok (Z.of_nat i) else index_from (S i) x r
  end.

Definition py_index (l : list A) (x : A) : result Z := index_from 0 x l.

End PyOrder.

(** ** The random module *)

(** The process-wide random source, seeded once when the module is loaded:
    a state and [random.randint(a, b)], which returns an integer between
    [a] and [b], both included, and moves the state on. *)
Record RandomSource : Type := mkRandomSource {
  rng_state : Type;
  randint : rng_state -> Z -> Z -> Z * rng_state;
  randint_range :
    forall s a b, (a <= b)%Z -> (a <= fst (randint s a b) <= b)%Z
}.

Arguments randint R s a b : rename.
Arguments randint_range R s a b : rename.

(** A source that always draws the lower bound. *)
Definition lowest_source : RandomSource :=
  @mkRandomSource unit (fun s a _ => (a, s))
                  (fun _ a _ H => conj (Z.le_refl a) H).

(** A source that draws the upper bound and counts its draws. *)
Definition highest_source : RandomSource :=
  @mkRandomSource nat (fun s _ b => (b, S s))
                  (fun _ _ b H => conj H (Z.le_refl b)).

(** [random.randint(a, b)] as called: an empty range raises ValueError. *)
Definition py_randint (R : RandomSource) (rs : rng_state R) (a b : Z)
  : result (Z * rng_state R) :=
  if (b <? a)%Z then Raise ValueError else Ok (randint R rs a b).

Definition path_eqb (p q : list node) : bool :=
  if list_eq_dec string_dec p q then true else false.

Section Simplification.

(** The random source of the process. *)
Variable R : RandomSource.

(** The iteration order of a Python set of strings depends on the hash seed
    of the process: [set_pick s] is the position, modulo the size of [s], of
    the element that [next(iter(s))] yields. *)
Variable set_pick : list node -> nat.

(** ** Selecting the best path *)

(** The first half of [select_best_path]: the two standard deviations, the
    index of the best path and the best path itself. *)
Definition choose_best_path (path_list : list (list node))
           (path_length : list Z) (weight_avg_list : list Q) (rs : rng_state R)
  : result (list node * rng_state R) :=
  std_poids <- stdev_positive weight_avg_list ;;
  std_long <- stdev_positive (map inject_Z path_length) ;;
  choice <-
    (if std_poids : bool then
       m <- py_max Qlt_bool weight_avg_list ;;
       i <- py_index Qeq_bool weight_avg_list m ;;
       Ok (i, rs)
     else if std_long : bool then
       m <- py_max Z.ltb path_length ;;
       i <- py_index Z.eqb path_length m ;;
       Ok (i, rs)
     else
       py_randint R rs 0 (Z.of_nat (List.length path_list) - 1)) ;;
  best_path <- list_getitem path_list (fst choice) ;;
  Ok (best_path, snd choice).

(** [select_best_path]: every path that differs from the best one is
    removed, each time from the graph the previous removal returned. *)
Definition select_best_path (graph : DiGraph) (path_list : list (list node))
           (path_length : list Z) (weight_avg_list : list Q)
           (delete_entry_node delete_sink_node : bool) (rs : rng_state R)
  : result (DiGraph * rng_state R) :=
  chosen <- choose_best_path path_list path_length weight_avg_list rs ;;
  Ok (fold_left
        (fun graph path =>
           if negb (path_eqb path (fst chosen))
           then remove_paths graph [path] delete_entry_node delete_sink_node
           else graph)
        path_list graph,
      snd chosen).

(** ** The average weight of a path *)

(** The edges of [graph.subgraph(path)]: the edges of the graph with both
    ends among the nodes of the path. *)
Definition subgraph_edges (graph : DiGraph) (path : list node) : list edge :=
  filter (fun e => mem (src e) path && mem (dst e) path) (edges_view graph).

Definition path_average_weight (graph : DiGraph) (path : list node) : result Q :=
  mean (map weight (subgraph_edges graph path)).

(** ** networkx algorithms *)

(** Breadth-first closure of a set of nodes under a neighbour function. *)
Definition add_new (seen new : list node) : list node :=
  fold_left (fun acc x => if mem x acc then acc else acc ++ [x]) new seen.

Fixpoint closure (fuel : nat) (next : node -> list node) (seen : list node)
  : list node :=
  match fuel with
  | O => seen
  | S f => closure f next (add_new seen (flat_map next seen))
  end.

(** [nx.ancestors(G, v) | {v}] and [nx.descendants(G, v) | {v}] *)
Definition ancestors_or_self (g : DiGraph) (v : node) : list node :=
  closure (List.length (nodes g)) (predecessors g) [v].

Definition descendants_or_self (g : DiGraph) (v : node) : list node :=
  closure (List.length (nodes g)) (successors g) [v].

(** [nx.has_path] *)
Definition has_path (g : DiGraph) (source target : node) : result bool :=
  if has_node g source && has_node g target
  then Ok (mem target (descendants_or_self g source))
  else Raise NodeNotFound.

(** [nx.is_directed_acyclic_graph]: the nodes without a predecessor among
    the remaining nodes are taken away, round after round; the graph is
    acyclic when no node remains. *)
Fixpoint peel (fuel : nat) (g : DiGraph) (remaining : list node) : list node :=
  match fuel with
  | O => remaining
  | S f =>
      peel f g (filter (fun n => existsb (fun p => mem p remaining) (predecessors g n))
                       remaining)
  end.

Definition is_directed_acyclic_graph (g : DiGraph) : bool :=
  match peel (List.length (nodes g)) g (nodes g) with
  | [] => true
  | _ => false
  end.

(** [nx.lowest_common_ancestor] (networkx 3): from some common ancestor, go
    down to a successor that is a common ancestor too, until there is none.
    On a directed acyclic graph the descent takes fewer steps than there are
    nodes. *)
Fixpoint descend (fuel : nat) (g : DiGraph) (common : list node) (a : node) : node :=
  match fuel with
  | O => a
  | S f =>
      match find (fun s => mem s common) (successors g a) with
      | Some s => descend f g common s
      | None => a
      end
  end.

Definition common_ancestors (g : DiGraph) (node1 node2 : node) : list node :=
  filter (fun a => mem a (ancestors_or_self g node2)) (ancestors_or_self g node1).

Definition lowest_common_ancestor (g : DiGraph) (node1 node2 : node)
  : result (option node) :=
  if negb (is_directed_acyclic_graph g) then Raise NetworkXError
  else if List.length (nodes g) =? 0 then Raise NetworkXPointlessConcept
  else if negb (has_node g node1 && has_node g node2) then Raise NodeNotFound
  else
    let common := common_ancestors g node1 node2 in
    match common with
    | [] => Ok None
    | _ =>
        let first := nth (set_pick common mod List.length common) common "" in
        Ok (Some (descend (List.length (nodes g)) g common first))
    end.

(** [set(target)] for a string that is not a node: its characters. *)
Definition chars (s : string) : list node :=
  map (fun c => String c EmptyString) (list_ascii_of_string s).

(** [nx.all_simple_paths] (networkx 3): depth-first, the successors taken in
    adjacency order; [fuel] is what is left of the cutoff [len(G) - 1]. *)
Fixpoint simple_paths_from (fuel : nat) (g : DiGraph) (targets : list node)
         (path : list node) (current : node) : list (list node) :=
  flat_map
    (fun child =>
       if mem child path then []
       else
         (if mem child targets then [path ++ [child]] else [])
         ++ match fuel with
            | O => []
            | S f =>
                if existsb (fun t => negb (mem t (path ++ [child]))) targets
                then simple_paths_from f g targets (path ++ [child]) child
                else []
            end)
    (successors g current).

Definition all_simple_paths (g : DiGraph) (source target : node)
  : result (list (list node)) :=
  if negb (has_node g source) then Raise NodeNotFound
  else
    let targets := if has_node g target then [target] else chars target in
    let cutoff := List.length (nodes g) - 1 in
    Ok ((if mem source targets then [[source]] else [])
        ++ (if (0 <? cutoff) && existsb (fun t => negb (mem t [source])) targets
            then simple_paths_from (cutoff - 1) g targets [source] source
            else [])).

(** ** Bubbles *)

Definition solve_bubble (graph : DiGraph) (ancestor_node descendant_node : node)
           (rs : rng_state R) : result (DiGraph * rng_state R) :=
  paths <- all_simple_paths graph ancestor_node descendant_node ;;
  let path_long := map (fun path => Z.of_nat (List.length path)) paths in
  path_poid <- mapM (path_average_weight graph) paths ;;
  select_best_path graph paths path_long path_poid false false rs.

(** The pairs [(l[i], l[j])] with [i < j]. *)
Fixpoint combinations (l : list node) : list (node * node) :=
  match l with
  | [] => []
  | x :: r => map (pair x) r ++ combinations r
  end.

(** The scan of one node's pairs of predecessors: the first lowest common
    ancestor found. *)
Fixpoint first_ancestor (graph : DiGraph) (pairs : list (node * node))
  : result (option node) :=
  match pairs with
  | [] => Ok None
  | combination :: r =>
      noeud_ancetre <-
        lowest_common_ancestor graph (fst combination) (snd combination) ;;
      match noeud_ancetre with
      | Some a => Ok (Some a)
      | None => first_ancestor graph r
      end
  end.

(** The scan of the nodes: the first bubble found, as (ancestor, node). *)
Fixpoint find_bubble (graph : DiGraph) (list_nodes_graph : list node)
  : result (option (node * node)) :=
  match list_nodes_graph with
  | [] => Ok None
  | n :: r =>
      let list_predecessors := predecessors graph n in
      if 1 <? List.length list_predecessors
      then
        found <- first_ancestor graph (combinations list_predecessors) ;;
        match found with
        | Some a => Ok (Some (a, n))
        | None => find_bubble graph r
        end
      else find_bubble graph r
  end.

(** [simplify_bubbles]; [None] when the recursion is deeper than [fuel]. *)
Fixpoint simplify_bubbles (fuel : nat) (graph : DiGraph) (rs : rng_state R)
  : option (result (DiGraph * rng_state R)) :=
  match fuel with
  | O => None
  | S f =>
      match find_bubble graph (nodes graph) with
      | Raise e => Some (Raise e)
      | Ok None => Some (Ok (graph, rs))
      | Ok (Some (noeud_ancetre, n)) =>
          match solve_bubble graph noeud_ancetre n rs with
          | Raise e => Some (Raise e)
          | Ok (graph', rs') => simplify_bubbles f graph' rs'
          end
      end
  end.

(** ** Tips *)

Definition tip_pairs (graph : DiGraph) (degree : node -> nat) (ends : list node)
  : list (node * node) :=
  flat_map (fun n => flat_map (fun e => if 1 <? degree n then [(n, e)] else []) ends)
           (nodes graph).

Definition solve_tips (graph : DiGraph) (path_list : list (list (list node)))
           (delete_entry_node delete_sink_node : bool) (rs : rng_state R)
  : result (DiGraph * rng_state R) :=
  match path_list with
  | [] => Ok (graph, rs)
  | _ =>
      let flat := List.concat path_list in
      let path_length := map (fun path => Z.of_nat (List.length path)) flat in
      weight_avg <- mapM (path_average_weight graph) flat ;;
      select_best_path graph flat path_length weight_avg
                       delete_entry_node delete_sink_node rs
  end.

Definition solve_entry_tips (graph : DiGraph) (starting_nodes : list node)
           (rs : rng_state R) : result (DiGraph * rng_state R) :=
  path_list <-
    mapM (fun p => all_simple_paths graph (snd p) (fst p))
         (tip_pairs graph (fun n => List.length (predecessors graph n)) starting_nodes) ;;
  solve_tips graph path_list true false rs.

Definition solve_out_tips (graph : DiGraph) (ending_nodes : list node)
           (rs : rng_state R) : result (DiGraph * rng_state R) :=
  path_list <-
    mapM (fun p => all_simple_paths graph (fst p) (snd p))
         (tip_pairs graph (fun n => List.length (successors graph n)) ending_nodes) ;;
  solve_tips graph path_list false true rs.

End Simplification.

(** ** Contigs *)

Definition get_starting_nodes (graph : DiGraph) : list node :=
  filter (fun n => List.length (predecessors graph n) =? 0) (nodes graph).

Definition get_sink_nodes (graph : DiGraph) : list node :=
  filter (fun n => List.length (successors graph n) =? 0) (nodes graph).

(** [node[-1]] *)
Definition last_char (n : string) : result string :=
  match n with
  | EmptyString => Raise IndexError
  | _ => Ok (substring (String.length n - 1) 1 n)
  end.

(** The inner loop of [get_contigs] over the nodes of one path. *)
Fixpoint join_contig (contig_sequence : string) (contig : list node) : result string :=
  match contig with
  | [] => Ok contig_sequence
  | n :: r =>
      if String.length contig_sequence =? 0
      then join_contig (contig_sequence ++ n)%string r
      else c <- last_char n ;; join_contig (contig_sequence ++ c)%string r
  end.

Definition get_contigs (graph : DiGraph) (starting_nodes ending_nodes : list node)
  : result (list (string * Z)) :=
  per_start <-
    mapM (fun node_start =>
            per_target <-
              mapM (fun node_target =>
                      connected <- has_path graph node_start node_target ;;
                      if connected : bool then
                        all_contigs <- all_simple_paths graph node_start node_target ;;
                        mapM (fun contig =>
                                contig_sequence <- join_contig "" contig ;;
                                Ok (contig_sequence,
                                    Z.of_nat (String.length contig_sequence)))
                             all_contigs
                      else Ok [])
                   ending_nodes ;;
            Ok (List.concat per_target))
         starting_nodes ;;
  Ok (List.concat per_start).

(** ** Graph objects

    Python passes graphs by reference and networkx removes nodes in place.
    The store holds the graph objects that exist; a reference is the
    position of an object in the store.  The functions below are
    [remove_paths] and [select_best_path] with their graphs as references. *)

Definition ref : Type := nat.

Definition store : Type := list DiGraph.

Definition deref (h : store) (r : ref) : option DiGraph := nth_error h r.

(** A computation on the store; [None] when a reference points nowhere. *)
Definition Obj (A : Type) : Type := store -> option (A * store).

Definition obj_ret {A : Type} (a : A) : Obj A := fun h => Some (a, h).

Definition obj_bind {A B : Type} (m : Obj A) (k : A -> Obj B) : Obj B :=
  fun h => match m h with
           | Some (a, h') => k a h'
           | None => None
           end.

Fixpoint update (h : store) (r : ref) (f : DiGraph -> DiGraph) : store :=
  match h, r with
  | [], _ => []
  | g :: t, O => f g :: t
  | g :: t, S r' => g :: update t r' f
  end.

(** [graph.copy()]: a new object. *)
Definition obj_copy (graph : ref) : Obj ref :=
  fun h => match deref h graph with
           | Some g => Some (List.length h, h ++ [copy g])
           | None => None
           end.

(** [graph.remove_nodes_from(ns)]: the object is changed in place. *)
Definition obj_remove_nodes_from (graph : ref) (ns : list node) : Obj unit :=
  fun h => match deref h graph with
           | Some _ => Some (tt, update h graph (fun g => remove_nodes_from g ns))
           | None => None
           end.

Fixpoint obj_for {A : Type} (l : list A) (body : A -> Obj unit) : Obj unit :=
  match l with
  | [] => obj_ret tt
  | x :: r => obj_bind (body x) (fun _ => obj_for r body)
  end.

Definition obj_remove_paths (graph : ref) (path_list : list (list node))
           (delete_entry_node delete_sink_node : bool) : Obj ref :=
  obj_bind (obj_copy graph) (fun new_graph =>
  obj_bind (obj_for path_list (fun path =>
              obj_remove_nodes_from new_graph
                (nodes_to_remove path delete_entry_node delete_sink_node)))
           (fun _ => obj_ret new_graph)).

(** The loop of [select_best_path]: the local variable [graph] is bound
    anew to what [remove_paths] returns. *)
Fixpoint obj_remove_others (graph : ref) (best_path : list node)
         (path_list : list (list node))
         (delete_entry_node delete_sink_node : bool) : Obj ref :=
  match path_list with
  | [] => obj_ret graph
  | path :: r =>
      if negb (path_eqb path best_path)
      then obj_bind (obj_remove_paths graph [path] delete_entry_node delete_sink_node)
                    (fun graph' => obj_remove_others graph' best_path r
                                     delete_entry_node delete_sink_node)
      else obj_remove_others graph best_path r delete_entry_node delete_sink_node
  end.

Definition obj_select_best_path (R : RandomSource) (graph : ref)
           (path_list : list (list node))
           (path_length : list Z) (weight_avg_list : list Q)
           (delete_entry_node delete_sink_node : bool) (rs : rng_state R)
  : Obj (result (ref * rng_state R)) :=
  match choose_best_path R path_list path_length weight_avg_list rs with
  | Raise e => obj_ret (Raise e)
  | Ok chosen =>
      obj_bind (obj_remove_others graph (fst chosen) path_list
                                  delete_entry_node delete_sink_node)
               (fun graph' => obj_ret (Ok (graph', snd chosen)))
  end.


(** ** The main program

    [main] without its input and output: the k-mer dictionary of the file,
    its graph, the nodes without predecessor and without successor, and the
    contigs between them, which [save_contigs] then writes.  The graph is
    not simplified. *)
Definition main_contigs (fastq_file : list string) : result (list (string * Z)) :=
  kmer_dict <- build_kmer_dict fastq_file 200%Z ;;
  let graph := build_graph kmer_dict in
  let list_start_nodes := get_starting_nodes graph in
  let list_sink_nodes := get_sink_nodes graph in
  get_contigs graph list_start_nodes list_sink_nodes.

(** * Vocabulary of the properties *)

(** The sample variance: the sum of the squares of the deviations from the
    mean, over the number of data less one. *)
Definition sample_variance (data : list Q) : Q :=
  let m := (sumQ data / Qlen data)%Q in
  (sumQ (map (fun x => (x - m) * (x - m))%Q data) / (Qlen data - 1))%Q.

(** "The standard deviation of the data fits in a float": the square root
    of the sample variance is below [2^1024 - 2^970], half-way between the
    greatest float and [2^1024], from which no finite float is nearest. *)
Definition stdev_fits (data : list Q) : Prop :=
  (sample_variance data < inject_Z ((2 ^ 1024 - 2 ^ 970) ^ 2))%Q.

(** "The standard deviation of the data is greater than zero", for the
    float nearest to it: the square root of the sample variance is more than
    [2^-1075], half the least positive float. *)
Definition stdev_gt_zero (data : list Q) : Prop :=
  (1 # 2 ^ 2150 < sample_variance data)%Q.

(** The arithmetic mean of a list of numbers that is not empty. *)
Definition arithmetic_mean (data : list Q) : result Q :=
  match data with
  | [] => Raise StatisticsError
  | _ => Ok (sumQ data / Qlen data)%Q
  end.

(** A rational number that is an integer. *)
Definition whole (q : Q) : Prop := exists z : Z, (q == inject_Z z)%Q.

(** A finite float: [m * 2^e] with [|m| < 2^53] and [-1074 <= e <= 971]. *)
Definition is_float (f : Q) : Prop :=
  exists m e : Z,
    (Z.abs m < 2 ^ 53)%Z /\ (-1074 <= e <= 971)%Z /\ (f == inject_Z m * 2 ^ e)%Q.

(** [f] is the float nearest to [x]; of two floats equally near, [f] is the
    one whose last bit is zero: an even multiple of their distance. *)
Definition nearest_float (x f : Q) : Prop :=
  is_float f
  /\ forall f', is_float f' ->
       (Qabs (x - f) <= Qabs (x - f'))%Q
       /\ ((Qabs (x - f) == Qabs (x - f'))%Q -> ~ (f' == f)%Q ->
           exists k : Z, (f == inject_Z (2 * k) * (f' - f))%Q).

(** The nodes of a path that are to be deleted, by the two flags: all of
    them, all but the last, all but the first, or the inner ones. *)
Definition to_delete (path : list node)
           (delete_entry_node delete_sink_node : bool) : list node :=
  match delete_entry_node, delete_sink_node with
  | true, true => path
  | true, false => removelast path
  | false, true => tl path
  | false, false => removelast (tl path)
  end.

(** Position [i] holds the first of the largest items of the list. *)
Definition first_max_Q (l : list Q) (i : nat) : Prop :=
  (forall j, j < List.length l -> (nth j l 0 <= nth i l 0)%Q)
  /\ (forall j, j < i -> (nth j l 0 < nth i l 0)%Q).

Definition first_max_Z (l : list Z) (i : nat) : Prop :=
  (forall j, j < List.length l -> (nth j l 0 <= nth i l 0)%Z)
  /\ (forall j, j < i -> (nth j l 0 < nth i l 0)%Z).

(** The graph left when every path other than [kept] has been removed, one
    path after the other in the order of the list. *)
Definition remove_others (graph : DiGraph) (kept : list node)
           (path_list : list (list node))
           (delete_entry_node delete_sink_node : bool) : DiGraph :=
  fold_left (fun g path => remove_paths g [path] delete_entry_node delete_sink_node)
            (filter (fun path => negb (path_eqb path kept)) path_list)
            graph.

(** The sum of the weights of a list of edges. *)
Definition sum_weights (l : list edge) : Z :=
  fold_right Z.add 0%Z (map weight l).

(** The sum of the counts of a k-mer dictionary. *)
Definition sum_counts (d : dict Z) : Z :=
  fold_right Z.add 0%Z (map snd d).

Definition endpoints (e : edge) : node * node := (src e, dst e).

(** What every networkx graph satisfies: a node is stored once, and the
    ends of an edge are nodes of the graph. *)
Definition well_formed (g : DiGraph) : Prop :=
  NoDup (nodes g)
  /\ forall e, In e (edges g) -> In (src e) (nodes g) /\ In (dst e) (nodes g).

(** At most one edge between any ordered pair of nodes. *)
Definition simple_edges (g : DiGraph) : Prop :=
  NoDup (map endpoints (edges g)).

(** Every weight is a positive integer. *)
Definition positive_weights (g : DiGraph) : Prop :=
  forall e, In e (edges g) -> (0 < weight e)%Z.

Definition graph_invariant (g : DiGraph) : Prop :=
  well_formed g /\ simple_edges g /\ positive_weights g.

(** No weight is above [2^1023] in absolute value, and there are at most
    [2^1023] nodes. *)
Definition float_sized (g : DiGraph) : Prop :=
  (forall e, In e (edges g) -> (Z.abs (weight e) <= 2 ^ 1023)%Z)
  /\ (Z.of_nat (List.length (nodes g)) <= 2 ^ 1023)%Z.

(** The number of positions of a read at which a given string of length 3
    starts, and the total over the reads. *)
Definition occurrences_in (kmer read : string) : nat :=
  List.length (filter (fun i => String.eqb (substring i 3 read) kmer)
                      (seq 0 (String.length read - 2))).

Definition occurrences (kmer : string) (reads : list string) : nat :=
  fold_right Nat.add 0 (map (occurrences_in kmer) reads).

(** The dictionary holds exactly the occurrence counts of the 3-mers of the
    reads: a key for each 3-mer that occurs, once, with its count. *)
Definition counts_3mers (d : dict Z) (reads : list string) : Prop :=
  NoDup (map fst d)
  /\ forall kmer,
       dict_get d kmer
       = if occurrences kmer reads =? 0 then None
         else Some (Z.of_nat (occurrences kmer reads)).

(** Consecutive nodes of the list are joined by an edge of the graph. *)
Fixpoint chain (g : DiGraph) (path : list node) : Prop :=
  match path with
  | u :: (v :: _) as r => has_edge g u v = true /\ chain g r
  | _ => True
  end.

(** A simple path of the graph from [source] to [target]. *)
Definition simple_path (g : DiGraph) (source target : node) (path : list node) : Prop :=
  NoDup path /\ chain g path
  /\ hd_error path = Some source /\ last path source = target.

(** The last character of a node, as a string. *)
Definition last_one (n : string) : string :=
  substring (String.length n - 1) 1 n.

(** The first node in full, then the last character of every other node. *)
Definition contig_of (path : list node) : string :=
  match path with
  | [] => ""
  | first :: rest => (first ++ fold_right (fun n s => last_one n ++ s) "" rest)%string
  end.

(** The length of the first node plus the number of edges of the path. *)
Definition contig_length (path : list node) : Z :=
  Z.of_nat (String.length (hd "" path) + (List.length path - 1)).

(** The edges between consecutive nodes of a path. *)
Fixpoint consecutive_edges (g : DiGraph) (path : list node) : list edge :=
  match path with
  | u :: (v :: _) as r => filter (is_edge u v) (edges g) ++ consecutive_edges g r
  | _ => []
  end.

(** The mean of the weights of the edges between consecutive nodes. *)
Definition consecutive_mean (g : DiGraph) (path : list node) : result Q :=
  arithmetic_mean (map (fun e => inject_Z (weight e)) (consecutive_edges g path)).

(** A graph is acyclic when its nodes can be ranked so that every edge goes
    from a lower rank to a higher one. *)
Definition acyclic (g : DiGraph) : Prop :=
  exists rank : node -> nat,
    forall e, In e (edges g) -> rank (src e) < rank (dst e).

(** [reaches g a b]: there is a path from [a] to [b], possibly empty. *)
Inductive reaches (g : DiGraph) : node -> node -> Prop :=
| reaches_refl : forall n, reaches g n n
| reaches_step : forall a b c,
    has_edge g a b = true -> reaches g b c -> reaches g a c.

(** [a] is a common ancestor of [u] and [v], each node counting among its
    own ancestors. *)
Definition common_ancestor (g : DiGraph) (u v a : node) : Prop :=
  reaches g a u /\ reaches g a v.

(** A lowest common ancestor: a common ancestor none of whose successors is
    a common ancestor. *)
Definition lowest_common_ancestor_of (g : DiGraph) (u v a : node) : Prop :=
  common_ancestor g u v a
  /\ forall s, has_edge g a s = true -> ~ common_ancestor g u v s.

(** No bubble: no node has a pair of predecessors with a lowest common
    ancestor. *)
Definition no_bubble (g : DiGraph) : Prop :=
  forall n u v,
    In n (nodes g) -> In (u, v) (combinations (predecessors g n)) ->
    ~ exists a, lowest_common_ancestor_of g u v a.

(** The nodes that the removal of the paths other than [kept] deletes. *)
Definition removed_nodes (kept : list node) (path_list : list (list node))
           (delete_entry_node delete_sink_node : bool) : list node :=
  flat_map (fun path => nodes_to_remove path delete_entry_node delete_sink_node)
           (filter (fun path => negb (path_eqb path kept)) path_list).

(** [g'] is [g] without the nodes of [gone] and without the edges that touch
    them. *)
Definition is_without (g' g : DiGraph) (gone : list node) : Prop :=
  nodes g' = filter (fun n => negb (mem n gone)) (nodes g)
  /\ (well_formed g ->
      forall e, In e (edges g')
                <-> In e (edges g) /\ ~ In (src e) gone /\ ~ In (dst e) gone).

(** The first and the last character of a string, when it has one. *)
Definition first_char (s : string) : option ascii :=
  match s with
  | String c _ => Some c
  | EmptyString => None
  end.

Fixpoint final_char (s : string) : option ascii :=
  match s with
  | EmptyString => None
  | String c EmptyString => Some c
  | String _ r => final_char r
  end.

(** Neither end of the string is a whitespace character. *)
Definition trimmed (s : string) : Prop :=
  (forall c, first_char s = Some c -> isspace c = false)
  /\ (forall c, final_char s = Some c -> isspace c = false).

(** The number of windows of 3 characters of the reads. *)
Definition count_windows (reads : list string) : nat :=
  fold_right Nat.add 0 (map (fun read => String.length read - 2) reads).

(** The two nodes of a k-mer: [kmer[:-1]] and [kmer[1:]]. *)
Definition prefix_of (kmer : string) : node := str_slice kmer None (Some (-1)%Z).

Definition suffix_of (kmer : string) : node := str_slice kmer (Some 1%Z) None.

(** The total count of the k-mers of the dictionary that go from [u] to [v]. *)
Definition pair_count (kmer_dict : dict Z) (u v : node) : Z :=
  fold_right Z.add 0%Z
    (map snd (filter (fun item => String.eqb (prefix_of (fst item)) u
                                  && String.eqb (suffix_of (fst item)) v)
                     kmer_dict)).

(** [u] is followed by [v] in the path. *)
Definition consecutive (path : list node) (u v : node) : Prop :=
  exists before after, path = before ++ u :: v :: after.

(** No chord: every edge of the graph between two nodes of the path joins a
    node of the path to the next one. *)
Definition chord_free (g : DiGraph) (path : list node) : Prop :=
  forall e, In e (edges g) -> In (src e) path -> In (dst e) path ->
            consecutive path (src e) (dst e).

(** ** Auxiliary definitions of the proofs *)

(** The graph of [build_graph_step] once both nodes are there. *)
Definition with_nodes (graph : DiGraph) (prefix suffix : node) : DiGraph :=
  let graph := if negb (has_node graph prefix) then add_node graph prefix else graph in
  if negb (has_node graph suffix) then add_node graph suffix else graph.

(** The count a dictionary gives to a k-mer, 0 when it is not a key. *)
Definition count_of (d : dict Z) (k : string) : Z :=
  match dict_get d k with Some n => n | None => 0%Z end.

Definition matches (k : string) (l : list string) : nat :=
  List.length (filter (fun s => String.eqb s k) l).

(** Keys are stored once and every stored count is at least 1. *)
Definition counting (d : dict Z) : Prop :=
  NoDup (map fst d) /\ forall k n, dict_get d k = Some n -> (1 <= n)%Z.

(** The squared deviation from [m]. *)
Definition sq_dev (m x : Q) : Q := ((x - m) * (x - m))%Q.

(** Every key has 3 characters and every count is at least 1. *)
Definition three_mers (d : dict Z) : Prop :=
  forall kmer count, In (kmer, count) d -> String.length kmer = 3 /\ (1 <= count)%Z.

(** The total weight of the edges from [u] to [v]. *)
Definition edge_weight (g : DiGraph) (u v : node) : Z :=
  sum_weights (filter (is_edge u v) (edges g)).

(** Consecutive nodes of the path are the two nodes of a string of three
    characters that has the property [Q]. *)
Fixpoint overlapping (Q : string -> Prop) (path : list node) : Prop :=
  match path with
  | u :: (v :: _) as r =>
      (exists kmer, String.length kmer = 3
                    /\ prefix_of kmer = u /\ suffix_of kmer = v /\ Q kmer)
      /\ overlapping Q r
  | _ => True
  end.

(** ** Graphs used as examples *)

(** Two paths from AC to CG: AC -> CC -> CG, of weights 10 and 10, and the
    edge AC -> CG, of weight 1. *)
Definition g_bubble : DiGraph :=
  build_graph [("ACC", 10%Z); ("CCG", 10%Z); ("ACG", 1%Z)].

(** A node that is the empty string, followed by a node of two characters. *)
Definition g_empty_node : DiGraph :=
  mkGraph [""; "AB"] [mkEdge "" "AB" 1].

(** Two branches that meet in TC without a common ancestor, and the cycle
    GA -> AG -> GA apart from them. *)
Definition g_cycle : DiGraph :=
  build_graph [("ATC", 1%Z); ("GTC", 1%Z); ("GAG", 1%Z); ("AGA", 1%Z)].

(** Two branches that meet in TC without a common ancestor. *)
Definition g_merge : DiGraph :=
  build_graph [("ATC", 1%Z); ("GTC", 1%Z)].

(** A bubble with a node on each side: AC -> CG -> GT -> TA, every edge of
    weight 5, and AC -> CC -> CT -> TA, every edge of weight 1. *)
Definition g_diamond : DiGraph :=
  build_graph [("ACG", 5%Z); ("CGT", 5%Z); ("GTA", 5%Z);
               ("ACC", 1%Z); ("CCT", 1%Z); ("CTA", 1%Z)].


(** [g_merge] with an edge of weight [10^400]. *)
Definition g_merge_huge : DiGraph :=
  build_graph [("ATC", 10 ^ 400)%Z; ("GTC", 1%Z)].

(** Two branches that leave AT. *)
Definition g_fork : DiGraph :=
  build_graph [("ATC", 1%Z); ("ATG", 1%Z)].

(** [g_diamond] without the side of weight 1. *)
Definition g_diamond_heavy : DiGraph :=
  mkGraph ["AC"; "CG"; "GT"; "TA"]
          [mkEdge "AC" "CG" 5; mkEdge "CG" "GT" 5; mkEdge "GT" "TA" 5].

(** The two paths of [g_bubble] from AC to CG. *)
Definition bubble_paths : list (list node) :=
  [["AC"; "CC"; "CG"]; ["AC"; "CG"]].

(** A file of one record. *)
Definition one_read : list string :=
  ["@read1"; "ACGTA "; "+"; "IIIII"].

(** * Properties *)

(** ** Runs of the model *)

Example run_build_kmer_dict :
  build_kmer_dict one_read 22%Z = Ok [("ACG", 1%Z); ("CGT", 1%Z); ("GTA", 1%Z)]
  /\ build_kmer_dict ["@read1"; "ACGTA"] 22%Z = Raise RuntimeError.
Proof. split; reflexivity. Qed.

Example run_build_graph :
  g_bubble = mkGraph ["AC"; "CC"; "CG"]
                     [mkEdge "AC" "CC" 10; mkEdge "CC" "CG" 10; mkEdge "AC" "CG" 1]
  /\ copy g_bubble
     = mkGraph ["AC"; "CC"; "CG"]
               [mkEdge "AC" "CC" 10; mkEdge "AC" "CG" 1; mkEdge "CC" "CG" 10].
Proof. split; reflexivity. Qed.

Example run_all_simple_paths :
  all_simple_paths g_bubble "AC" "CG" = Ok bubble_paths
  /\ all_simple_paths g_bubble "CG" "AC" = Ok []
  /\ all_simple_paths g_bubble "AA" "CG" = Raise NodeNotFound.
Proof. repeat split; reflexivity. Qed.

(** The bubble of [g_diamond] is resolved in one step: the branch of weight
    1 loses its two inner nodes, and the next scan finds no bubble. *)
Example run_simplify_bubbles :
  simplify_bubbles lowest_source (fun _ => 0) 2 g_diamond tt
  = Some (Ok (mkGraph ["AC"; "CG"; "GT"; "TA"]
                      [mkEdge "AC" "CG" 5; mkEdge "CG" "GT" 5; mkEdge "GT" "TA" 5],
              tt)).
Proof. reflexivity. Qed.

Example run_get_contigs :
  get_contigs g_bubble (get_starting_nodes g_bubble) (get_sink_nodes g_bubble)
  = Ok [("ACCG", 4%Z); ("ACG", 3%Z)].
Proof. reflexivity. Qed.

(** ** Generic facts *)

Lemma mem_In (x : string) (l : list string) : mem x l = true <-> In x l.
Proof.
  unfold mem. rewrite existsb_exists. split.
  - intros [y [Hy E]]. apply String.eqb_eq in E. now subst.
  - intros H. exists x. split; [assumption | apply String.eqb_refl].
Qed.

Lemma mem_false (x : string) (l : list string) : mem x l = false <-> ~ In x l.
Proof.
  rewrite <- mem_In. destruct (mem x l); split; congruence.
Qed.

Lemma path_eqb_eq (p q : list node) : path_eqb p q = true <-> p = q.
Proof.
  unfold path_eqb. destruct (list_eq_dec string_dec p q); split; congruence.
Qed.

Lemma path_eqb_refl (p : list node) : path_eqb p p = true.
Proof. now apply path_eqb_eq. Qed.

(** The three slices of [remove_paths]. *)
Lemma list_slice_tail (A : Type) (l : list A) :
  list_slice l (Some 1%Z) None = skipn 1 l.
Proof.
  unfold list_slice, slice_bounds, clamp_index.
  assert (E : (1 <? 0)%Z = false) by reflexivity. rewrite E.
  destruct l as [|x r]; [reflexivity |].
  replace (Z.to_nat (Z.min 1 (Z.of_nat (List.length (x :: r))))) with 1
    by (simpl List.length; lia).
  replace (Z.to_nat (Z.of_nat (List.length (x :: r))
                     - Z.min 1 (Z.of_nat (List.length (x :: r)))))
    with (List.length r) by (simpl List.length; lia).
  simpl. apply firstn_all.
Qed.

Lemma list_slice_init (A : Type) (l : list A) :
  list_slice l None (Some (-1)%Z) = removelast l.
Proof.
  unfold list_slice, slice_bounds, clamp_index.
  assert (E : (-1 <? 0)%Z = true) by reflexivity. rewrite E.
  replace (Z.to_nat (Z.max 0 (-1 + Z.of_nat (List.length l)) - 0))
    with (pred (List.length l)) by lia.
  simpl. symmetry. apply removelast_firstn_len.
Qed.

Lemma list_slice_inner (A : Type) (l : list A) :
  list_slice l (Some 1%Z) (Some (-1)%Z) = removelast (skipn 1 l).
Proof.
  unfold list_slice, slice_bounds, clamp_index.
  assert (E1 : (1 <? 0)%Z = false) by reflexivity.
  assert (E2 : (-1 <? 0)%Z = true) by reflexivity. rewrite E1, E2.
  destruct l as [|x r]; [reflexivity |].
  replace (Z.to_nat (Z.min 1 (Z.of_nat (List.length (x :: r))))) with 1
    by (simpl List.length; lia).
  replace (Z.to_nat (Z.max 0 (-1 + Z.of_nat (List.length (x :: r)))
                     - Z.min 1 (Z.of_nat (List.length (x :: r)))))
    with (pred (List.length r)) by (simpl List.length; lia).
  simpl. symmetry. apply removelast_firstn_len.
Qed.

Lemma nodes_to_remove_to_delete (path : list node) (e s : bool) :
  nodes_to_remove path e s = to_delete path e s.
Proof.
  unfold nodes_to_remove, to_delete. destruct e, s; simpl.
  - reflexivity.
  - apply list_slice_init.
  - rewrite list_slice_tail. now destruct path.
  - rewrite list_slice_inner. now destruct path.
Qed.

Lemma has_node_In (g : DiGraph) (n : node) : has_node g n = true <-> In n (nodes g).
Proof. apply mem_In. Qed.

Lemma bind_Ok (A B : Type) (r : result A) (k : A -> result B) (b : B) :
  bind r k = Ok b -> exists a, r = Ok a /\ k a = Ok b.
Proof. destruct r as [a|e]; simpl; [eauto | discriminate]. Qed.

Lemma mapM_In (A B : Type) (f : A -> result B) (l : list A) (ys : list B) :
  mapM f l = Ok ys -> forall y, In y ys -> exists x, In x l /\ f x = Ok y.
Proof.
  revert ys. induction l as [|x r IH]; intros ys H y Hy; simpl in H.
  - inversion H; subst. destruct Hy.
  - apply bind_Ok in H. destruct H as [y0 [E0 H]].
    apply bind_Ok in H. destruct H as [ys0 [E1 H]].
    inversion H; subst. destruct Hy as [<- | Hy].
    + exists x. split; [now left | assumption].
    + destruct (IH ys0 E1 y Hy) as [x' [Hx' E']].
      exists x'. split; [now right | assumption].
Qed.

Lemma mapM_length (A B : Type) (f : A -> result B) (l : list A) (ys : list B) :
  mapM f l = Ok ys -> List.length ys = List.length l.
Proof.
  revert ys. induction l as [|x r IH]; intros ys H; simpl in H.
  - now inversion H.
  - apply bind_Ok in H. destruct H as [y0 [E0 H]].
    apply bind_Ok in H. destruct H as [ys0 [E1 H]].
    inversion H; subst. simpl. f_equal. now apply IH.
Qed.

(** ** The first largest item *)

Section FirstMax.
Variable A : Type.
Variable ltb eqb : A -> A -> bool.
Variable lt : A -> A -> Prop.
Hypothesis ltb_spec : forall x y, ltb x y = true <-> lt x y.
Hypothesis eqb_spec : forall x y, eqb x y = true <-> (~ lt x y /\ ~ lt y x).
Hypothesis lt_irrefl : forall x, ~ lt x x.
Hypothesis lt_trans : forall x y z, lt x y -> lt y z -> lt x z.
Hypothesis lt_neg_trans : forall x y z, ~ lt x y -> ~ lt y z -> ~ lt x z.

Lemma max_from_In (best : A) (l : list A) : In (max_from ltb best l) (best :: l).
Proof.
  revert best. induction l as [|x r IH]; intros best; simpl.
  - now left.
  - destruct (IH (if ltb best x then x else best)) as [E | H].
    + destruct (ltb best x); [right; left | left]; exact E.
    + right. right. exact H.
Qed.

Lemma max_from_ge_best (best : A) (l : list A) : ~ lt (max_from ltb best l) best.
Proof.
  revert best. induction l as [|x r IH]; intros best; simpl.
  - apply lt_irrefl.
  - destruct (ltb best x) eqn:E.
    + apply ltb_spec in E. intros H. apply (IH x). eapply lt_trans; eassumption.
    + apply IH.
Qed.

Lemma max_from_upper (best : A) (l : list A) (y : A) :
  In y (best :: l) -> ~ lt (max_from ltb best l) y.
Proof.
  revert best. induction l as [|x r IH]; intros best H; simpl.
  - destruct H as [<- | []]. apply lt_irrefl.
  - destruct H as [<- | [<- | H]].
    + destruct (ltb best x) eqn:E.
      * apply ltb_spec in E. intros H. apply (@max_from_ge_best x r).
        eapply lt_trans; eassumption.
      * apply max_from_ge_best.
    + destruct (ltb best x) eqn:E.
      * apply max_from_ge_best.
      * assert (E' : ~ lt best x) by (rewrite <- ltb_spec; congruence).
        eapply lt_neg_trans; [apply max_from_ge_best | exact E'].
    + apply IH. now right.
Qed.

Lemma index_from_found (d : A) (x : A) (l : list A) (k : nat) :
  (exists y, In y l /\ eqb y x = true) ->
  exists i, index_from eqb k x l = Ok (Z.of_nat (k + i))
            /\ i < List.length l
            /\ eqb (nth i l d) x = true
            /\ forall j, j < i -> eqb (nth j l d) x = false.
Proof.
  revert k. induction l as [|y r IH]; intros k [z [Hz Ez]].
  - destruct Hz.
  - simpl. destruct (eqb y x) eqn:E.
    + exists 0. rewrite Nat.add_0_r. repeat split; simpl; try lia; try assumption.
    + destruct Hz as [-> | Hz]; [congruence |].
      destruct (IH (S k)) as [i [Hi [Hlen [Hx Hlt]]]]; [now exists z |].
      exists (S i). replace (k + S i) with (S k + i) by lia.
      repeat split; simpl; try lia; try assumption.
      intros [|j] Hj; [exact E | apply Hlt; lia].
Qed.

(** What [l.index(max(l))] returns on a list that is not empty: the position
    of an item that no item exceeds and that every earlier item is below. *)
Lemma index_of_max (d : A) (l : list A) :
  l <> [] ->
  exists m i, py_max ltb l = Ok m
              /\ py_index eqb l m = Ok (Z.of_nat i)
              /\ i < List.length l
              /\ (forall j, j < List.length l -> ~ lt (nth i l d) (nth j l d))
              /\ (forall j, j < i -> lt (nth j l d) (nth i l d)).
Proof.
  destruct l as [|x r]; [congruence | intros _].
  set (m := max_from ltb x r).
  assert (Hin : In m (x :: r)) by apply max_from_In.
  assert (Hup : forall y, In y (x :: r) -> ~ lt m y) by (intros y; apply max_from_upper).
  assert (Hrefl : eqb m m = true) by (apply eqb_spec; split; apply lt_irrefl).
  destruct (@index_from_found d m (x :: r) 0) as [i [Hi [Hlen [Hx Hlt]]]];
    [now exists m |].
  exists m, i. apply eqb_spec in Hx. destruct Hx as [Hx1 Hx2].
  repeat split; try assumption.
  - intros j Hj. eapply lt_neg_trans; [exact Hx1 |]. apply Hup. now apply nth_In.
  - intros j Hj. specialize (Hlt j Hj).
    destruct (ltb (nth j (x :: r) d) (nth i (x :: r) d)) eqn:E;
      [now apply ltb_spec |].
    exfalso.
    assert (E' : ~ lt (nth j (x :: r) d) (nth i (x :: r) d))
      by (rewrite <- ltb_spec; congruence).
    assert (Hjm : ~ lt (nth j (x :: r) d) m) by (eapply lt_neg_trans; eassumption).
    assert (Hmj : ~ lt m (nth j (x :: r) d)) by (apply Hup, nth_In; lia).
    assert (eqb (nth j (x :: r) d) m = true) by (apply eqb_spec; now split).
    congruence.
Qed.

End FirstMax.

(** ** The sign of the standard deviation *)

Lemma sq_dev_nonneg (m x : Q) : (0 <= sq_dev m x)%Q.
Proof.
  unfold sq_dev. destruct (Qlt_le_dec (x - m) 0) as [L | L].
  - setoid_replace ((x - m) * (x - m))%Q with ((m - x) * (m - x))%Q by ring.
    apply Qmult_le_0_compat; lra.
  - now apply Qmult_le_0_compat.
Qed.

Lemma sq_dev_pos (m x : Q) : ~ (x == m)%Q -> (0 < sq_dev m x)%Q.
Proof.
  intros H. unfold sq_dev.
  destruct (Q_dec x m) as [[L | L] | E]; [| | contradiction].
  - setoid_replace ((x - m) * (x - m))%Q with ((m - x) * (m - x))%Q by ring.
    apply Qmult_lt_0_compat; lra.
  - apply Qmult_lt_0_compat; lra.
Qed.

Lemma sq_dev_zero (m x : Q) : (x == m)%Q -> (sq_dev m x == 0)%Q.
Proof. intros H. unfold sq_dev. rewrite H. ring. Qed.

Lemma sum_sq_dev_nonneg (m : Q) (data : list Q) :
  (0 <= sumQ (map (sq_dev m) data))%Q.
Proof.
  induction data as [|x r IH]; simpl; [lra |].
  pose proof (sq_dev_nonneg m x). lra.
Qed.

Lemma sum_sq_dev_pos (m : Q) (data : list Q) :
  (0 < sumQ (map (sq_dev m) data))%Q <-> exists x, In x data /\ ~ (x == m)%Q.
Proof.
  induction data as [|x r IH]; simpl.
  - split; [lra | intros [x [[] _]]].
  - pose proof (sq_dev_nonneg m x) as Hx.
    pose proof (sum_sq_dev_nonneg m r) as Hr. split.
    + intros H. destruct (Qeq_dec x m) as [E | N].
      * apply sq_dev_zero in E.
        destruct IH as [IH _]. destruct IH as [y [Hy Ny]]; [lra |].
        exists y. split; [now right | assumption].
      * exists x. split; [now left | assumption].
    + intros [y [[<- | Hy] Ny]].
      * apply sq_dev_pos in Ny. lra.
      * assert (0 < sumQ (map (sq_dev m) r))%Q by (apply IH; now exists y). lra.
Qed.

Lemma Qlen_pos (data : list Q) : 2 <= List.length data -> (1 < Qlen data)%Q.
Proof.
  intros H. unfold Qlen. change 1%Q with (inject_Z 1). rewrite <- Zlt_Qlt. lia.
Qed.

Lemma sumQ_constant (c : Q) (data : list Q) :
  (forall y, In y data -> (y == c)%Q) -> (sumQ data == c * Qlen data)%Q.
Proof.
  unfold Qlen. induction data as [|x r IH]; intros H.
  - simpl. ring.
  - assert (Ex : (x == c)%Q) by (apply H; now left).
    assert (Er : (sumQ r == c * inject_Z (Z.of_nat (List.length r)))%Q)
      by (apply IH; intros y Hy; apply H; now right).
    assert (En : (inject_Z (Z.of_nat (List.length (x :: r)))
                  == inject_Z (Z.of_nat (List.length r)) + 1)%Q).
    { cbn [List.length]. rewrite Nat2Z.inj_succ. unfold Z.succ.
      rewrite inject_Z_plus. reflexivity. }
    change (sumQ (x :: r)) with (x + sumQ r)%Q.
    rewrite En, Er, Ex. ring.
Qed.

Lemma differs_or_all_equal (x : Q) (data : list Q) :
  (exists y, In y data /\ ~ (y == x)%Q) \/ (forall y, In y data -> (y == x)%Q).
Proof.
  induction data as [|z r [[y [Hy N]] | A]].
  - right. intros y [].
  - left. exists y. split; [now right | assumption].
  - destruct (Qeq_dec z x) as [E | N].
    + right. intros y [<- | Hy]; [assumption | now apply A].
    + left. exists z. split; [now left | assumption].
Qed.

Lemma Qdiv_pos_iff (a d : Q) : (0 < d)%Q -> ((0 < a / d)%Q <-> (0 < a)%Q).
Proof.
  intros D. split; intros H.
  - assert (E : (a == (a / d) * d)%Q) by (field; lra).
    rewrite E. now apply Qmult_lt_0_compat.
  - apply Qlt_shift_div_l; [assumption | lra].
Qed.

(** The sample variance of two data points or more is greater than zero
    exactly when two of them differ (so the sample and the population
    variances, which differ by a positive factor, agree here). *)
Lemma sample_variance_pos_iff_two_differ (data : list Q) :
  2 <= List.length data ->
  ((0 < sample_variance data)%Q
   <-> exists x y, In x data /\ In y data /\ ~ (x == y)%Q).
Proof.
  intros Hn. pose proof (Qlen_pos data Hn) as Hl.
  set (m := (sumQ data / Qlen data)%Q).
  assert (Hpos : (0 < sumQ (map (sq_dev m) data) / (Qlen data - 1))%Q
                 <-> (0 < sumQ (map (sq_dev m) data))%Q).
  { apply Qdiv_pos_iff. lra. }
  change (sample_variance data)
    with (sumQ (map (sq_dev m) data) / (Qlen data - 1))%Q.
  split.
  - intros L. apply Hpos, sum_sq_dev_pos in L.
    destruct L as [x [Hx Nx]].
    destruct (differs_or_all_equal x data) as [[y [Hy Ny]] | A].
    + exists y, x. auto.
    + exfalso. apply Nx. unfold m. rewrite (@sumQ_constant x data A).
      field. lra.
  - intros [x [y [Hx [Hy N]]]].
    apply Hpos, sum_sq_dev_pos.
    destruct (Qeq_dec x m) as [E | Nx]; [| now exists x].
    exists y. split; [assumption |]. intros E'. apply N. now rewrite E, E'.
Qed.

(** A standard deviation that is greater than zero as a float comes from
    two data that differ. *)
Lemma stdev_gt_zero_two_differ (data : list Q) :
  2 <= List.length data -> stdev_gt_zero data ->
  exists x y, In x data /\ In y data /\ ~ (x == y)%Q.
Proof.
  intros Hn H. apply (sample_variance_pos_iff_two_differ data Hn).
  unfold stdev_gt_zero in H.
  assert (P : (0 < 1 # 2 ^ 2150)%Q) by reflexivity.
  revert H P. generalize (1 # 2 ^ 2150)%Q. intros c H P. lra.
Qed.

(** ** The sum of squares of [statistics]

    [_ss] computes the sum of the squared deviations from the sums of the
    data and of their squares. *)

Lemma Qlen_cons (x : Q) (r : list Q) : (Qlen (x :: r) == 1 + Qlen r)%Q.
Proof.
  unfold Qlen. cbn [List.length]. rewrite Nat2Z.inj_succ. unfold Z.succ.
  rewrite inject_Z_plus. ring.
Qed.

Lemma sum_sq_dev_expand (c : Q) (data : list Q) :
  (sumQ (map (sq_dev c) data)
   == sumQ (map (fun x => x * x) data) - 2 * c * sumQ data
      + Qlen data * c * c)%Q.
Proof.
  induction data as [|x r IH].
  - unfold Qlen. simpl. ring.
  - change (sumQ (map (sq_dev c) (x :: r)))
      with (sq_dev c x + sumQ (map (sq_dev c) r))%Q.
    change (sumQ (map (fun y => y * y) (x :: r)))%Q
      with (x * x + sumQ (map (fun y => y * y) r))%Q.
    change (sumQ (x :: r)) with (x + sumQ r)%Q.
    rewrite IH, Qlen_cons. unfold sq_dev. ring.
Qed.

Lemma ss_sample_variance (data : list Q) :
  2 <= List.length data ->
  (ss data / (Qlen data - 1) == sample_variance data)%Q.
Proof.
  intros Hn. pose proof (Qlen_pos data Hn) as Hl.
  unfold sample_variance.
  change (fun x : Q => (x - sumQ data / Qlen data) * (x - sumQ data / Qlen data))%Q
    with (sq_dev (sumQ data / Qlen data)).
  rewrite sum_sq_dev_expand. unfold ss. field. lra.
Qed.

(** ** Edges of a graph, node by node *)

Lemma filter_split_perm (A : Type) (p : A -> bool) (l : list A) :
  Permutation (filter p l ++ filter (fun x => negb (p x)) l) l.
Proof.
  induction l as [|x r IH]; simpl; [constructor |].
  destruct (p x); simpl.
  - now constructor.
  - apply Permutation_sym, Permutation_cons_app, Permutation_sym, IH.
Qed.

Lemma flat_map_ext_in (A B : Type) (f g : A -> list B) (l : list A) :
  (forall x, In x l -> f x = g x) -> flat_map f l = flat_map g l.
Proof.
  induction l as [|x r IH]; intros H; simpl; [reflexivity |].
  rewrite (H x) by now left. f_equal. apply IH. intros y Hy. apply H. now right.
Qed.

Lemma filter_filter (A : Type) (p q : A -> bool) (l : list A) :
  filter p (filter q l) = filter (fun x => q x && p x) l.
Proof.
  induction l as [|x r IH]; simpl; [reflexivity |].
  destruct (q x); simpl; [destruct (p x) |]; now rewrite IH.
Qed.

Lemma filter_ext_in_eq (A : Type) (p q : A -> bool) (l : list A) :
  (forall x, In x l -> p x = q x) -> filter p l = filter q l.
Proof.
  induction l as [|x r IH]; intros H; simpl; [reflexivity |].
  rewrite (H x) by now left. rewrite IH; [reflexivity |].
  intros y Hy. apply H. now right.
Qed.

Lemma by_source_perm (ns : list node) (l : list edge) :
  NoDup ns -> (forall e, In e l -> In (src e) ns) ->
  Permutation (flat_map (fun u => filter (fun e => String.eqb (src e) u) l) ns) l.
Proof.
  revert l. induction ns as [|u ns IH]; intros l Hnd Hsrc; simpl.
  - destruct l as [|e r]; [constructor |]. destruct (Hsrc e); now left.
  - inversion Hnd as [|? ? Hu Hnd']; subst.
    set (rest := filter (fun e => negb (String.eqb (src e) u)) l).
    assert (E : flat_map (fun v => filter (fun e => String.eqb (src e) v) l) ns
                = flat_map (fun v => filter (fun e => String.eqb (src e) v) rest) ns).
    { apply flat_map_ext_in. intros v Hv. unfold rest. rewrite filter_filter.
      apply filter_ext_in_eq. intros e _.
      destruct (String.eqb (src e) v) eqn:Ev; [| now rewrite andb_false_r].
      apply String.eqb_eq in Ev.
      destruct (String.eqb (src e) u) eqn:Eu; [| reflexivity].
      apply String.eqb_eq in Eu. exfalso. apply Hu. now rewrite <- Eu, Ev. }
    rewrite E.
    eapply Permutation_trans; [| apply (filter_split_perm (fun e => String.eqb (src e) u))].
    apply Permutation_app_head. apply IH; [assumption |].
    intros e He. unfold rest in He. apply filter_In in He. destruct He as [He Hne].
    destruct (Hsrc e He) as [-> | H]; [| assumption].
    rewrite String.eqb_refl in Hne. discriminate.
Qed.

Lemma edges_view_perm (g : DiGraph) :
  well_formed g -> Permutation (edges_view g) (edges g).
Proof.
  intros [Hnd Hin]. unfold edges_view, out_edges.
  apply by_source_perm; [assumption |]. intros e He. now apply Hin.
Qed.

Lemma sum_weights_perm (l l' : list edge) :
  Permutation l l' -> sum_weights l = sum_weights l'.
Proof.
  unfold sum_weights. induction 1; simpl; lia.
Qed.

Lemma sum_weights_app (l l' : list edge) :
  sum_weights (l ++ l') = (sum_weights l + sum_weights l')%Z.
Proof.
  unfold sum_weights. induction l as [|e r IH]; simpl; lia.
Qed.

(** ** What removal leaves *)

Lemma well_formed_remove_node (g : DiGraph) (n : node) :
  well_formed g -> well_formed (remove_node g n).
Proof.
  intros [Hnd Hin]. split; simpl.
  - now apply NoDup_filter.
  - intros e He. apply filter_In in He. destruct He as [He Hb].
    apply andb_true_iff in Hb. destruct Hb as [B1 B2].
    destruct (Hin e He). split; apply filter_In; now split.
Qed.

Lemma well_formed_copy (g : DiGraph) : well_formed g -> well_formed (copy g).
Proof.
  intros W. pose proof (edges_view_perm W) as Hp. destruct W as [Hnd Hin].
  split; simpl; [exact Hnd |].
  intros e He. apply Hin. eapply Permutation_in; eassumption.
Qed.

Lemma is_without_refl (g : DiGraph) : is_without g g [].
Proof.
  split.
  - symmetry. apply forallb_filter_id. apply forallb_forall. reflexivity.
  - intros _ e. simpl. tauto.
Qed.

Lemma is_without_remove_node (g : DiGraph) (n : node) :
  is_without (if has_node g n then remove_node g n else g) g [n].
Proof.
  destruct (has_node g n) eqn:E.
  - split; simpl.
    + apply filter_ext. intros m. now rewrite orb_false_r, String.eqb_sym.
    + intros _ e. rewrite filter_In, andb_true_iff, !negb_true_iff, !String.eqb_neq.
      intuition.
  - assert (Hn : ~ In n (nodes g)) by (rewrite <- has_node_In; congruence).
    split.
    + symmetry. apply forallb_filter_id. apply forallb_forall. intros m Hm. simpl.
      rewrite orb_false_r, negb_true_iff, String.eqb_neq. intros ->. contradiction.
    + intros [_ Hin] e. split; [| tauto]. intros He. split; [assumption |].
      destruct (Hin e He). simpl. split; intros [Q | []]; subst n; contradiction.
Qed.

Lemma is_without_trans (g1 g2 g3 : DiGraph) (a b : list node) :
  (well_formed g1 -> well_formed g2) ->
  is_without g2 g1 a -> is_without g3 g2 b -> is_without g3 g1 (a ++ b).
Proof.
  intros W [N1 E1] [N2 E2]. split.
  - rewrite N2, N1, filter_filter. apply filter_ext. intros n.
    unfold mem. now rewrite existsb_app, negb_orb.
  - intros W1 e. rewrite (E2 (W W1)), (E1 W1), !in_app_iff. tauto.
Qed.

Lemma is_without_remove_nodes_from (ns : list node) (g : DiGraph) :
  is_without (remove_nodes_from g ns) g ns
  /\ (well_formed g -> well_formed (remove_nodes_from g ns)).
Proof.
  unfold remove_nodes_from. revert g.
  induction ns as [|n r IH]; intros g; cbn [fold_left].
  - split; [apply is_without_refl | auto].
  - set (g1 := if has_node g n then remove_node g n else g).
    assert (W1 : well_formed g -> well_formed g1)
      by (unfold g1; destruct (has_node g n); [apply well_formed_remove_node | auto]).
    destruct (IH g1) as [H W]. split; [| auto].
    change (n :: r) with ([n] ++ r).
    eapply is_without_trans; [exact W1 | apply is_without_remove_node | exact H].
Qed.

Lemma is_without_copy (g : DiGraph) : is_without (copy g) g [].
Proof.
  split.
  - apply (is_without_refl g).
  - intros W e. simpl. split.
    + intros He. split; [| tauto].
      eapply Permutation_in; [apply (edges_view_perm W) | exact He].
    + intros [He _].
      eapply Permutation_in; [apply Permutation_sym, (edges_view_perm W) | exact He].
Qed.

Lemma is_without_remove_paths (path_list : list (list node)) (e s : bool)
      (g : DiGraph) :
  is_without (remove_paths g path_list e s) g
             (flat_map (fun path => nodes_to_remove path e s) path_list)
  /\ (well_formed g -> well_formed (remove_paths g path_list e s)).
Proof.
  unfold remove_paths.
  assert (H : forall g0,
             is_without
               (fold_left (fun new_graph path =>
                             remove_nodes_from new_graph (nodes_to_remove path e s))
                          path_list g0)
               g0 (flat_map (fun path => nodes_to_remove path e s) path_list)
             /\ (well_formed g0 ->
                 well_formed
                   (fold_left (fun new_graph path =>
                                 remove_nodes_from new_graph (nodes_to_remove path e s))
                              path_list g0))).
  { induction path_list as [|p r IH]; intros g0; cbn [fold_left flat_map].
    - split; [apply is_without_refl | auto].
    - destruct (is_without_remove_nodes_from (nodes_to_remove p e s) g0) as [H1 W1].
      destruct (IH (remove_nodes_from g0 (nodes_to_remove p e s))) as [H2 W2].
      split; [| auto]. eapply is_without_trans; eassumption. }
  destruct (H (copy g)) as [H1 W1]. split.
  - change (flat_map (fun path => nodes_to_remove path e s) path_list)
      with ([] ++ flat_map (fun path => nodes_to_remove path e s) path_list).
    eapply is_without_trans; [apply well_formed_copy | apply is_without_copy | exact H1].
  - intros W. apply W1. now apply well_formed_copy.
Qed.

(** X1. [remove_paths] returns the graph without the nodes that the two
    flags select in each path of the list (every node of the path, all but
    the last, all but the first, or the inner nodes), and without the edges
    that touch them; what it returns for a well-formed graph is well
    formed. *)
Theorem remove_paths_removes_selected_nodes
        (graph : DiGraph) (path_list : list (list node))
        (delete_entry_node delete_sink_node : bool) :
  is_without (remove_paths graph path_list delete_entry_node delete_sink_node)
             graph
             (flat_map (fun path =>
                          to_delete path delete_entry_node delete_sink_node)
                       path_list)
  /\ (well_formed graph ->
      well_formed (remove_paths graph path_list delete_entry_node delete_sink_node)).
Proof.
  destruct (is_without_remove_paths path_list delete_entry_node delete_sink_node graph)
    as [H W].
  split; [| assumption].
  rewrite (@flat_map_ext _ _
             (fun path => to_delete path delete_entry_node delete_sink_node)
             (fun path => nodes_to_remove path delete_entry_node delete_sink_node));
    [exact H |].
  intros path. symmetry. apply nodes_to_remove_to_delete.
Qed.

(** The graph that [select_best_path] returns is the graph it was given
    without the nodes to delete of the paths that differ from the kept one. *)
Lemma is_without_remove_others (kept : list node) (path_list : list (list node))
      (e s : bool) (g : DiGraph) :
  is_without (remove_others g kept path_list e s) g
             (removed_nodes kept path_list e s).
Proof.
  unfold remove_others, removed_nodes.
  generalize (filter (fun path => negb (path_eqb path kept)) path_list).
  intros losers.
  assert (H : forall g0,
             is_without (fold_left (fun g1 path => remove_paths g1 [path] e s) losers g0)
                        g0 (flat_map (fun path => nodes_to_remove path e s) losers)
             /\ (well_formed g0 ->
                 well_formed (fold_left (fun g1 path => remove_paths g1 [path] e s)
                                        losers g0))).
  { induction losers as [|p r IH]; intros g0; cbn [fold_left flat_map].
    - split; [apply is_without_refl | auto].
    - destruct (is_without_remove_paths [p] e s g0) as [H1 W1].
      cbn [flat_map] in H1. rewrite app_nil_r in H1.
      destruct (IH (remove_paths g0 [p] e s)) as [H2 W2].
      split; [| auto]. eapply is_without_trans; eassumption. }
  apply H.
Qed.

(** ** Selection of the best path *)

Lemma Qlt_bool_iff (x y : Q) : Qlt_bool x y = true <-> (x < y)%Q.
Proof.
  unfold Qlt_bool. rewrite negb_true_iff. split.
  - intros H. apply Qnot_le_lt. intros L. apply Qle_bool_iff in L. congruence.
  - intros H. destruct (Qle_bool y x) eqn:E; [|reflexivity].
    apply Qle_bool_iff in E. exfalso. now apply (Qlt_not_le x y).
Qed.

Lemma Qeq_bool_lt (x y : Q) :
  Qeq_bool x y = true <-> (~ (x < y)%Q /\ ~ (y < x)%Q).
Proof.
  rewrite Qeq_bool_iff. split.
  - intros E. rewrite E. split; apply Qlt_irrefl.
  - intros [H1 H2]. apply Qle_antisym; now apply Qnot_lt_le.
Qed.

Lemma Qlt_neg_trans (x y z : Q) : ~ (x < y)%Q -> ~ (y < z)%Q -> ~ (x < z)%Q.
Proof.
  intros H1 H2. apply Qle_not_lt. apply Qle_trans with y; now apply Qnot_lt_le.
Qed.

Lemma index_of_max_Q (l : list Q) :
  l <> [] ->
  exists m i, py_max Qlt_bool l = Ok m /\ py_index Qeq_bool l m = Ok (Z.of_nat i)
              /\ i < List.length l /\ first_max_Q l i.
Proof.
  intros H.
  destruct (@index_of_max Q Qlt_bool Qeq_bool Qlt Qlt_bool_iff Qeq_bool_lt
              Qlt_irrefl Qlt_trans Qlt_neg_trans 0%Q l H)
    as [m [i [H1 [H2 [H3 [H4 H5]]]]]].
  exists m, i. repeat split; try assumption.
  intros j Hj. apply Qnot_lt_le. now apply H4.
Qed.

Lemma index_of_max_Z (l : list Z) :
  l <> [] ->
  exists m i, py_max Z.ltb l = Ok m /\ py_index Z.eqb l m = Ok (Z.of_nat i)
              /\ i < List.length l /\ first_max_Z l i.
Proof.
  intros H.
  assert (S1 : forall x y, Z.ltb x y = true <-> (x < y)%Z) by (intros; apply Z.ltb_lt).
  assert (S2 : forall x y, Z.eqb x y = true <-> (~ (x < y)%Z /\ ~ (y < x)%Z))
    by (intros; rewrite Z.eqb_eq; lia).
  destruct (@index_of_max Z Z.ltb Z.eqb Z.lt S1 S2 Z.lt_irrefl Z.lt_trans
              ltac:(intros; lia) 0%Z l H)
    as [m [i [H1 [H2 [H3 [H4 H5]]]]]].
  exists m, i. repeat split; try assumption.
  intros j Hj. specialize (H4 j Hj). lia.
Qed.

Lemma list_getitem_nat (A : Type) (d : A) (l : list A) (i : nat) :
  i < List.length l -> list_getitem l (Z.of_nat i) = Ok (nth i l d).
Proof.
  intros H. unfold list_getitem.
  assert (E1 : (Z.of_nat i <? 0)%Z = false) by (apply Z.ltb_ge; lia).
  rewrite E1.
  assert (E2 : ((0 <=? Z.of_nat i) && (Z.of_nat i <? Z.of_nat (List.length l)))%Z = true)
    by (apply andb_true_iff; split; [apply Z.leb_le | apply Z.ltb_lt]; lia).
  rewrite E2, Nat2Z.id.
  destruct (nth_error l i) eqn:E.
  - f_equal. symmetry. now apply nth_error_nth.
  - apply nth_error_None in E. lia.
Qed.

Lemma variance_undefined_positive (data : list Q) :
  List.length data < 2 -> stdev_positive data = Raise StatisticsError.
Proof.
  intros H. unfold stdev_positive.
  assert (E : (List.length data <? 2) = true) by (apply Nat.ltb_lt; lia).
  now rewrite E.
Qed.

(** What [statistics.stdev(data) > 0] gives, for two data points or more:
    OverflowError when the standard deviation does not fit in a float, and
    otherwise the comparison of the float with zero. *)
Lemma stdev_positive_spec (data : list Q) :
  2 <= List.length data ->
  (stdev_fits data ->
   exists b, stdev_positive data = Ok b /\ (b = true <-> stdev_gt_zero data))
  /\ (~ stdev_fits data -> stdev_positive data = Raise OverflowError).
Proof.
  intros H. pose proof (ss_sample_variance data H) as E.
  assert (Eo : (float_overflow * float_overflow
                == inject_Z ((2 ^ 1024 - 2 ^ 970) ^ 2))%Q)
    by (vm_compute; reflexivity).
  assert (Em : (float_min / 2 * (float_min / 2) == 1 # 2 ^ 2150)%Q)
    by (vm_compute; reflexivity).
  unfold stdev_positive, stdev_fits, stdev_gt_zero.
  assert (E2 : (List.length data <? 2) = false) by (apply Nat.ltb_ge; lia).
  rewrite E2. cbv zeta.
  destruct (Qle_bool (float_overflow * float_overflow)
                     (ss data / (Qlen data - 1))) eqn:O.
  - apply Qle_bool_iff in O. rewrite E, Eo in O. split.
    + intros F. exfalso. apply (Qlt_not_le _ _ F O).
    + reflexivity.
  - split.
    + intros _. eexists. split; [reflexivity |].
      rewrite Qlt_bool_iff, E, Em. reflexivity.
    + intros F. exfalso. apply F. apply Qnot_le_lt. intros L.
      rewrite <- E, <- Eo in L. apply Qle_bool_iff in L. congruence.
Qed.

Lemma remove_loop_filter (graph : DiGraph) (kept : list node)
      (path_list : list (list node)) (e s : bool) :
  fold_left (fun g path => if negb (path_eqb path kept)
                           then remove_paths g [path] e s else g)
            path_list graph
  = remove_others graph kept path_list e s.
Proof.
  unfold remove_others. revert graph.
  induction path_list as [|p r IH]; intros graph; simpl; [reflexivity |].
  destruct (negb (path_eqb p kept)); simpl; apply IH.
Qed.




(** C2 (as the code behaves).  With a single candidate path,
    [select_best_path] starts by computing the standard deviation of the one
    average weight, which raises StatisticsError: no path is selected, no
    graph is returned, and the store of graph objects is left as it was (no
    node is removed, no copy is made). *)
Theorem select_best_path_single_raises
        (R : RandomSource) (graph : DiGraph) (path : list node) (len : Z) (avg : Q)
        (delete_entry_node delete_sink_node : bool) (rs : rng_state R)
        (h : store) (r : ref) :
  select_best_path R graph [path] [len] [avg]
                   delete_entry_node delete_sink_node rs
  = Raise StatisticsError
  /\ obj_select_best_path R r [path] [len] [avg]
                          delete_entry_node delete_sink_node rs h
     = Some (Raise StatisticsError, h).
Proof.
  assert (E : choose_best_path R [path] [len] [avg] rs = Raise StatisticsError).
  { unfold choose_best_path.
    now rewrite (variance_undefined_positive [avg]) by (simpl; lia). }
  unfold select_best_path, obj_select_best_path. rewrite E. split; reflexivity.
Qed.

(** C2, the claim as written fails: with the single candidate AC, CG of
    [g_bubble], of length 2 and average weight 1, [select_best_path] raises
    StatisticsError and returns no graph. *)
Lemma select_best_path_one_candidate :
  select_best_path lowest_source g_bubble [["AC"; "CG"]] [2%Z] [1%Q]
                   false false tt
  = Raise StatisticsError
  /\ forall out,
       select_best_path lowest_source g_bubble [["AC"; "CG"]] [2%Z] [1%Q]
                        false false tt
       <> Ok out.
Proof. split; [reflexivity | discriminate]. Qed.

(** ** Construction of the graph *)

Lemma is_edge_endpoints (u v : node) (e : edge) :
  is_edge u v e = true <-> endpoints e = (u, v).
Proof.
  unfold is_edge, endpoints. rewrite andb_true_iff, !String.eqb_eq.
  split; [intros [-> ->]; reflexivity | intros H; inversion H; auto].
Qed.

Lemma has_edge_endpoints (g : DiGraph) (u v : node) :
  has_edge g u v = true <-> In (u, v) (map endpoints (edges g)).
Proof.
  unfold has_edge. rewrite existsb_exists, in_map_iff. split.
  - intros [e [He E]]. exists e. split; [now apply is_edge_endpoints | assumption].
  - intros [e [E He]]. exists e. split; [assumption | now apply is_edge_endpoints].
Qed.

Lemma add_node_well_formed (g : DiGraph) (n : node) :
  well_formed g -> well_formed (add_node g n).
Proof.
  intros [Hnd Hin]. unfold add_node. destruct (has_node g n) eqn:E; [now split |].
  split; simpl.
  - apply NoDup_app; [assumption | repeat constructor; intros [] | ].
    intros x Hx [<- | []]. apply has_node_In in Hx. congruence.
  - intros e He. destruct (Hin e He). split; apply in_or_app; now left.
Qed.

Lemma add_node_edges (g : DiGraph) (n : node) : edges (add_node g n) = edges g.
Proof. unfold add_node. now destruct (has_node g n). Qed.

Lemma add_node_In (g : DiGraph) (n : node) : In n (nodes (add_node g n)).
Proof.
  unfold add_node. destruct (has_node g n) eqn:E.
  - now apply has_node_In.
  - simpl. apply in_or_app. right. now left.
Qed.

Lemma add_node_keeps (g : DiGraph) (n m : node) :
  In m (nodes g) -> In m (nodes (add_node g n)).
Proof.
  unfold add_node. destruct (has_node g n); simpl; [auto |].
  intros H. apply in_or_app. now left.
Qed.

Lemma add_node_present (g : DiGraph) (n : node) :
  In n (nodes g) -> add_node g n = g.
Proof.
  intros H. unfold add_node. apply has_node_In in H. now rewrite H.
Qed.

Lemma with_nodes_spec (g : DiGraph) (p q : node) :
  well_formed g ->
  well_formed (with_nodes g p q)
  /\ edges (with_nodes g p q) = edges g
  /\ In p (nodes (with_nodes g p q)) /\ In q (nodes (with_nodes g p q)).
Proof.
  intros W. unfold with_nodes.
  set (g1 := if negb (has_node g p) then add_node g p else g).
  assert (W1 : well_formed g1 /\ edges g1 = edges g /\ In p (nodes g1)).
  { unfold g1. destruct (has_node g p) eqn:E; simpl.
    - split; [exact W |]. split; [reflexivity | now apply has_node_In].
    - split; [now apply add_node_well_formed |].
      split; [apply add_node_edges | apply add_node_In]. }
  destruct W1 as [W1 [E1 P1]].
  destruct (has_node g1 q) eqn:E; simpl.
  - split; [exact W1 |]. split; [exact E1 |].
    split; [exact P1 | now apply has_node_In].
  - split; [now apply add_node_well_formed |].
    split; [now rewrite add_node_edges |].
    split; [now apply add_node_keeps | apply add_node_In].
Qed.

Lemma matching_edges_le_1 (l : list edge) (u v : node) :
  NoDup (map endpoints l) -> List.length (filter (is_edge u v) l) <= 1.
Proof.
  induction l as [|e r IH]; simpl; intros H; [lia |].
  inversion H as [|? ? Hn Hr]; subst. specialize (IH Hr).
  destruct (is_edge u v e) eqn:E; simpl; [| lia].
  apply is_edge_endpoints in E.
  destruct (filter (is_edge u v) r) as [|e' r'] eqn:F; simpl; [lia |].
  exfalso. apply Hn.
  assert (He' : In e' (filter (is_edge u v) r)) by (rewrite F; now left).
  apply filter_In in He'. destruct He' as [He' E'].
  apply is_edge_endpoints in E'. rewrite E, <- E'. now apply in_map.
Qed.

Lemma sum_weights_bump (l : list edge) (u v : node) (c : Z) :
  sum_weights (map (fun e => if is_edge u v e
                             then mkEdge (src e) (dst e) (weight e + c) else e) l)
  = (sum_weights l + c * Z.of_nat (List.length (filter (is_edge u v) l)))%Z.
Proof.
  unfold sum_weights. induction l as [|e r IH]; simpl; [lia |].
  destruct (is_edge u v e); simpl; lia.
Qed.

Lemma bump_endpoints (l : list edge) (u v : node) (c : Z) :
  map endpoints (map (fun e => if is_edge u v e
                               then mkEdge (src e) (dst e) (weight e + c) else e) l)
  = map endpoints l.
Proof.
  rewrite map_map. apply map_ext. intros e. now destruct (is_edge u v e).
Qed.

(** One step of [build_graph]: the invariants stay and the total weight
    grows by the count of the k-mer. *)
Lemma build_graph_step_spec (g : DiGraph) (kmer : string) (count : Z) :
  well_formed g -> simple_edges g ->
  let g' := build_graph_step g (kmer, count) in
  well_formed g' /\ simple_edges g'
  /\ sum_weights (edges g') = (sum_weights (edges g) + count)%Z
  /\ ((1 <= count)%Z -> positive_weights g -> positive_weights g').
Proof.
  intros W S. unfold build_graph_step.
  set (p := str_slice kmer None (Some (-1)%Z)).
  set (q := str_slice kmer (Some 1%Z) None).
  fold (with_nodes g p q).
  destruct (with_nodes_spec p q W) as [W2 [E2 [Pp Pq]]].
  set (g2 := with_nodes g p q) in *.
  assert (S2 : simple_edges g2) by (unfold simple_edges; now rewrite E2).
  destruct (has_edge g2 p q) eqn:H; cbv zeta.
  - unfold add_to_weight. split; [| split; [| split]].
    + split; simpl; [apply W2 |].
      intros e He. apply in_map_iff in He. destruct He as [e0 [<- He0]].
      destruct W2 as [_ Hin]. destruct (Hin e0 He0).
      destruct (is_edge p q e0); simpl; auto.
    + unfold simple_edges. simpl. now rewrite bump_endpoints.
    + simpl. rewrite sum_weights_bump, E2.
      assert (L1 := @matching_edges_le_1 (edges g) p q S).
      assert (L2 : 1 <= List.length (filter (is_edge p q) (edges g))).
      { unfold has_edge in H. rewrite E2 in H. apply existsb_exists in H.
        destruct H as [e [He E]].
        assert (In e (filter (is_edge p q) (edges g))) by (apply filter_In; now split).
        destruct (filter (is_edge p q) (edges g)); [contradiction | simpl; lia]. }
      replace (List.length (filter (is_edge p q) (edges g))) with 1 by lia. lia.
    + intros Hc Hpos e He. simpl in He.
      apply in_map_iff in He. destruct He as [e0 [<- He0]].
      rewrite E2 in He0. specialize (Hpos e0 He0).
      destruct (is_edge p q e0); simpl; lia.
  - unfold add_edge.
    rewrite (add_node_present g2 p Pp), (add_node_present g2 q Pq), H.
    split; [| split; [| split]].
    + split; simpl; [apply W2 |].
      intros e He. apply in_app_or in He. destruct He as [He | [<- | []]].
      * now apply W2.
      * simpl. now split.
    + unfold simple_edges. simpl. rewrite map_app. simpl.
      apply NoDup_app; [assumption | repeat constructor; intros [] |].
      intros x Hx [E | []]. rewrite <- E in Hx.
      change (In (p, q) (map endpoints (edges g2))) in Hx.
      apply has_edge_endpoints in Hx. congruence.
    + simpl. rewrite sum_weights_app, E2. unfold sum_weights at 2. simpl. lia.
    + intros Hc Hpos e He. simpl in He.
      apply in_app_or in He. destruct He as [He | [<- | []]].
      * rewrite E2 in He. now apply Hpos.
      * simpl. lia.
Qed.

Lemma build_graph_fold (kmer_dict : dict Z) (g : DiGraph) :
  well_formed g -> simple_edges g ->
  let g' := fold_left build_graph_step kmer_dict g in
  well_formed g' /\ simple_edges g'
  /\ sum_weights (edges g') = (sum_weights (edges g) + sum_counts kmer_dict)%Z
  /\ ((forall kmer count, In (kmer, count) kmer_dict -> (1 <= count)%Z) ->
      positive_weights g -> positive_weights g').
Proof.
  revert g. induction kmer_dict as [|[kmer count] r IH]; intros g W S;
    cbn [fold_left]; cbv zeta.
  - split; [exact W |]. split; [exact S |]. split; [unfold sum_counts; simpl; lia | auto].
  - destruct (@build_graph_step_spec g kmer count W S) as [W1 [S1 [E1 P1]]].
    destruct (IH _ W1 S1) as [W2 [S2 [E2 P2]]].
    split; [exact W2 |]. split; [exact S2 |]. split.
    + rewrite E2, E1. unfold sum_counts. simpl. lia.
    + intros Hc Hp. apply P2.
      * intros k c Hk. apply (Hc k c). now right.
      * apply P1; [apply (Hc kmer count); now left | exact Hp].
Qed.

Lemma empty_graph_invariant : graph_invariant empty_graph.
Proof.
  split; [split; [constructor | intros e []] |].
  split; [constructor | intros e []].
Qed.

Lemma build_graph_invariant (kmer_dict : dict Z) :
  (forall kmer count, In (kmer, count) kmer_dict -> (1 <= count)%Z) ->
  graph_invariant (build_graph kmer_dict).
Proof.
  intros Hc. destruct empty_graph_invariant as [W [S P]].
  destruct (@build_graph_fold kmer_dict empty_graph W S) as [W' [S' [_ P']]].
  split; [exact W' |]. split; [exact S' | now apply P'].
Qed.

(** C5. The weights of the edges of the graph that [build_graph] returns
    add up to the sum of the counts of the k-mer dictionary. *)
Theorem build_graph_weight_conservation (kmer_dict : dict Z) :
  sum_weights (edges_view (build_graph kmer_dict)) = sum_counts kmer_dict.
Proof.
  destruct empty_graph_invariant as [W [S _]].
  destruct (@build_graph_fold kmer_dict empty_graph W S) as [W' [_ [E _]]].
  unfold build_graph. rewrite (sum_weights_perm (edges_view_perm W')).
  rewrite E. reflexivity.
Qed.

(** ** Removal keeps the invariants *)

(** Keys that are distinct stay distinct when items are dropped. *)
Lemma NoDup_map_filter (A B : Type) (key : A -> B) (keep : A -> bool)
      (items : list A) (distinct : NoDup (map key items)) :
  NoDup (map key (filter keep items)).
Proof.
  induction items as [|x r IH]; simpl; [constructor |].
  inversion distinct as [|? ? Hn Hr]; subst.
  destruct (keep x); simpl; [| now apply IH].
  constructor; [| now apply IH].
  intros Hin. apply Hn. apply in_map_iff in Hin. destruct Hin as [y [E Hy]].
  apply filter_In in Hy. rewrite <- E. apply in_map. apply Hy.
Qed.

Lemma remove_node_invariant (g : DiGraph) (n : node) :
  graph_invariant g -> graph_invariant (remove_node g n).
Proof.
  intros [[Hnd Hin] [S P]]. unfold remove_node.
  split; [split |]; simpl.
  - now apply NoDup_filter.
  - intros e He. apply filter_In in He. destruct He as [He Hb].
    apply andb_true_iff in Hb. destruct Hb as [B1 B2].
    destruct (Hin e He). split; apply filter_In; now split.
  - split.
    + unfold simple_edges. simpl. now apply NoDup_map_filter.
    + intros e He. simpl in He. apply filter_In in He. now apply P.
Qed.

Lemma remove_nodes_from_invariant (ns : list node) (g : DiGraph) :
  graph_invariant g -> graph_invariant (remove_nodes_from g ns).
Proof.
  unfold remove_nodes_from. revert g.
  induction ns as [|n r IH]; intros g H; simpl; [exact H |].
  apply IH. destruct (has_node g n); [now apply remove_node_invariant | exact H].
Qed.

Lemma copy_invariant (g : DiGraph) : graph_invariant g -> graph_invariant (copy g).
Proof.
  intros [W [S P]]. pose proof (edges_view_perm W) as Hp.
  destruct W as [Hnd Hin]. unfold copy.
  split; [split |]; simpl.
  - exact Hnd.
  - intros e He. apply Hin. eapply Permutation_in; eassumption.
  - split.
    + unfold simple_edges. simpl.
      eapply Permutation_NoDup; [| exact S].
      apply Permutation_sym, Permutation_map, Hp.
    + intros e He. apply P. eapply Permutation_in; eassumption.
Qed.

Lemma remove_paths_invariant (g : DiGraph) (path_list : list (list node))
      (e s : bool) :
  graph_invariant g -> graph_invariant (remove_paths g path_list e s).
Proof.
  intros H. unfold remove_paths.
  assert (Hc : graph_invariant (copy g)) by now apply copy_invariant.
  revert Hc. generalize (copy g).
  induction path_list as [|p r IH]; intros g0 H0; simpl; [exact H0 |].
  apply IH. now apply remove_nodes_from_invariant.
Qed.

Lemma remove_others_invariant (g : DiGraph) (kept : list node)
      (path_list : list (list node)) (e s : bool) :
  graph_invariant g -> graph_invariant (remove_others g kept path_list e s).
Proof.
  unfold remove_others.
  generalize (filter (fun path => negb (path_eqb path kept)) path_list).
  intros l. revert g. induction l as [|p r IH]; intros g H; simpl; [exact H |].
  apply IH. now apply remove_paths_invariant.
Qed.

Lemma select_best_path_result (R : RandomSource) (g : DiGraph)
      (path_list : list (list node)) (lens : list Z) (avgs : list Q)
      (e s : bool) (rs : rng_state R) (g' : DiGraph) (rs' : rng_state R) :
  select_best_path R g path_list lens avgs e s rs = Ok (g', rs') ->
  exists kept, g' = remove_others g kept path_list e s.
Proof.
  unfold select_best_path.
  destruct (choose_best_path R path_list lens avgs rs) as [[kept rs1]|]; simpl;
    [| discriminate].
  intros H. inversion H; subst. exists kept. apply remove_loop_filter.
Qed.

Lemma select_best_path_invariant (R : RandomSource) (g : DiGraph)
      (path_list : list (list node)) (lens : list Z) (avgs : list Q)
      (e s : bool) (rs : rng_state R) (g' : DiGraph) (rs' : rng_state R) :
  graph_invariant g ->
  select_best_path R g path_list lens avgs e s rs = Ok (g', rs') ->
  graph_invariant g'.
Proof.
  intros H E. apply select_best_path_result in E. destruct E as [kept ->].
  now apply remove_others_invariant.
Qed.

Lemma solve_bubble_invariant (R : RandomSource) (g : DiGraph) (a d : node)
      (rs : rng_state R) (g' : DiGraph) (rs' : rng_state R) :
  graph_invariant g ->
  solve_bubble R g a d rs = Ok (g', rs') -> graph_invariant g'.
Proof.
  intros H. unfold solve_bubble.
  destruct (all_simple_paths g a d) as [paths|]; simpl; [| discriminate].
  destruct (mapM (path_average_weight g) paths) as [avgs|]; simpl; [| discriminate].
  now apply select_best_path_invariant.
Qed.

Lemma simplify_bubbles_invariant (R : RandomSource) (set_pick : list node -> nat)
      (fuel : nat) (g : DiGraph) (rs : rng_state R)
      (g' : DiGraph) (rs' : rng_state R) :
  graph_invariant g ->
  simplify_bubbles R set_pick fuel g rs = Some (Ok (g', rs')) ->
  graph_invariant g'.
Proof.
  revert g rs. induction fuel as [|f IH]; intros g rs H; simpl; [discriminate |].
  destruct (find_bubble set_pick g (nodes g)) as [[[a n]|]|]; try discriminate.
  - destruct (solve_bubble R g a n rs) as [[g1 rs1]|] eqn:E; [| discriminate].
    apply IH. eapply solve_bubble_invariant; eassumption.
  - intros E. inversion E; subst. exact H.
Qed.

Lemma solve_tips_invariant (R : RandomSource) (g : DiGraph)
      (path_list : list (list (list node))) (e s : bool)
      (rs : rng_state R) (g' : DiGraph) (rs' : rng_state R) :
  graph_invariant g ->
  solve_tips R g path_list e s rs = Ok (g', rs') -> graph_invariant g'.
Proof.
  intros H. unfold solve_tips. destruct path_list as [|p r].
  - intros E. inversion E; subst. exact H.
  - destruct (mapM (path_average_weight g) (List.concat (p :: r))) as [avgs|];
      simpl; [| discriminate].
    now apply select_best_path_invariant.
Qed.

(** C9. When every count is at least 1, the graph of [build_graph] has at
    most one edge for each ordered pair of nodes and positive weights only
    (and is a well-formed networkx graph), and each of [remove_paths],
    [select_best_path], [simplify_bubbles], [solve_entry_tips] and
    [solve_out_tips] returns a graph with these properties when it is given
    one: the invariant holds along every sequence of simplifications. *)
Theorem invariant_established_and_preserved (kmer_dict : dict Z) :
  (forall kmer count, In (kmer, count) kmer_dict -> (1 <= count)%Z) ->
  (graph_invariant (build_graph kmer_dict)
   /\ simple_edges (build_graph kmer_dict)
   /\ positive_weights (build_graph kmer_dict))
  /\ (forall g path_list e s,
        graph_invariant g -> graph_invariant (remove_paths g path_list e s))
  /\ (forall R g path_list lens avgs e s rs g' rs',
        graph_invariant g ->
        select_best_path R g path_list lens avgs e s rs = Ok (g', rs') ->
        graph_invariant g')
  /\ (forall R set_pick fuel g rs g' rs',
        graph_invariant g ->
        simplify_bubbles R set_pick fuel g rs = Some (Ok (g', rs')) ->
        graph_invariant g')
  /\ (forall R g starting_nodes rs g' rs',
        graph_invariant g ->
        solve_entry_tips R g starting_nodes rs = Ok (g', rs') ->
        graph_invariant g')
  /\ (forall R g ending_nodes rs g' rs',
        graph_invariant g ->
        solve_out_tips R g ending_nodes rs = Ok (g', rs') ->
        graph_invariant g').
Proof.
  intros Hc. pose proof (build_graph_invariant kmer_dict Hc) as Hb.
  split; [split; [exact Hb | split; apply Hb] |].
  split; [intros; now apply remove_paths_invariant |].
  split; [intros; eapply select_best_path_invariant; eassumption |].
  split; [intros; eapply simplify_bubbles_invariant; eassumption |].
  split.
  - intros R g starts rs g' rs' H. unfold solve_entry_tips.
    destruct (mapM _ _) as [pl|]; simpl; [| discriminate].
    now apply solve_tips_invariant.
  - intros R g ends rs g' rs' H. unfold solve_out_tips.
    destruct (mapM _ _) as [pl|]; simpl; [| discriminate].
    now apply solve_tips_invariant.
Qed.

(** ** Counting k-mers *)

Lemma dict_get_set_same (V : Type) (d : dict V) (k : string) (v : V) :
  dict_get (dict_set d k v) k = Some v.
Proof.
  induction d as [|[k' v'] r IH]; simpl.
  - now rewrite String.eqb_refl.
  - destruct (String.eqb k' k) eqn:E; simpl; rewrite E; [reflexivity | exact IH].
Qed.

Lemma dict_get_set_other (V : Type) (d : dict V) (k k' : string) (v : V) :
  k <> k' -> dict_get (dict_set d k v) k' = dict_get d k'.
Proof.
  intros Hne. induction d as [|[k0 v0] r IH]; simpl.
  - apply String.eqb_neq in Hne. now rewrite Hne.
  - destruct (String.eqb k0 k) eqn:E; simpl.
    + apply String.eqb_eq in E. subst k0.
      apply String.eqb_neq in Hne. now rewrite Hne.
    + now rewrite IH.
Qed.

Lemma dict_get_None_keys (V : Type) (d : dict V) (k : string) :
  dict_get d k = None <-> ~ In k (map fst d).
Proof.
  induction d as [|[k' v'] r IH]; simpl; [tauto |].
  destruct (String.eqb k' k) eqn:E.
  - apply String.eqb_eq in E. split; [discriminate | tauto].
  - apply String.eqb_neq in E. rewrite IH. tauto.
Qed.

Lemma dict_set_keys (V : Type) (d : dict V) (k : string) (v : V) :
  map fst (dict_set d k v)
  = if dict_contains d k then map fst d else map fst d ++ [k].
Proof.
  unfold dict_contains. induction d as [|[k' v'] r IH]; simpl; [reflexivity |].
  destruct (String.eqb k' k) eqn:E; simpl; [reflexivity |].
  rewrite IH. now destruct (dict_get r k).
Qed.

Lemma count_kmer_spec (d : dict Z) (kmer : string) :
  counting d ->
  counting (count_kmer d kmer)
  /\ forall k, count_of (count_kmer d kmer) k
               = (count_of d k + Z.of_nat (matches k [kmer]))%Z.
Proof.
  intros [Hnd Hpos]. unfold count_kmer, dict_contains, count_of, matches.
  destruct (dict_get d kmer) as [n|] eqn:E.
  - split; [split |].
    + rewrite dict_set_keys. unfold dict_contains. now rewrite E.
    + intros k m. destruct (string_dec kmer k) as [<- | Hne].
      * rewrite dict_get_set_same. intros H. inversion H; subst.
        specialize (Hpos kmer n E). lia.
      * rewrite dict_get_set_other by assumption. apply Hpos.
    + intros k. simpl. destruct (string_dec kmer k) as [<- | Hne].
      * rewrite dict_get_set_same, E, String.eqb_refl. simpl. lia.
      * rewrite dict_get_set_other by assumption.
        apply String.eqb_neq in Hne. rewrite Hne. simpl. lia.
  - split; [split |].
    + rewrite dict_set_keys. unfold dict_contains. rewrite E.
      apply NoDup_app; [assumption | repeat constructor; intros [] |].
      intros x Hx [<- | []]. now apply dict_get_None_keys in E.
    + intros k m. destruct (string_dec kmer k) as [<- | Hne].
      * rewrite dict_get_set_same. intros H. inversion H; subst. lia.
      * rewrite dict_get_set_other by assumption. apply Hpos.
    + intros k. simpl. destruct (string_dec kmer k) as [<- | Hne].
      * rewrite dict_get_set_same, E, String.eqb_refl. simpl. lia.
      * rewrite dict_get_set_other by assumption.
        apply String.eqb_neq in Hne. rewrite Hne. simpl. lia.
Qed.

Lemma matches_app (k : string) (l l' : list string) :
  matches k (l ++ l') = matches k l + matches k l'.
Proof. unfold matches. now rewrite filter_app, length_app. Qed.

Lemma count_kmers_spec (kmers : list string) (d : dict Z) :
  counting d ->
  counting (fold_left count_kmer kmers d)
  /\ forall k, count_of (fold_left count_kmer kmers d) k
               = (count_of d k + Z.of_nat (matches k kmers))%Z.
Proof.
  revert d. induction kmers as [|x r IH]; intros d H; cbn [fold_left].
  - split; [exact H |]. intros k. unfold matches. simpl. lia.
  - destruct (count_kmer_spec x H) as [H1 E1].
    destruct (IH _ H1) as [H2 E2]. split; [exact H2 |].
    intros k. rewrite E2, E1. change (x :: r) with ([x] ++ r).
    rewrite matches_app. lia.
Qed.

(** The slices that [cut_kmer] takes at size 3 are the substrings of length
    3 at the positions 0 to [len - 3]. *)
Lemma cut_kmer_3 (read : string) :
  cut_kmer read 3%Z
  = map (fun i => substring i 3 read) (seq 0 (String.length read - 2)).
Proof.
  unfold cut_kmer, range. rewrite map_map.
  replace (Z.to_nat (Z.of_nat (String.length read) - 3 + 1))
    with (String.length read - 2) by lia.
  apply map_ext_in. intros i Hi. apply in_seq in Hi.
  unfold str_slice, slice_bounds, clamp_index.
  assert (E1 : (Z.of_nat i <? 0)%Z = false) by (apply Z.ltb_ge; lia).
  assert (E2 : (Z.of_nat i + 3 <? 0)%Z = false) by (apply Z.ltb_ge; lia).
  rewrite E1, E2.
  replace (Z.to_nat (Z.min (Z.of_nat i) (Z.of_nat (String.length read)))) with i by lia.
  replace (Z.to_nat (Z.min (Z.of_nat i + 3) (Z.of_nat (String.length read))
                     - Z.min (Z.of_nat i) (Z.of_nat (String.length read))))
    with 3 by lia.
  reflexivity.
Qed.

Lemma matches_cut_kmer (kmer read : string) :
  matches kmer (cut_kmer read 3%Z) = occurrences_in kmer read.
Proof.
  rewrite cut_kmer_3. unfold matches, occurrences_in.
  induction (seq 0 (String.length read - 2)) as [|i r IH]; simpl; [reflexivity |].
  destruct (String.eqb (substring i 3 read) kmer); simpl; now rewrite IH.
Qed.

Lemma count_reads_spec (reads : list string) (d : dict Z) :
  counting d ->
  let d' := fold_left
              (fun kmer_dict read => fold_left count_kmer (cut_kmer read 3%Z) kmer_dict)
              reads d in
  counting d'
  /\ forall k, count_of d' k = (count_of d k + Z.of_nat (occurrences k reads))%Z.
Proof.
  revert d. induction reads as [|read r IH]; intros d H; cbn [fold_left]; cbv zeta.
  - split; [exact H |]. intros k. unfold occurrences. simpl. lia.
  - destruct (count_kmers_spec (cut_kmer read 3%Z) H) as [H1 E1].
    destruct (IH _ H1) as [H2 E2]. split; [exact H2 |].
    intros k. rewrite E2, E1, matches_cut_kmer. unfold occurrences. simpl. lia.
Qed.

(** C8. [build_kmer_dict] gives the same result whatever k-mer size it is
    passed; when the file is read to its end, the result is the dictionary
    of the occurrence counts of the substrings of length 3 of the reads. *)
Theorem build_kmer_dict_ignores_kmer_size
        (fastq_file : list string) (kmer_size kmer_size' : Z) :
  build_kmer_dict fastq_file kmer_size = build_kmer_dict fastq_file kmer_size'
  /\ forall reads,
       read_fastq fastq_file = Ok reads ->
       exists d, build_kmer_dict fastq_file kmer_size = Ok d
                 /\ counts_3mers d reads.
Proof.
  split; [reflexivity |]. intros reads Hr. unfold build_kmer_dict. rewrite Hr. simpl.
  eexists. split; [reflexivity |].
  assert (H0 : counting (@nil (string * Z)))
    by (split; [constructor | intros k n; discriminate]).
  destruct (count_reads_spec reads H0) as [[Hnd Hpos] E].
  split; [exact Hnd |]. intros kmer. specialize (E kmer).
  unfold count_of in E. simpl in E.
  destruct (dict_get _ kmer) as [n|] eqn:G.
  - specialize (Hpos kmer n G).
    destruct (occurrences kmer reads =? 0) eqn:Z0.
    + apply Nat.eqb_eq in Z0. lia.
    + f_equal. lia.
  - destruct (occurrences kmer reads =? 0) eqn:Z0; [reflexivity |].
    apply Nat.eqb_neq in Z0. lia.
Qed.

(** ** Graph objects: removal works on a copy *)

Lemma update_length (h : store) (r : ref) (f : DiGraph -> DiGraph) :
  List.length (update h r f) = List.length h.
Proof.
  revert r. induction h as [|g t IH]; intros [|r]; simpl; auto.
Qed.

Lemma deref_update_same (h : store) (r : ref) (f : DiGraph -> DiGraph) (g : DiGraph) :
  deref h r = Some g -> deref (update h r f) r = Some (f g).
Proof.
  unfold deref. revert r. induction h as [|g0 t IH]; intros [|r]; simpl;
    try discriminate.
  - intros H. now inversion H.
  - apply IH.
Qed.

Lemma deref_update_other (h : store) (r r' : ref) (f : DiGraph -> DiGraph) :
  r <> r' -> deref (update h r f) r' = deref h r'.
Proof.
  unfold deref. revert r r'. induction h as [|g0 t IH]; intros [|r] [|r'] H; simpl;
    try reflexivity; try congruence.
  apply IH. congruence.
Qed.

Lemma obj_for_remove (path_list : list (list node)) (e s : bool)
      (h : store) (r : ref) (g : DiGraph) :
  deref h r = Some g ->
  exists h',
    obj_for path_list
            (fun path => obj_remove_nodes_from r (nodes_to_remove path e s)) h
    = Some (tt, h')
    /\ List.length h' = List.length h
    /\ deref h' r
       = Some (fold_left (fun g path => remove_nodes_from g (nodes_to_remove path e s))
                         path_list g)
    /\ forall r', r' <> r -> deref h' r' = deref h r'.
Proof.
  revert h g. induction path_list as [|p l IH]; intros h g H; simpl.
  - exists h. repeat split; auto.
  - unfold obj_bind, obj_remove_nodes_from at 1. rewrite H.
    destruct (IH (update h r (fun g => remove_nodes_from g (nodes_to_remove p e s)))
                 (remove_nodes_from g (nodes_to_remove p e s)))
      as [h' [E [L [D O]]]]; [now apply deref_update_same |].
    exists h'. split; [exact E |]. split; [now rewrite L, update_length |].
    split; [exact D |]. intros r' Hr'. rewrite O by assumption.
    apply deref_update_other. congruence.
Qed.

Lemma deref_alloc_old (h : store) (g : DiGraph) (r : ref) :
  r < List.length h -> deref (h ++ [g]) r = deref h r.
Proof. intros H. unfold deref. now apply nth_error_app1. Qed.

Lemma deref_alloc_new (h : store) (g : DiGraph) :
  deref (h ++ [g]) (List.length h) = Some g.
Proof.
  unfold deref. rewrite nth_error_app2 by lia. now rewrite Nat.sub_diag.
Qed.

Lemma deref_valid (h : store) (r : ref) (g : DiGraph) :
  deref h r = Some g -> r < List.length h.
Proof. intros H. apply nth_error_Some. unfold deref in H. congruence. Qed.

(** [remove_paths] on objects: a new object holds the result, and every
    object that existed before is as it was. *)
Lemma obj_remove_paths_spec (h : store) (graph : ref) (g : DiGraph)
      (path_list : list (list node)) (e s : bool) :
  deref h graph = Some g ->
  exists h',
    obj_remove_paths graph path_list e s h = Some (List.length h, h')
    /\ List.length h' = S (List.length h)
    /\ (forall r, r < List.length h -> deref h' r = deref h r)
    /\ deref h' (List.length h) = Some (remove_paths g path_list e s).
Proof.
  intros H. unfold obj_remove_paths, obj_bind, obj_copy. rewrite H.
  destruct (@obj_for_remove path_list e s (h ++ [copy g]) (List.length h) (copy g))
    as [h' [E [L [D O]]]]; [apply deref_alloc_new |].
  exists h'. rewrite E. unfold obj_ret.
  split; [reflexivity |].
  split; [rewrite L, length_app; simpl; lia |].
  split; [| exact D].
  intros r Hr. rewrite O by lia. now apply deref_alloc_old.
Qed.

Lemma obj_remove_others_spec (path_list : list (list node)) (best : list node)
      (e s : bool) (h : store) (graph : ref) (g : DiGraph) :
  deref h graph = Some g ->
  exists h' graph',
    obj_remove_others graph best path_list e s h = Some (graph', h')
    /\ List.length h <= List.length h'
    /\ (forall r, r < List.length h -> deref h' r = deref h r)
    /\ deref h' graph'
       = Some (fold_left (fun g path => if negb (path_eqb path best)
                                        then remove_paths g [path] e s else g)
                         path_list g).
Proof.
  revert h graph g. induction path_list as [|p l IH]; intros h graph g H; simpl.
  - exists h, graph. repeat split; auto.
  - destruct (negb (path_eqb p best)).
    + destruct (@obj_remove_paths_spec h graph g [p] e s H) as [h1 [E1 [L1 [O1 D1]]]].
      destruct (IH h1 (List.length h) (remove_paths g [p] e s) D1)
        as [h' [graph' [E [L [O D]]]]].
      exists h', graph'. unfold obj_bind. rewrite E1.
      split; [exact E |]. split; [lia |]. split; [| exact D].
      intros r Hr. rewrite O by lia. now apply O1.
    + now apply IH.
Qed.

(** C10. [remove_paths] and [select_best_path] leave the graph object they
    are given as it was, like every other object that existed: the nodes
    are removed from a copy, and the object returned holds the result. *)
Theorem removal_leaves_input_unmodified
        (R : RandomSource) (h : store) (graph : ref) (g : DiGraph)
        (path_list : list (list node)) (path_length : list Z)
        (weight_avg_list : list Q)
        (delete_entry_node delete_sink_node : bool) (rs : rng_state R) :
  deref h graph = Some g ->
  (exists h',
      obj_remove_paths graph path_list delete_entry_node delete_sink_node h
      = Some (List.length h, h')
      /\ deref h' graph = Some g
      /\ (forall r, r < List.length h -> deref h' r = deref h r)
      /\ deref h' (List.length h)
         = Some (remove_paths g path_list delete_entry_node delete_sink_node))
  /\ (exists h' out,
         obj_select_best_path R graph path_list path_length weight_avg_list
                              delete_entry_node delete_sink_node rs h
         = Some (out, h')
         /\ deref h' graph = Some g
         /\ (forall r, r < List.length h -> deref h' r = deref h r)
         /\ match out with
            | Raise x =>
                select_best_path R g path_list path_length weight_avg_list
                                 delete_entry_node delete_sink_node rs
                = Raise x
            | Ok (graph', rs') =>
                exists g',
                  deref h' graph' = Some g'
                  /\ select_best_path R g path_list path_length weight_avg_list
                                      delete_entry_node delete_sink_node rs
                     = Ok (g', rs')
            end).
Proof.
  intros H. pose proof (deref_valid _ _ H) as Hv. split.
  - destruct (@obj_remove_paths_spec h graph g path_list
                delete_entry_node delete_sink_node H) as [h' [E [L [O D]]]].
    exists h'. split; [exact E |]. split; [now rewrite O |]. split; assumption.
  - unfold obj_select_best_path, select_best_path.
    destruct (choose_best_path R path_list path_length weight_avg_list rs)
      as [[best rs1]|x]; simpl.
    + destruct (@obj_remove_others_spec path_list best delete_entry_node
                  delete_sink_node h graph g H) as [h' [graph' [E [L [O D]]]]].
      exists h', (Ok (graph', rs1)). unfold obj_bind. rewrite E. unfold obj_ret.
      split; [reflexivity |]. split; [now rewrite O |]. split; [exact O |].
      eexists. split; [exact D | reflexivity].
    + exists h, (Raise x). unfold obj_ret. repeat split; auto.
Qed.

(** ** Simple paths *)

Lemma successors_edge (g : DiGraph) (u v : node) :
  In v (successors g u) <-> has_edge g u v = true.
Proof.
  unfold successors, has_edge. rewrite in_map_iff, existsb_exists. split.
  - intros [e [<- He]]. apply filter_In in He. destruct He as [He E].
    exists e. split; [assumption |]. unfold is_edge. rewrite E. apply String.eqb_refl.
  - intros [e [He E]]. unfold is_edge in E. apply andb_true_iff in E.
    destruct E as [E1 E2]. apply String.eqb_eq in E2.
    exists e. split; [assumption |]. apply filter_In. now split.
Qed.

Lemma predecessors_edge (g : DiGraph) (u v : node) :
  In u (predecessors g v) <-> has_edge g u v = true.
Proof.
  unfold predecessors, has_edge. rewrite in_map_iff, existsb_exists. split.
  - intros [e [<- He]]. apply filter_In in He. destruct He as [He E].
    exists e. split; [assumption |]. unfold is_edge. rewrite E, String.eqb_refl.
    reflexivity.
  - intros [e [He E]]. unfold is_edge in E. apply andb_true_iff in E.
    destruct E as [E1 E2]. apply String.eqb_eq in E1.
    exists e. split; [assumption |]. apply filter_In. now split.
Qed.

Lemma chain_snoc (g : DiGraph) (path : list node) (cur child : node) :
  path <> [] -> last path "" = cur -> chain g path ->
  has_edge g cur child = true -> chain g (path ++ [child]).
Proof.
  induction path as [|u r IH]; [congruence |]. intros _ Hl Hc He.
  destruct r as [|v r'].
  - simpl in *. subst. now split.
  - destruct Hc as [Huv Hc]. split; [exact Huv |].
    apply IH; [discriminate | exact Hl | exact Hc | exact He].
Qed.

Lemma hd_app_nonempty (path ext : list node) :
  path <> [] -> hd_error (path ++ ext) = hd_error path.
Proof. destruct path; [congruence | reflexivity]. Qed.

Lemma simple_paths_from_sound (g : DiGraph) (targets : list node) (fuel : nat) :
  forall (path : list node) (cur : node) (p : list node),
    path <> [] -> last path "" = cur -> NoDup path -> chain g path ->
    In p (simple_paths_from fuel g targets path cur) ->
    NoDup p /\ chain g p /\ hd_error p = hd_error path /\ In (last p "") targets.
Proof.
  induction fuel as [|f IH]; intros path cur p Hne Hl Hnd Hc Hin;
    simpl in Hin; apply in_flat_map in Hin; destruct Hin as [child [Hs Hin]];
    apply successors_edge in Hs;
    destruct (mem child path) eqn:Em; try contradiction;
    apply mem_false in Em;
    assert (Hnd' : NoDup (path ++ [child]))
      by (apply NoDup_app; [assumption | repeat constructor; intros [] |];
          intros x Hx [<- | []]; contradiction);
    assert (Hc' : chain g (path ++ [child])) by (eapply chain_snoc; eassumption);
    apply in_app_or in Hin; destruct Hin as [Hin | Hin].
  - destruct (mem child targets) eqn:Et; [| contradiction].
    destruct Hin as [<- | []]. apply mem_In in Et.
    rewrite last_last, hd_app_nonempty by assumption. auto.
  - contradiction.
  - destruct (mem child targets) eqn:Et; [| contradiction].
    destruct Hin as [<- | []]. apply mem_In in Et.
    rewrite last_last, hd_app_nonempty by assumption. auto.
  - match type of Hin with In _ (if ?c then _ else _) => destruct c end;
      [| contradiction].
    apply IH in Hin; try assumption.
    + rewrite hd_app_nonempty in Hin by assumption. exact Hin.
    + destruct path; discriminate.
    + apply last_last.
Qed.

Lemma last_default (l : list node) (d d' : node) :
  l <> [] -> last l d = last l d'.
Proof.
  induction l as [|x r IH]; [congruence | intros _].
  destruct r as [|y r']; [reflexivity |].
  change (last (y :: r') d = last (y :: r') d'). apply IH. discriminate.
Qed.

Lemma all_simple_paths_sound (g : DiGraph) (source target : node)
      (paths : list (list node)) :
  In target (nodes g) ->
  all_simple_paths g source target = Ok paths ->
  forall p, In p paths -> simple_path g source target p.
Proof.
  intros Ht. unfold all_simple_paths.
  destruct (has_node g source); cbn [negb]; [| discriminate].
  apply has_node_In in Ht. rewrite Ht.
  intros E p Hp. inversion E; subst; clear E.
  apply in_app_or in Hp. destruct Hp as [Hp | Hp].
  - simpl in Hp. destruct (String.eqb source target) eqn:Em; [| contradiction].
    destruct Hp as [<- | []]. apply String.eqb_eq in Em. subst target.
    split; [repeat constructor; intros [] |]. now repeat split.
  - match type of Hp with In _ (if ?c then _ else _) => destruct c end;
      [| contradiction].
    apply simple_paths_from_sound in Hp;
      [| discriminate | reflexivity | repeat constructor; intros [] | exact I].
    destruct Hp as [Hnd [Hc [Hh Hl]]]. destruct Hl as [Hl | []].
    destruct p as [|x r]; simpl in Hh; [discriminate |].
    inversion Hh; subst x.
    split; [exact Hnd |]. split; [exact Hc |]. split; [reflexivity |].
    rewrite Hl. apply last_default. discriminate.
Qed.

(** ** Contigs *)

Lemma length_append (a b : string) :
  String.length (a ++ b) = String.length a + String.length b.
Proof. induction a as [|c r IH]; simpl; [reflexivity | now rewrite IH]. Qed.

Lemma append_assoc (a b c : string) : ((a ++ b) ++ c = a ++ (b ++ c))%string.
Proof. induction a as [|x r IH]; simpl; [reflexivity | now rewrite IH]. Qed.

Lemma length_zero_empty (a : string) : (String.length a =? 0) = true <-> a = "".
Proof. destruct a; simpl; split; congruence. Qed.

Lemma last_one_length (n : string) : n <> "" -> String.length (last_one n) = 1.
Proof.
  unfold last_one. destruct n as [|c r]; [congruence | intros _].
  simpl String.length. rewrite Nat.sub_0_r.
  revert c. induction r as [|c' r' IH]; intros c; [reflexivity |].
  simpl String.length. change (substring (S (String.length r')) 1 (String c (String c' r')))
    with (substring (String.length r') 1 (String c' r')). apply IH.
Qed.

Lemma last_char_spec (n c : string) :
  last_char n = Ok c -> n <> "" /\ c = last_one n.
Proof.
  unfold last_char, last_one. destruct n; [discriminate |].
  intros H. inversion H. split; [discriminate | reflexivity].
Qed.

(** Once the sequence is not empty, each further node adds its last
    character, and none of them is empty. *)
Lemma join_contig_nonempty (path : list node) (acc seq : string) :
  acc <> "" -> join_contig acc path = Ok seq ->
  seq = (acc ++ fold_right (fun n s => last_one n ++ s) "" path)%string
  /\ String.length seq = String.length acc + List.length path
  /\ Forall (fun n => n <> "") path.
Proof.
  revert acc. induction path as [|n r IH]; intros acc Hne H; simpl in H.
  - inversion H; subst. simpl. split; [| split; [lia | constructor]].
    clear. induction seq as [|c s IH]; simpl; [reflexivity | now rewrite <- IH].
  - destruct (String.length acc =? 0) eqn:E.
    + apply length_zero_empty in E. contradiction.
    + apply bind_Ok in H. destruct H as [c [Ec H]].
      apply last_char_spec in Ec. destruct Ec as [Hn ->].
      apply IH in H.
      * destruct H as [-> [L F]]. split; [| split].
        -- simpl. now rewrite append_assoc.
        -- rewrite L, length_append, last_one_length by assumption. simpl. lia.
        -- now constructor.
      * intros Z. apply (f_equal String.length) in Z.
        rewrite length_append, last_one_length in Z by assumption. simpl in Z. lia.
Qed.

(** C7 (as the code behaves).  When no starting node is the empty string,
    every pair that [get_contigs] returns comes from a simple path of the
    graph from a starting node to an ending node: the sequence is the first
    node of the path followed by the last character of each other node, and
    the length is the length of the first node plus the number of edges of
    the path. *)
Theorem get_contigs_sound (graph : DiGraph) (starting_nodes ending_nodes : list node)
        (contigs : list (string * Z)) :
  (forall n, In n starting_nodes -> n <> "") ->
  get_contigs graph starting_nodes ending_nodes = Ok contigs ->
  forall sequence len,
    In (sequence, len) contigs ->
    exists path node_start node_target,
      In node_start starting_nodes /\ In node_target ending_nodes
      /\ simple_path graph node_start node_target path
      /\ sequence = contig_of path
      /\ len = contig_length path
      /\ len = Z.of_nat (String.length sequence).
Proof.
  intros Hne H sequence len Hin. unfold get_contigs in H.
  apply bind_Ok in H. destruct H as [per_start [Hs H]]. inversion H; subst; clear H.
  apply in_concat in Hin. destruct Hin as [l [Hl Hin]].
  destruct (@mapM_In _ _ _ _ _ Hs l Hl) as [node_start [Hstart Hf]].
  apply bind_Ok in Hf. destruct Hf as [per_target [Ht H]]. inversion H; subst; clear H.
  apply in_concat in Hin. destruct Hin as [l' [Hl' Hin]].
  destruct (@mapM_In _ _ _ _ _ Ht l' Hl') as [node_target [Htarget Hg]].
  apply bind_Ok in Hg. destruct Hg as [connected [Hc Hg]].
  destruct connected; [| inversion Hg; subst; destruct Hin].
  apply bind_Ok in Hg. destruct Hg as [all_contigs [Ha Hm]].
  destruct (@mapM_In _ _ _ _ _ Hm _ Hin) as [path [Hpath Hj]].
  apply bind_Ok in Hj. destruct Hj as [cs [Hj E]]. inversion E; subst; clear E.
  assert (Hnode : In node_target (nodes graph)).
  { unfold has_path in Hc.
    destruct (has_node graph node_start && has_node graph node_target) eqn:B;
      [| discriminate].
    apply andb_true_iff in B. now apply has_node_In. }
  pose proof (@all_simple_paths_sound _ _ _ _ Hnode Ha path Hpath) as Hsp.
  exists path, node_start, node_target.
  split; [exact Hstart |]. split; [exact Htarget |]. split; [exact Hsp |].
  destruct Hsp as [_ [_ [Hh _]]].
  destruct path as [|first rest]; [discriminate |]. inversion Hh; subst first.
  simpl in Hj. apply join_contig_nonempty in Hj; [| now apply Hne].
  destruct Hj as [-> [L _]].
  split; [reflexivity |]. split; [| reflexivity].
  unfold contig_length. simpl hd. simpl List.length. rewrite L. f_equal. lia.
Qed.

(** C7, the claim as written fails on a path that starts at an empty node:
    the second node is then taken in full.  The graph has the single simple
    path ["", "AB"]; the claim gives it the sequence "B" and the length 1,
    and [get_contigs] returns ("AB", 2). *)
Lemma get_contigs_empty_first_node :
  get_contigs g_empty_node [""] ["AB"] = Ok [("AB", 2%Z)]
  /\ forall path node_start node_target,
       In node_start [""] -> In node_target ["AB"] ->
       simple_path g_empty_node node_start node_target path ->
       contig_of path = "B" /\ contig_length path = 1%Z.
Proof.
  split; [reflexivity |].
  intros path s t [<- | []] [<- | []] [_ [Hc [Hh Hl]]].
  destruct path as [|x r]; [discriminate |]. inversion Hh; subst x.
  destruct r as [|y r]; [simpl in Hl; discriminate |].
  destruct Hc as [He Hc]. unfold has_edge in He. simpl in He.
  rewrite orb_false_r in He. apply String.eqb_eq in He. subst y.
  destruct r as [|z r]; [split; reflexivity |].
  destruct Hc as [He _]. discriminate.
Qed.

(** ** The average weight of a path with a chord *)

(** C3, at the failing input.  In [g_bubble] the path AC, CC, CG has the
    two edges of weight 10, so the mean of its edges is 10; the subgraph
    induced by its nodes also holds the edge AC -> CG of weight 1, and
    [path_average_weight] returns 21/3 = 7. *)
Lemma path_average_weight_counts_chord :
  simple_path g_bubble "AC" "CG" ["AC"; "CC"; "CG"]
  /\ path_average_weight g_bubble ["AC"; "CC"; "CG"] = Ok (21 # 3)%Q
  /\ consecutive_mean g_bubble ["AC"; "CC"; "CG"] = Ok (20 # 2)%Q
  /\ ~ (21 # 3 == 20 # 2)%Q.
Proof.
  split; [| split; [reflexivity | split; [reflexivity | discriminate]]].
  split; [| now repeat split].
  repeat constructor; simpl; intuition discriminate.
Qed.

(** ** A bubble that is never resolved *)

Lemma g_bubble_acyclic : acyclic g_bubble.
Proof.
  exists (fun n => if String.eqb n "AC" then 0 else if String.eqb n "CC" then 1 else 2).
  intros e He. vm_compute in He.
  destruct He as [<- | [<- | [<- | []]]]; apply Nat.ltb_lt; reflexivity.
Qed.

Lemma g_bubble_scan (set_pick : list node -> nat) (g : DiGraph) :
  g = g_bubble \/ g = copy g_bubble ->
  find_bubble set_pick g (nodes g) = Ok (Some ("AC", "CG")).
Proof. intros [-> | ->]; reflexivity. Qed.

Lemma g_bubble_solve (R : RandomSource) (g : DiGraph) (rs : rng_state R) :
  g = g_bubble \/ g = copy g_bubble ->
  solve_bubble R g "AC" "CG" rs = Ok (copy g_bubble, rs).
Proof. intros [-> | ->]; reflexivity. Qed.

(** C4, at the failing input.  [g_bubble] is acyclic.  The scan finds the
    bubble between AC and CG; the best path is AC, CC, CG, and the other
    path, AC, CG, has no node between its ends, so nothing is removed and
    the graph comes back as it was: the recursion of [simplify_bubbles]
    never reaches a scan without a bubble, whatever the fuel. *)
Lemma simplify_bubbles_never_ends :
  acyclic g_bubble
  /\ is_directed_acyclic_graph g_bubble = true
  /\ forall (R : RandomSource) (set_pick : list node -> nat)
            (fuel : nat) (rs : rng_state R),
       simplify_bubbles R set_pick fuel g_bubble rs = None.
Proof.
  split; [exact g_bubble_acyclic |]. split; [reflexivity |].
  intros R set_pick fuel rs.
  assert (H : forall g, g = g_bubble \/ g = copy g_bubble ->
                        simplify_bubbles R set_pick fuel g rs = None).
  { induction fuel as [|f IH]; intros g Hg; [reflexivity |].
    cbn [simplify_bubbles].
    rewrite (g_bubble_scan set_pick Hg), (g_bubble_solve R rs Hg).
    apply IH. now right. }
  apply H. now left.
Qed.

(** ** Ancestors *)

Lemma add_new_In (new seen : list node) (x : node) :
  In x (add_new seen new) <-> In x seen \/ In x new.
Proof.
  unfold add_new. revert seen. induction new as [|y r IH]; intros seen; simpl.
  - tauto.
  - rewrite IH. destruct (mem y seen) eqn:E.
    + apply mem_In in E. split; [tauto |]. intros [H | [<- | H]]; tauto.
    + rewrite in_app_iff. simpl. tauto.
Qed.

Lemma closure_unfold (next : node -> list node) (fuel : nat) (seen : list node) :
  closure (S fuel) next seen
  = add_new (closure fuel next seen) (flat_map next (closure fuel next seen)).
Proof.
  revert seen. induction fuel as [|f IH]; intros seen; [reflexivity |].
  change (closure (S (S f)) next seen)
    with (closure (S f) next (add_new seen (flat_map next seen))).
  rewrite IH. reflexivity.
Qed.

Lemma closure_grows (next : node -> list node) (k n : nat) (seen : list node)
      (x : node) :
  k <= n -> In x (closure k next seen) -> In x (closure n next seen).
Proof.
  induction 1 as [|n Hle IH]; [auto |]. intros H.
  rewrite closure_unfold. apply add_new_In. left. now apply IH.
Qed.

Lemma closure_next (next : node -> list node) (fuel : nat) (seen : list node)
      (a b : node) :
  In b (closure fuel next seen) -> In a (next b) ->
  In a (closure (S fuel) next seen).
Proof.
  intros Hb Ha. rewrite closure_unfold. apply add_new_In. right.
  apply in_flat_map. now exists b.
Qed.

Lemma reaches_edge_last (g : DiGraph) (a b c : node) :
  reaches g a b -> has_edge g b c = true -> reaches g a c.
Proof.
  induction 1 as [n | a b' c' He Hr IH]; intros H.
  - eapply reaches_step; [exact H | constructor].
  - eapply reaches_step; [exact He | now apply IH].
Qed.

(** What the closure holds reaches one of the nodes it started from. *)
Lemma ancestors_sound (g : DiGraph) (fuel : nat) (seen : list node) (x : node) :
  In x (closure fuel (predecessors g) seen) ->
  exists s, In s seen /\ reaches g x s.
Proof.
  revert seen. induction fuel as [|f IH]; intros seen H; simpl in H.
  - exists x. split; [assumption | constructor].
  - apply IH in H. destruct H as [s [Hs Hr]].
    apply add_new_In in Hs. destruct Hs as [Hs | Hs]; [now exists s |].
    apply in_flat_map in Hs. destruct Hs as [t [Ht Hp]].
    apply predecessors_edge in Hp. exists t. split; [assumption |].
    eapply reaches_edge_last; eassumption.
Qed.

(** A path as a list of nodes. *)
Lemma reaches_chain (g : DiGraph) (a b : node) :
  reaches g a b -> exists p, chain g (a :: p) /\ last (a :: p) a = b.
Proof.
  induction 1 as [n | a b c He Hr [p [Hc Hl]]].
  - exists []. now split.
  - exists (b :: p). split; [now split |].
    rewrite <- Hl. change (last (a :: b :: p) a) with (last (b :: p) a).
    apply last_default. discriminate.
Qed.

Lemma chain_closure (g : DiGraph) (t : node) (p : list node) (a : node) :
  chain g (a :: p) -> last (a :: p) a = t ->
  In a (closure (List.length p) (predecessors g) [t]).
Proof.
  revert a. induction p as [|b r IH]; intros a Hc Hl.
  - simpl in *. now left.
  - destruct Hc as [He Hc].
    apply closure_next with (b := b).
    + apply IH; [exact Hc |]. rewrite <- Hl.
      change (last (a :: b :: r) a) with (last (b :: r) a).
      apply last_default. discriminate.
    + now apply predecessors_edge.
Qed.

Section Ranked.
Variable g : DiGraph.
Variable rank : node -> nat.
Hypothesis rank_edges : forall e, In e (edges g) -> rank (src e) < rank (dst e).
Hypothesis g_well_formed : well_formed g.

Lemma rank_has_edge (a b : node) : has_edge g a b = true -> rank a < rank b.
Proof.
  unfold has_edge. rewrite existsb_exists. intros [e [He E]].
  unfold is_edge in E. apply andb_true_iff in E. destruct E as [E1 E2].
  apply String.eqb_eq in E1, E2. subst. now apply rank_edges.
Qed.

Lemma has_edge_nodes (a b : node) :
  has_edge g a b = true -> In a (nodes g) /\ In b (nodes g).
Proof.
  unfold has_edge. rewrite existsb_exists. intros [e [He E]].
  unfold is_edge in E. apply andb_true_iff in E. destruct E as [E1 E2].
  apply String.eqb_eq in E1, E2. subst. now apply g_well_formed.
Qed.

Lemma chain_rank (p : list node) (a : node) :
  chain g (a :: p) -> forall b, In b p -> rank a < rank b.
Proof.
  revert a. induction p as [|c r IH]; intros a Hc b Hb; [destruct Hb |].
  destruct Hc as [He Hc]. apply rank_has_edge in He.
  destruct Hb as [<- | Hb]; [assumption |].
  specialize (IH c Hc b Hb). lia.
Qed.

Lemma chain_NoDup (p : list node) : chain g p -> NoDup p.
Proof.
  induction p as [|a r IH]; intros Hc; [constructor |].
  constructor.
  - intros Hin. pose proof (chain_rank r a Hc a Hin). lia.
  - apply IH. destruct r; [exact I | apply Hc].
Qed.

Lemma chain_nodes (p : list node) (a : node) :
  chain g (a :: p) -> In (last (a :: p) a) (nodes g) -> incl (a :: p) (nodes g).
Proof.
  revert a. induction p as [|b r IH]; intros a Hc Hl x Hx.
  - destruct Hx as [<- | []]. exact Hl.
  - destruct Hc as [He Hc]. destruct Hx as [<- | Hx].
    + now apply has_edge_nodes in He.
    + apply (IH b Hc); [| exact Hx].
      replace (last (b :: r) b) with (last (a :: b :: r) a); [exact Hl |].
      change (last (a :: b :: r) a) with (last (b :: r) a).
      apply last_default. discriminate.
Qed.

Lemma reaches_rank (a b : node) : reaches g a b -> rank a <= rank b.
Proof.
  induction 1 as [n | a b c He Hr IH]; [lia |].
  apply rank_has_edge in He. lia.
Qed.

(** A ranked graph has no cycle: no edge leads back to a node that reaches
    its source. *)
Lemma ranked_no_cycle (a b : node) :
  has_edge g a b = true -> ~ reaches g b a.
Proof.
  intros He Hr. apply rank_has_edge in He. apply reaches_rank in Hr. lia.
Qed.

(** On an acyclic graph the closure misses no ancestor. *)
Lemma ancestors_complete (a t : node) :
  In t (nodes g) -> reaches g a t -> In a (ancestors_or_self g t).
Proof.
  intros Ht Hr. apply reaches_chain in Hr. destruct Hr as [p [Hc Hl]].
  unfold ancestors_or_self.
  apply closure_grows with (k := List.length p); [| now apply chain_closure].
  assert (Hi : incl (a :: p) (nodes g)) by (apply chain_nodes; [exact Hc | now rewrite Hl]).
  pose proof (NoDup_incl_length (chain_NoDup _ Hc) Hi) as L. simpl in L. lia.
Qed.

Lemma ancestors_correct (a t : node) :
  In t (nodes g) -> (In a (ancestors_or_self g t) <-> reaches g a t).
Proof.
  intros Ht. split; [| now apply ancestors_complete].
  intros H. apply ancestors_sound in H. destruct H as [s [[<- | []] Hr]]. exact Hr.
Qed.

Lemma common_ancestors_correct (u v a : node) :
  In u (nodes g) -> In v (nodes g) ->
  (In a (common_ancestors g u v) <-> common_ancestor g u v a).
Proof.
  intros Hu Hv. unfold common_ancestors, common_ancestor.
  rewrite filter_In, mem_In, !ancestors_correct by assumption. tauto.
Qed.

End Ranked.

(** ** Graphs without a bubble *)

Lemma filter_drops (A : Type) (p : A -> bool) (l : list A) (x : A) :
  In x l -> p x = false -> List.length (filter p l) < List.length l.
Proof.
  induction l as [|y r IH]; intros Hx Hp; [destruct Hx |]. simpl.
  pose proof (filter_length_le p r) as L.
  destruct Hx as [-> | Hx].
  - rewrite Hp. lia.
  - specialize (IH Hx Hp). destruct (p y); simpl; lia.
Qed.

Lemma lowest_rank (rank : node -> nat) (l : list node) :
  l <> [] -> exists m, In m l /\ forall x, In x l -> rank m <= rank x.
Proof.
  induction l as [|a r IH]; [congruence | intros _].
  destruct r as [|b r'].
  - exists a. split; [now left |]. intros x [<- | []]. lia.
  - destruct IH as [m [Hm Hmin]]; [discriminate |].
    destruct (le_lt_dec (rank a) (rank m)) as [L | L].
    + exists a. split; [now left |]. intros x [<- | Hx]; [lia |].
      specialize (Hmin x Hx). lia.
    + exists m. split; [now right |]. intros x [<- | Hx]; [lia | now apply Hmin].
Qed.

Lemma highest_rank (rank : node -> nat) (l : list node) :
  l <> [] -> exists m, In m l /\ forall x, In x l -> rank x <= rank m.
Proof.
  induction l as [|a r IH]; [congruence | intros _].
  destruct r as [|b r'].
  - exists a. split; [now left |]. intros x [<- | []]. lia.
  - destruct IH as [m [Hm Hmax]]; [discriminate |].
    destruct (le_lt_dec (rank m) (rank a)) as [L | L].
    + exists a. split; [now left |]. intros x [<- | Hx]; [lia |].
      specialize (Hmax x Hx). lia.
    + exists m. split; [now right |]. intros x [<- | Hx]; [lia | now apply Hmax].
Qed.

Section RankedScan.
Variable g : DiGraph.
Variable rank : node -> nat.
Hypothesis rank_edges : forall e, In e (edges g) -> rank (src e) < rank (dst e).
Hypothesis g_well_formed : well_formed g.

(** Each round takes at least the remaining node of lowest rank away. *)
Lemma peel_empties (fuel : nat) (remaining : list node) :
  List.length remaining <= fuel -> peel fuel g remaining = [].
Proof.
  revert remaining. induction fuel as [|f IH]; intros remaining L.
  - destruct remaining; [reflexivity | simpl in L; lia].
  - simpl. apply IH.
    destruct remaining as [|a r] eqn:E; [simpl; lia |]. rewrite <- E in *.
    destruct (@lowest_rank rank remaining) as [m [Hm Hmin]]; [congruence |].
    assert (Hlt : List.length
                    (filter (fun n => existsb (fun p => mem p remaining)
                                              (predecessors g n)) remaining)
                  < List.length remaining).
    { apply filter_drops with (x := m); [exact Hm |].
      destruct (existsb (fun p => mem p remaining) (predecessors g m)) eqn:X;
        [| reflexivity].
      apply existsb_exists in X. destruct X as [q [Hq Hin]].
      apply predecessors_edge in Hq. apply (@rank_has_edge g rank rank_edges) in Hq.
      apply mem_In in Hin. specialize (Hmin q Hin). lia. }
    lia.
Qed.

Lemma acyclic_is_dag : is_directed_acyclic_graph g = true.
Proof.
  unfold is_directed_acyclic_graph. now rewrite peel_empties.
Qed.

(** Among common ancestors, one of highest rank is a lowest one. *)
Lemma common_ancestors_lowest (u v : node) :
  In u (nodes g) -> In v (nodes g) ->
  common_ancestors g u v <> [] ->
  exists a, lowest_common_ancestor_of g u v a.
Proof.
  intros Hu Hv Hne.
  destruct (@highest_rank rank _ Hne) as [a [Ha Hmax]].
  exists a. split.
  - now apply (@common_ancestors_correct g rank rank_edges g_well_formed u v a Hu Hv).
  - intros s He Hs.
    apply (@common_ancestors_correct g rank rank_edges g_well_formed u v s Hu Hv) in Hs.
    apply (@rank_has_edge g rank rank_edges) in He.
    specialize (Hmax s Hs). lia.
Qed.

Hypothesis g_no_bubble : no_bubble g.
Variable set_pick : list node -> nat.

Lemma combinations_In (l : list node) (u v : node) :
  In (u, v) (combinations l) -> In u l /\ In v l.
Proof.
  induction l as [|x r IH]; simpl; [tauto |].
  rewrite in_app_iff, in_map_iff. intros [[y [E Hy]] | H].
  - inversion E; subst. auto.
  - destruct (IH H). auto.
Qed.

Lemma no_ancestor_found (n : node) (pairs : list (node * node)) :
  In n (nodes g) -> incl pairs (combinations (predecessors g n)) ->
  first_ancestor set_pick g pairs = Ok None.
Proof.
  intros Hn. induction pairs as [|[u v] r IH]; intros Hi; [reflexivity |].
  assert (Huv : In (u, v) (combinations (predecessors g n))) by (apply Hi; now left).
  destruct (@combinations_In _ _ _ Huv) as [Pu Pv].
  apply predecessors_edge in Pu, Pv.
  apply (@has_edge_nodes g g_well_formed) in Pu, Pv.
  destruct Pu as [Pu _]. destruct Pv as [Pv _].
  cbn [first_ancestor fst snd]. unfold lowest_common_ancestor.
  rewrite acyclic_is_dag. cbn [negb].
  destruct (List.length (nodes g) =? 0) eqn:Z.
  { apply Nat.eqb_eq in Z. destruct (nodes g); [destruct Hn | discriminate]. }
  apply has_node_In in Pu, Pv. rewrite Pu, Pv. cbn [andb negb].
  apply has_node_In in Pu, Pv.
  destruct (common_ancestors g u v) as [|a l] eqn:C.
  - simpl. apply IH. intros x Hx. apply Hi. now right.
  - exfalso. apply (@g_no_bubble n u v Hn Huv).
    apply common_ancestors_lowest; try assumption. rewrite C. discriminate.
Qed.

Lemma no_bubble_found (list_nodes : list node) :
  incl list_nodes (nodes g) -> find_bubble set_pick g list_nodes = Ok None.
Proof.
  induction list_nodes as [|n r IH]; intros Hi; [reflexivity |].
  cbn [find_bubble].
  assert (Hr : find_bubble set_pick g r = Ok None)
    by (apply IH; intros x Hx; apply Hi; now right).
  destruct (1 <? List.length (predecessors g n)); [| exact Hr].
  rewrite (@no_ancestor_found n); [exact Hr | apply Hi; now left | apply incl_refl].
Qed.

End RankedScan.

Lemma no_scan_without_merge (set_pick : list node -> nat) (g : DiGraph)
      (list_nodes : list node) :
  (forall n, In n list_nodes -> List.length (predecessors g n) <= 1) ->
  find_bubble set_pick g list_nodes = Ok None.
Proof.
  induction list_nodes as [|n r IH]; intros H; [reflexivity |].
  cbn [find_bubble].
  assert (E : (1 <? List.length (predecessors g n)) = false)
    by (apply Nat.ltb_ge, H; now left).
  rewrite E. apply IH. intros m Hm. apply H. now right.
Qed.

(** C6 (as the code behaves).  On a graph without a bubble that is acyclic,
    or in which no node has more than one predecessor, the scan of
    [simplify_bubbles] finds nothing and the graph that was passed is
    returned, with the same nodes, edges and weights; no random number is
    drawn. *)
Theorem simplify_bubbles_no_bubble
        (R : RandomSource) (set_pick : list node -> nat)
        (graph : DiGraph) (fuel : nat) (rs : rng_state R) :
  well_formed graph -> no_bubble graph ->
  (acyclic graph
   \/ forall n, In n (nodes graph) -> List.length (predecessors graph n) <= 1) ->
  simplify_bubbles R set_pick (S fuel) graph rs = Some (Ok (graph, rs)).
Proof.
  intros W Hnb [[rank Hrank] | Hfew]; cbn [simplify_bubbles].
  - rewrite (@no_bubble_found graph rank Hrank W Hnb set_pick (nodes graph)
               (incl_refl _)).
    reflexivity.
  - rewrite (no_scan_without_merge set_pick graph (nodes graph) Hfew).
    reflexivity.
Qed.

Lemma source_reached_by_itself (g : DiGraph) (a r : node) :
  predecessors g r = [] -> reaches g a r -> a = r.
Proof.
  intros Hp H. induction H as [n | a b c He Hr IH]; [reflexivity |].
  specialize (IH Hp). subst b. apply predecessors_edge in He.
  rewrite Hp in He. destruct He.
Qed.

Lemma sources_share_no_ancestor (g : DiGraph) (u v : node) :
  predecessors g u = [] -> predecessors g v = [] -> u <> v ->
  ~ exists a, lowest_common_ancestor_of g u v a.
Proof.
  intros Hu Hv Hne [a [[Ru Rv] _]].
  apply source_reached_by_itself in Ru, Rv; try assumption. congruence.
Qed.

(** C6, the claim as written fails on a graph with a cycle: in [g_cycle]
    the only node with two predecessors is TC, and its predecessors AT and
    GT have no common ancestor, so the graph has no bubble; but the graph
    is not acyclic, networkx refuses to compute a lowest common ancestor,
    and [simplify_bubbles] raises NetworkXError in place of returning the
    graph. *)
Lemma simplify_bubbles_raises_on_cycle :
  well_formed g_cycle /\ no_bubble g_cycle
  /\ forall (R : RandomSource) (set_pick : list node -> nat)
            (fuel : nat) (rs : rng_state R),
       simplify_bubbles R set_pick (S fuel) g_cycle rs = Some (Raise NetworkXError).
Proof.
  split; [| split; [| reflexivity]].
  - split.
    + change (nodes g_cycle) with ["AT"; "TC"; "GT"; "GA"; "AG"].
      repeat constructor; simpl; intuition discriminate.
    + change (nodes g_cycle) with ["AT"; "TC"; "GT"; "GA"; "AG"].
      intros e He. vm_compute in He.
      destruct He as [<- | [<- | [<- | [<- | []]]]]; simpl; intuition.
  - intros n u v Hn Huv.
    change (nodes g_cycle) with ["AT"; "TC"; "GT"; "GA"; "AG"] in Hn.
    destruct Hn as [<- | [<- | [<- | [<- | [<- | []]]]]];
      vm_compute in Huv; try contradiction.
    destruct Huv as [E | []]. inversion E; subst.
    apply sources_share_no_ancestor; [reflexivity | reflexivity | discriminate].
Qed.

(** ** Instances *)


Lemma g_merge_no_bubble : no_bubble g_merge.
Proof.
  intros n u v Hn Huv.
  change (nodes g_merge) with ["AT"; "TC"; "GT"] in Hn.
  destruct Hn as [<- | [<- | [<- | []]]]; vm_compute in Huv; try contradiction.
  destruct Huv as [E | []]. inversion E; subst.
  apply sources_share_no_ancestor; [reflexivity | reflexivity | discriminate].
Qed.

Lemma g_merge_well_formed : well_formed g_merge.
Proof. apply (@build_graph_invariant [("ATC", 1%Z); ("GTC", 1%Z)]).
  intros k c [E | [E | []]]; inversion E; lia.
Qed.

Lemma g_merge_acyclic : acyclic g_merge.
Proof.
  exists (fun n => if String.eqb n "TC" then 1 else 0).
  intros e He. vm_compute in He.
  destruct He as [<- | [<- | []]]; apply Nat.ltb_lt; reflexivity.
Qed.

(** C6 on [g_merge]: TC has two predecessors, which have no common
    ancestor. *)
Lemma simplify_bubbles_no_bubble_witness :
  (well_formed g_merge /\ acyclic g_merge /\ no_bubble g_merge)
  /\ List.length (predecessors g_merge "TC") = 2
  /\ simplify_bubbles highest_source (fun _ => 0) 1 g_merge 0
     = Some (Ok (g_merge, 0)).
Proof.
  split; [split; [exact g_merge_well_formed |
                  split; [exact g_merge_acyclic | exact g_merge_no_bubble]] |].
  split; [reflexivity |].
  exact (@simplify_bubbles_no_bubble highest_source (fun _ => 0) g_merge 0 0
           g_merge_well_formed g_merge_no_bubble (or_introl g_merge_acyclic)).
Defined.

(** C7 on [g_bubble], from AC to CG. *)
Lemma get_contigs_sound_witness :
  ((forall n, In n ["AC"] -> n <> "")
   /\ get_contigs g_bubble ["AC"] ["CG"] = Ok [("ACCG", 4%Z); ("ACG", 3%Z)])
  /\ exists path node_start node_target,
       In node_start ["AC"] /\ In node_target ["CG"]
       /\ simple_path g_bubble node_start node_target path
       /\ "ACCG" = contig_of path
       /\ 4%Z = contig_length path
       /\ 4%Z = Z.of_nat (String.length "ACCG").
Proof.
  assert (H : forall n, In n ["AC"] -> n <> "")
    by (intros n [<- | []]; discriminate).
  split; [split; [exact H | reflexivity] |].
  apply (@get_contigs_sound g_bubble ["AC"] ["CG"] [("ACCG", 4%Z); ("ACG", 3%Z)]
           H eq_refl "ACCG" 4%Z).
  now left.
Defined.

(** C9 on the k-mers of [g_bubble]. *)
Lemma invariant_witness :
  (forall kmer count,
      In (kmer, count) [("ACC", 10%Z); ("CCG", 10%Z); ("ACG", 1%Z)] ->
      (1 <= count)%Z)
  /\ graph_invariant g_bubble
  /\ graph_invariant (remove_paths g_bubble bubble_paths true false).
Proof.
  assert (H : forall kmer count,
             In (kmer, count) [("ACC", 10%Z); ("CCG", 10%Z); ("ACG", 1%Z)] ->
             (1 <= count)%Z)
    by (intros k c [E | [E | [E | []]]]; inversion E; lia).
  split; [exact H |].
  destruct (@invariant_established_and_preserved _ H) as [[Hb _] [Hr _]].
  split; [exact Hb | now apply Hr].
Defined.

(** C10 on a store that holds [g_bubble] alone. *)
Lemma removal_witness :
  deref [g_bubble] 0 = Some g_bubble
  /\ exists h',
       obj_remove_paths 0 [["AC"; "CC"; "CG"]] false false [g_bubble]
       = Some (1, h')
       /\ deref h' 0 = Some g_bubble
       /\ deref h' 1
          = Some (mkGraph ["AC"; "CG"] [mkEdge "AC" "CG" 1]).
Proof.
  split; [reflexivity |].
  destruct (@removal_leaves_input_unmodified lowest_source [g_bubble] 0 g_bubble
              [["AC"; "CC"; "CG"]] [] [] false false tt eq_refl)
    as [[h' [E [D [_ N]]]] _].
  exists h'. split; [exact E |]. split; [exact D | exact N].
Defined.

(** C8 on a file of one record. *)
Lemma build_kmer_dict_witness :
  read_fastq one_read = Ok ["ACGTA"]
  /\ exists d, build_kmer_dict one_read 22%Z = Ok d /\ counts_3mers d ["ACGTA"].
Proof.
  split; [reflexivity |].
  destruct (build_kmer_dict_ignores_kmer_size one_read 22%Z 3%Z) as [_ H].
  apply H. reflexivity.
Defined.

(** * Further properties *)

(** ** Substrings *)

Lemma substring_empty (i n : nat) : substring i n "" = "".
Proof. destruct i, n; reflexivity. Qed.

Lemma substring_whole_length (s : string) (i n : nat) :
  i + n <= String.length s -> String.length (substring i n s) = n.
Proof.
  revert i n. induction s as [|c r IH]; intros i n H; simpl in H.
  - rewrite substring_empty. simpl. lia.
  - destruct i as [|i]; simpl.
    + destruct n as [|n]; simpl; [reflexivity |]. f_equal. apply (IH 0). lia.
    + apply IH. lia.
Qed.

(** A substring of a substring is a substring of the whole. *)
Lemma substring_nested (s : string) (b a m n : nat) :
  a + n <= m -> substring a n (substring b m s) = substring (a + b) n s.
Proof.
  revert b a m n. induction s as [|c r IH]; intros b a m n H.
  - now rewrite !substring_empty.
  - destruct b as [|b].
    + destruct m as [|m].
      * assert (a = 0) by lia. assert (n = 0) by lia. subst. reflexivity.
      * destruct a as [|a].
        -- destruct n as [|n]; [reflexivity |]. simpl. f_equal.
           apply (IH 0 0 m n). lia.
        -- change (substring (S a) n (substring 0 (S m) (String c r)))
             with (substring a n (substring 0 m r)).
           change (substring (S a + 0) n (String c r)) with (substring (a + 0) n r).
           apply IH. lia.
    + change (substring (S b) m (String c r)) with (substring b m r).
      replace (a + S b) with (S (a + b)) by lia.
      change (substring (S (a + b)) n (String c r)) with (substring (a + b) n r).
      now apply IH.
Qed.

(** [s[1:]] and [s[:-1]] as substrings. *)
Lemma str_slice_tail (s : string) :
  str_slice s (Some 1%Z) None = substring 1 (String.length s - 1) s.
Proof.
  unfold str_slice, slice_bounds, clamp_index.
  destruct s as [|c r]; [reflexivity |].
  assert (E : (1 <? 0)%Z = false) by reflexivity. rewrite E.
  replace (Z.to_nat (Z.min 1 (Z.of_nat (String.length (String c r))))) with 1
    by (simpl String.length; lia).
  replace (Z.to_nat (Z.of_nat (String.length (String c r))
                     - Z.min 1 (Z.of_nat (String.length (String c r)))))
    with (String.length (String c r) - 1) by (simpl String.length; lia).
  reflexivity.
Qed.

Lemma str_slice_init (s : string) :
  str_slice s None (Some (-1)%Z) = substring 0 (String.length s - 1) s.
Proof.
  unfold str_slice, slice_bounds, clamp_index.
  assert (E : (-1 <? 0)%Z = true) by reflexivity. rewrite E.
  replace (Z.to_nat (Z.max 0 (-1 + Z.of_nat (String.length s)) - 0))
    with (String.length s - 1) by lia.
  reflexivity.
Qed.

Lemma str_slice_tail_length (s : string) :
  String.length (str_slice s (Some 1%Z) None) = String.length s - 1.
Proof.
  rewrite str_slice_tail. destruct s as [|c r]; [reflexivity |].
  apply substring_whole_length. simpl. lia.
Qed.

Lemma str_slice_init_length (s : string) :
  String.length (str_slice s None (Some (-1)%Z)) = String.length s - 1.
Proof.
  rewrite str_slice_init. apply substring_whole_length. lia.
Qed.

(** ** The k-mers of a read *)

Lemma cut_kmer_substrings (read : string) (k : Z) :
  (0 <= k)%Z ->
  cut_kmer read k
  = map (fun i => substring i (Z.to_nat k) read)
        (seq 0 (Z.to_nat (Z.of_nat (String.length read) - k + 1))).
Proof.
  intros Hk. unfold cut_kmer, range. rewrite map_map.
  apply map_ext_in. intros i Hi. apply in_seq in Hi.
  unfold str_slice, slice_bounds, clamp_index.
  assert (E1 : (Z.of_nat i <? 0)%Z = false) by (apply Z.ltb_ge; lia).
  assert (E2 : (Z.of_nat i + k <? 0)%Z = false) by (apply Z.ltb_ge; lia).
  rewrite E1, E2.
  replace (Z.to_nat (Z.min (Z.of_nat i) (Z.of_nat (String.length read)))) with i by lia.
  replace (Z.to_nat (Z.min (Z.of_nat i + k) (Z.of_nat (String.length read))
                     - Z.min (Z.of_nat i) (Z.of_nat (String.length read))))
    with (Z.to_nat k) by lia.
  reflexivity.
Qed.

Lemma nth_map_seq (f : nat -> string) (n i : nat) (d : string) :
  i < n -> nth i (map f (seq 0 n)) d = f i.
Proof.
  intros H. rewrite (nth_indep _ d (f 0)) by (now rewrite length_map, length_seq).
  rewrite (map_nth f (seq 0 n) 0 i), seq_nth by exact H. reflexivity.
Qed.

Lemma cut_kmer_nth (read : string) (k : Z) (i : nat) :
  (0 <= k)%Z ->
  i < Z.to_nat (Z.of_nat (String.length read) - k + 1) ->
  nth i (cut_kmer read k) "" = substring i (Z.to_nat k) read.
Proof.
  intros Hk Hi. rewrite cut_kmer_substrings by assumption.
  apply nth_map_seq. exact Hi.
Qed.

(** X2. For a size [k >= 0], [cut_kmer] yields the [len(read) - k + 1]
    windows of [k] characters of the read, from left to right, and nothing
    when the read is shorter than [k]: the k-mer at position [i] is the
    substring of length [k] that starts at [i]. *)
Theorem cut_kmer_windows (read : string) (k : Z) :
  (0 <= k)%Z ->
  List.length (cut_kmer read k)
  = Z.to_nat (Z.of_nat (String.length read) - k + 1)
  /\ forall i,
       i < List.length (cut_kmer read k) ->
       nth i (cut_kmer read k) "" = substring i (Z.to_nat k) read
       /\ String.length (nth i (cut_kmer read k) "") = Z.to_nat k.
Proof.
  intros Hk.
  assert (L : List.length (cut_kmer read k)
              = Z.to_nat (Z.of_nat (String.length read) - k + 1))
    by (rewrite cut_kmer_substrings, length_map, length_seq by assumption; reflexivity).
  split; [exact L |]. intros i Hi. rewrite L in Hi.
  rewrite cut_kmer_nth by assumption. split; [reflexivity |].
  apply substring_whole_length. lia.
Qed.

Lemma cut_kmer_windows_witness :
  (0 <= 3)%Z
  /\ cut_kmer "ACGTA" 3%Z = ["ACG"; "CGT"; "GTA"]
  /\ List.length (cut_kmer "ACGTA" 3%Z) = 3
  /\ List.length (cut_kmer "AC" 3%Z) = 0.
Proof.
  split; [lia |]. split; [reflexivity |].
  split; [exact (proj1 (@cut_kmer_windows "ACGTA" 3%Z ltac:(lia))) |].
  exact (proj1 (@cut_kmer_windows "AC" 3%Z ltac:(lia))).
Defined.

(** X3. Consecutive k-mers of a read overlap: for [k >= 1], the k-mer at
    position [i] without its first character is the k-mer at position
    [i + 1] without its last character.  These are the slices [kmer[1:]] and
    [kmer[:-1]] that [build_graph] takes as the ends of an edge. *)
Theorem consecutive_kmers_overlap (read : string) (k : Z) (i : nat) :
  (1 <= k)%Z ->
  S i < List.length (cut_kmer read k) ->
  str_slice (nth i (cut_kmer read k) "") (Some 1%Z) None
  = str_slice (nth (S i) (cut_kmer read k) "") None (Some (-1)%Z).
Proof.
  intros Hk Hi.
  assert (L : List.length (cut_kmer read k)
              = Z.to_nat (Z.of_nat (String.length read) - k + 1))
    by (rewrite cut_kmer_substrings, length_map, length_seq by lia; reflexivity).
  rewrite L in Hi.
  rewrite !cut_kmer_nth by lia.
  rewrite str_slice_tail, str_slice_init.
  rewrite !substring_whole_length by lia.
  rewrite !substring_nested by lia.
  reflexivity.
Qed.

Lemma consecutive_kmers_overlap_witness :
  ((1 <= 3)%Z /\ 1 < List.length (cut_kmer "ACGTA" 3%Z))
  /\ str_slice "ACG" (Some 1%Z) None = str_slice "CGT" None (Some (-1)%Z).
Proof.
  split; [split; [lia | simpl; lia] |].
  exact (@consecutive_kmers_overlap "ACGTA" 3%Z 0 ltac:(lia) ltac:(simpl; lia)).
Defined.

(** ** The records of the file *)

Lemma read_fastq_bounded (n : nat) (lines : list string) :
  List.length lines <= n ->
  match read_fastq lines with
  | Ok reads =>
      List.length lines = 4 * List.length reads
      /\ forall i, i < List.length reads ->
                   nth i reads "" = strip (nth (4 * i + 1) lines "")
  | Raise e => e = RuntimeError /\ List.length lines mod 4 <> 0
  end.
Proof.
  revert lines. induction n as [|n IH]; intros lines L.
  - destruct lines; [| simpl in L; lia]. simpl. split; [reflexivity | intros i Hi; lia].
  - destruct lines as [|a [|b [|c [|d rest]]]].
    + simpl. split; [reflexivity | intros i Hi; lia].
    + simpl. split; [reflexivity | discriminate].
    + simpl. split; [reflexivity | discriminate].
    + simpl. split; [reflexivity | discriminate].
    + specialize (IH rest ltac:(simpl in L; lia)).
      change (read_fastq (a :: b :: c :: d :: rest))
        with (reads <- read_fastq rest ;; Ok (strip b :: reads)).
      destruct (read_fastq rest) as [reads | e]; simpl bind.
      * destruct IH as [E N]. split; [simpl; lia |].
        intros [|i] Hi; [reflexivity |].
        replace (4 * S i + 1) with (S (S (S (S (4 * i + 1))))) by lia.
        simpl in Hi. simpl nth. apply N. lia.
      * destruct IH as [E N]. split; [exact E |].
        change (List.length (a :: b :: c :: d :: rest)) with (4 + List.length rest).
        intros Z. apply N. revert Z. clear.
        generalize (List.length rest). intros m.
        rewrite <- (Nat.Div0.add_mod_idemp_l 4 m 4). simpl (4 mod 4). auto.
Qed.

(** X4. [read_fastq] reads the file four lines at a time: a file of [4 n]
    lines gives [n] reads, the read at position [i] being line [4 i + 1]
    stripped; a file whose number of lines is not a multiple of 4 makes the
    generator raise RuntimeError. *)
Theorem read_fastq_records (lines : list string) :
  match read_fastq lines with
  | Ok reads =>
      List.length lines = 4 * List.length reads
      /\ forall i, i < List.length reads ->
                   nth i reads "" = strip (nth (4 * i + 1) lines "")
  | Raise e => e = RuntimeError /\ List.length lines mod 4 <> 0
  end.
Proof. exact (@read_fastq_bounded (List.length lines) lines (Nat.le_refl _)). Qed.

(** ** Stripped reads *)

Lemma lstrip_first (s : string) (c : ascii) :
  first_char (lstrip s) = Some c -> isspace c = false.
Proof.
  induction s as [|x r IH]; simpl; [discriminate |].
  destruct (isspace x) eqn:E; [exact IH |].
  simpl. intros H. now inversion H; subst.
Qed.

Lemma rstrip_final (s : string) (c : ascii) :
  final_char (rstrip s) = Some c -> isspace c = false.
Proof.
  induction s as [|x r IH]; simpl; [discriminate |].
  destruct (rstrip r) as [|y r'] eqn:E.
  - destruct (isspace x) eqn:Ex; simpl; [discriminate |].
    intros H. now inversion H; subst.
  - exact IH.
Qed.

Lemma rstrip_first (s : string) (c : ascii) :
  first_char (rstrip s) = Some c -> first_char s = Some c.
Proof.
  destruct s as [|x r]; simpl; [discriminate |].
  destruct (rstrip r); [destruct (isspace x) |]; simpl; congruence.
Qed.

Lemma strip_trimmed (s : string) : trimmed (strip s).
Proof.
  unfold strip. split; intros c H.
  - apply rstrip_first in H. now apply lstrip_first in H.
  - now apply rstrip_final in H.
Qed.

Lemma lstrip_fixed (s : string) :
  (forall c, first_char s = Some c -> isspace c = false) -> lstrip s = s.
Proof.
  destruct s as [|x r]; simpl; [reflexivity |].
  intros H. now rewrite (H x eq_refl).
Qed.

Lemma rstrip_fixed (s : string) :
  (forall c, final_char s = Some c -> isspace c = false) -> rstrip s = s.
Proof.
  induction s as [|x r IH]; [reflexivity |]. intros H.
  destruct r as [|y r'].
  - simpl. now rewrite (H x eq_refl).
  - change (rstrip (String x (String y r')))
      with (match rstrip (String y r') with
            | EmptyString => if isspace x then EmptyString else String x EmptyString
            | String z t => String x (String z t)
            end).
    rewrite IH; [reflexivity |]. intros c Hc. apply H. exact Hc.
Qed.

Lemma trimmed_strip (s : string) : trimmed s -> strip s = s.
Proof.
  intros [H1 H2]. unfold strip. rewrite (lstrip_fixed s H1). now apply rstrip_fixed.
Qed.

(** X5. No read that [read_fastq] yields begins or ends with a whitespace
    character (the end of line is gone), and stripping a read again changes
    nothing.  Characters are taken among the first 256 code points. *)
Theorem read_fastq_trimmed (lines reads : list string) :
  read_fastq lines = Ok reads ->
  forall read, In read reads -> trimmed read /\ strip read = read.
Proof.
  intros H read Hin.
  destruct (In_nth reads read "" Hin) as [i [Hi E]].
  pose proof (@read_fastq_bounded (List.length lines) lines (Nat.le_refl _)) as R.
  rewrite H in R. destruct R as [_ N]. rewrite <- E, (N i Hi).
  split; [apply strip_trimmed | apply trimmed_strip, strip_trimmed].
Qed.

Lemma read_fastq_trimmed_witness :
  read_fastq one_read = Ok ["ACGTA"]
  /\ trimmed "ACGTA" /\ strip "ACGTA" = "ACGTA".
Proof.
  split; [reflexivity |].
  apply (@read_fastq_trimmed one_read ["ACGTA"] eq_refl "ACGTA"). now left.
Defined.

(** ** The total of the counts *)

Lemma sum_counts_set (d : dict Z) (k : string) (v : Z) :
  sum_counts (dict_set d k v) = (sum_counts d - count_of d k + v)%Z.
Proof.
  unfold sum_counts, count_of. induction d as [|[k' v'] r IH]; simpl; [lia |].
  destruct (String.eqb k' k); simpl; lia.
Qed.

Lemma sum_counts_count_kmer (d : dict Z) (kmer : string) :
  sum_counts (count_kmer d kmer) = (sum_counts d + 1)%Z.
Proof.
  unfold count_kmer, dict_contains.
  destruct (dict_get d kmer) as [n|] eqn:E; rewrite sum_counts_set;
    unfold count_of; rewrite E; lia.
Qed.

Lemma dict_get_In (V : Type) (d : dict V) (k : string) (v : V) :
  dict_get d k = Some v -> In (k, v) d.
Proof.
  induction d as [|[k' v'] r IH]; simpl; [discriminate |].
  destruct (String.eqb k' k) eqn:E.
  - apply String.eqb_eq in E. intros H. inversion H; subst. now left.
  - intros H. right. now apply IH.
Qed.

Lemma dict_set_In (V : Type) (d : dict V) (k k' : string) (v v' : V) :
  In (k', v') (dict_set d k v) -> In (k', v') d \/ (k' = k /\ v' = v).
Proof.
  induction d as [|[k0 v0] r IH]; simpl.
  - intros [H | []]. inversion H. auto.
  - destruct (String.eqb k0 k) eqn:E; simpl.
    + apply String.eqb_eq in E. intros [H | H]; [inversion H; subst; auto | auto].
    + intros [H | H]; [auto |]. destruct (IH H); auto.
Qed.

Lemma three_mers_count_kmer (d : dict Z) (kmer : string) :
  String.length kmer = 3 -> three_mers d -> three_mers (count_kmer d kmer).
Proof.
  intros L H k c Hin. unfold count_kmer, dict_contains in Hin.
  destruct (dict_get d kmer) as [n|] eqn:E; apply dict_set_In in Hin;
    destruct Hin as [Hin | [-> ->]]; try (now apply H).
  - split; [exact L |]. apply dict_get_In in E. destruct (H _ _ E). lia.
  - split; [exact L | lia].
Qed.

Lemma cut_kmer_3_lengths (read kmer : string) :
  In kmer (cut_kmer read 3%Z) -> String.length kmer = 3.
Proof.
  rewrite cut_kmer_3. intros H. apply in_map_iff in H. destruct H as [i [<- Hi]].
  apply in_seq in Hi. apply substring_whole_length. lia.
Qed.

Lemma count_kmers_totals (kmers : list string) (d : dict Z) :
  (forall kmer, In kmer kmers -> String.length kmer = 3) -> three_mers d ->
  three_mers (fold_left count_kmer kmers d)
  /\ sum_counts (fold_left count_kmer kmers d)
     = (sum_counts d + Z.of_nat (List.length kmers))%Z.
Proof.
  revert d. induction kmers as [|x r IH]; intros d L H; cbn [fold_left].
  - split; [exact H | simpl; lia].
  - destruct (IH (count_kmer d x)) as [H' E].
    + intros k Hk. apply L. now right.
    + apply three_mers_count_kmer; [apply L; now left | exact H].
    + split; [exact H' |]. rewrite E, sum_counts_count_kmer. simpl List.length. lia.
Qed.

Lemma count_reads_totals (reads : list string) (d : dict Z) :
  three_mers d ->
  let d' := fold_left
              (fun kmer_dict read => fold_left count_kmer (cut_kmer read 3%Z) kmer_dict)
              reads d in
  three_mers d'
  /\ sum_counts d' = (sum_counts d + Z.of_nat (count_windows reads))%Z.
Proof.
  revert d. induction reads as [|read r IH]; intros d H; cbn [fold_left]; cbv zeta.
  - split; [exact H | unfold count_windows; simpl; lia].
  - destruct (@count_kmers_totals (cut_kmer read 3%Z) d) as [H1 E1];
      [intros k; apply cut_kmer_3_lengths | exact H |].
    destruct (IH _ H1) as [H2 E2]. split; [exact H2 |].
    rewrite E2, E1, cut_kmer_3, length_map, length_seq.
    unfold count_windows. simpl. lia.
Qed.

(** X6. When the file is read to its end, the counts of the dictionary of
    [build_kmer_dict] add up to the number of windows of 3 characters of
    the reads (a read shorter than 3 has none), every key has 3 characters
    and every count is at least 1. *)
Theorem build_kmer_dict_totals (fastq_file : list string) (kmer_size : Z)
        (reads : list string) :
  read_fastq fastq_file = Ok reads ->
  exists d,
    build_kmer_dict fastq_file kmer_size = Ok d
    /\ sum_counts d = Z.of_nat (count_windows reads)
    /\ forall kmer count,
         In (kmer, count) d -> String.length kmer = 3 /\ (1 <= count)%Z.
Proof.
  intros H. unfold build_kmer_dict. rewrite H. simpl bind.
  eexists. split; [reflexivity |].
  assert (H0 : three_mers (@nil (string * Z))) by (intros k c []).
  destruct (count_reads_totals reads H0) as [H1 E].
  split; [rewrite E; unfold sum_counts; simpl; lia | exact H1].
Qed.

Lemma build_kmer_dict_totals_witness :
  read_fastq one_read = Ok ["ACGTA"]
  /\ exists d,
       build_kmer_dict one_read 22%Z = Ok d
       /\ sum_counts d = 3%Z
       /\ forall kmer count,
            In (kmer, count) d -> String.length kmer = 3 /\ (1 <= count)%Z.
Proof.
  split; [reflexivity |].
  exact (@build_kmer_dict_totals one_read 22%Z ["ACGTA"] eq_refl).
Defined.

(** ** The nodes, the edges and the weights of the graph *)

Lemma add_node_nodes (g : DiGraph) (m n : node) :
  In n (nodes (add_node g m)) <-> In n (nodes g) \/ n = m.
Proof.
  unfold add_node. destruct (has_node g m) eqn:E; simpl.
  - apply has_node_In in E. split; [auto | intros [H | ->]; assumption].
  - rewrite in_app_iff. simpl. intuition.
Qed.

Lemma with_nodes_nodes (g : DiGraph) (p q n : node) :
  In n (nodes (with_nodes g p q)) <-> In n (nodes g) \/ n = p \/ n = q.
Proof.
  unfold with_nodes.
  set (g1 := if negb (has_node g p) then add_node g p else g).
  assert (H1 : In n (nodes g1) <-> In n (nodes g) \/ n = p).
  { unfold g1. destruct (has_node g p) eqn:E; simpl; [| apply add_node_nodes].
    apply has_node_In in E. split; [auto | intros [H | ->]; assumption]. }
  destruct (has_node g1 q) eqn:E; simpl.
  - apply has_node_In in E. split.
    + intros H. apply H1 in H. tauto.
    + intros [H | [H | ->]]; [apply H1; auto | apply H1; auto | assumption].
  - rewrite add_node_nodes, H1. tauto.
Qed.

Lemma is_edge_of_pair (u v p q : node) (e : edge) :
  is_edge p q e = true -> is_edge u v e = String.eqb p u && String.eqb q v.
Proof.
  unfold is_edge. rewrite andb_true_iff, !String.eqb_eq. now intros [-> ->].
Qed.

Lemma is_edge_other_pair (u v p q : node) (e : edge) :
  is_edge p q e = false -> is_edge u v e = true ->
  String.eqb p u && String.eqb q v = false.
Proof.
  unfold is_edge. rewrite andb_true_iff, !String.eqb_eq. intros H [<- <-].
  now rewrite (String.eqb_sym p), (String.eqb_sym q).
Qed.

Lemma edge_weight_bump (l : list edge) (u v p q : node) (c : Z) :
  sum_weights
    (filter (is_edge u v)
            (map (fun e => if is_edge p q e
                           then mkEdge (src e) (dst e) (weight e + c) else e) l))
  = (sum_weights (filter (is_edge u v) l)
     + if String.eqb p u && String.eqb q v
       then c * Z.of_nat (List.length (filter (is_edge p q) l))
       else 0)%Z.
Proof.
  induction l as [|e r IH]; simpl.
  - destruct (_ && _); unfold sum_weights; simpl; lia.
  - destruct (is_edge p q e) eqn:E.
    + change (is_edge u v (mkEdge (src e) (dst e) (weight e + c)))
        with (is_edge u v e).
      rewrite (is_edge_of_pair u v p q e E).
      destruct (String.eqb p u && String.eqb q v) eqn:B.
      * unfold sum_weights in *. simpl. rewrite IH. simpl List.length. lia.
      * exact IH.
    + destruct (is_edge u v e) eqn:F.
      * rewrite (is_edge_other_pair u v p q e E F) in *.
        unfold sum_weights in *. simpl. rewrite IH. lia.
      * exact IH.
Qed.

(** One step of [build_graph]: what it adds to the nodes, to the pairs of
    nodes joined by an edge, and to the weight between two nodes. *)
Lemma build_graph_step_adds (g : DiGraph) (kmer : string) (count : Z) :
  well_formed g -> simple_edges g ->
  let g' := build_graph_step g (kmer, count) in
  (forall n, In n (nodes g')
             <-> In n (nodes g) \/ n = prefix_of kmer \/ n = suffix_of kmer)
  /\ (forall u v, has_edge g' u v = true
                  <-> has_edge g u v = true
                      \/ (u = prefix_of kmer /\ v = suffix_of kmer))
  /\ (forall u v, edge_weight g' u v
                  = (edge_weight g u v
                     + if String.eqb (prefix_of kmer) u && String.eqb (suffix_of kmer) v
                       then count else 0)%Z).
Proof.
  intros W S. unfold build_graph_step.
  fold (prefix_of kmer). fold (suffix_of kmer).
  set (p := prefix_of kmer). set (q := suffix_of kmer).
  fold (with_nodes g p q).
  destruct (with_nodes_spec p q W) as [W2 [E2 [Pp Pq]]].
  pose proof (with_nodes_nodes g p q) as N2.
  set (g2 := with_nodes g p q) in *.
  assert (H2 : forall u v, has_edge g2 u v = has_edge g u v)
    by (intros; unfold has_edge; now rewrite E2).
  destruct (has_edge g2 p q) eqn:H; cbv zeta.
  - split; [exact N2 |]. split.
    + intros u v. rewrite !has_edge_endpoints. unfold add_to_weight. simpl.
      rewrite bump_endpoints, E2. split; [auto |].
      intros [Hin | [-> ->]]; [exact Hin |].
      rewrite H2 in H. now apply has_edge_endpoints.
    + intros u v. unfold edge_weight, add_to_weight. simpl.
      rewrite edge_weight_bump, E2.
      destruct (String.eqb p u && String.eqb q v); [| reflexivity].
      assert (L1 := @matching_edges_le_1 (edges g) p q S).
      assert (L2 : 1 <= List.length (filter (is_edge p q) (edges g))).
      { rewrite H2 in H. unfold has_edge in H. apply existsb_exists in H.
        destruct H as [e [He E]].
        assert (In e (filter (is_edge p q) (edges g))) by (apply filter_In; now split).
        destruct (filter (is_edge p q) (edges g)); [contradiction | simpl; lia]. }
      replace (List.length (filter (is_edge p q) (edges g))) with 1 by lia. lia.
  - unfold add_edge.
    rewrite (add_node_present g2 p Pp), (add_node_present g2 q Pq), H.
    split; [exact N2 |]. split.
    + intros u v. unfold has_edge. simpl.
      rewrite existsb_app, orb_true_iff, E2. simpl.
      rewrite orb_false_r. unfold is_edge at 2. simpl.
      rewrite andb_true_iff, !String.eqb_eq. intuition.
    + intros u v. unfold edge_weight. simpl.
      rewrite filter_app, sum_weights_app, E2. simpl.
      unfold is_edge at 2. simpl.
      destruct (String.eqb p u && String.eqb q v); unfold sum_weights; simpl; lia.
Qed.

Lemma build_graph_fold_adds (kmer_dict : dict Z) (g : DiGraph) :
  well_formed g -> simple_edges g ->
  let g' := fold_left build_graph_step kmer_dict g in
  (forall n, In n (nodes g')
             <-> In n (nodes g)
                 \/ exists kmer count,
                      In (kmer, count) kmer_dict
                      /\ (n = prefix_of kmer \/ n = suffix_of kmer))
  /\ (forall u v, has_edge g' u v = true
                  <-> has_edge g u v = true
                      \/ exists kmer count,
                           In (kmer, count) kmer_dict
                           /\ u = prefix_of kmer /\ v = suffix_of kmer)
  /\ (forall u v, edge_weight g' u v
                  = (edge_weight g u v + pair_count kmer_dict u v)%Z).
Proof.
  revert g. induction kmer_dict as [|[kmer count] r IH]; intros g W S;
    cbn [fold_left]; cbv zeta.
  - split; [| split].
    + intros n. split; [auto | intros [H | [k [c [[] _]]]]; exact H].
    + intros u v. split; [auto | intros [H | [k [c [[] _]]]]; exact H].
    + intros u v. unfold pair_count. simpl. lia.
  - destruct (@build_graph_step_spec g kmer count W S) as [W1 [S1 _]].
    destruct (@build_graph_step_adds g kmer count W S) as [N1 [E1 G1]].
    destruct (IH _ W1 S1) as [N2 [E2 G2]].
    split; [| split].
    + intros n. rewrite N2, N1. split.
      * intros [[H | H] | [k [c [Hin H]]]]; [now left | |].
        -- right. exists kmer, count. split; [now left | exact H].
        -- right. exists k, c. split; [now right | exact H].
      * intros [H | [k [c [[Hin | Hin] H]]]]; [now left; left | |].
        -- inversion Hin; subst. left. now right.
        -- right. now exists k, c.
    + intros u v. rewrite E2, E1. split.
      * intros [[H | H] | [k [c [Hin H]]]]; [now left | |].
        -- right. exists kmer, count. split; [now left | exact H].
        -- right. exists k, c. split; [now right | exact H].
      * intros [H | [k [c [[Hin | Hin] H]]]]; [now left; left | |].
        -- inversion Hin; subst. left. now right.
        -- right. now exists k, c.
    + intros u v. rewrite G2, G1. unfold pair_count. simpl.
      destruct (String.eqb (prefix_of kmer) u && String.eqb (suffix_of kmer) v);
        simpl; lia.
Qed.

Lemma edge_weight_single (g : DiGraph) (e : edge) :
  simple_edges g -> In e (edges g) -> edge_weight g (src e) (dst e) = weight e.
Proof.
  unfold simple_edges, edge_weight. induction (edges g) as [|x r IH]; intros S H.
  - destruct H.
  - inversion S as [|? ? Hn Hr]; subst. simpl. destruct H as [-> | H].
    + assert (E : is_edge (src e) (dst e) e = true)
        by (unfold is_edge; now rewrite !String.eqb_refl).
      rewrite E.
      assert (F : filter (is_edge (src e) (dst e)) r = []).
      { destruct (filter (is_edge (src e) (dst e)) r) as [|y t] eqn:Q; [reflexivity |].
        exfalso. apply Hn.
        assert (Hy : In y (filter (is_edge (src e) (dst e)) r)) by (rewrite Q; now left).
        apply filter_In in Hy. destruct Hy as [Hy Ey].
        apply is_edge_endpoints in Ey. unfold endpoints at 1. rewrite <- Ey.
        now apply in_map. }
      rewrite F. unfold sum_weights. simpl. lia.
    + destruct (is_edge (src e) (dst e) x) eqn:E.
      * exfalso. apply Hn. apply is_edge_endpoints in E. rewrite E.
        change (src e, dst e) with (endpoints e). now apply in_map.
      * now apply IH.
Qed.

Lemma build_graph_contents (kmer_dict : dict Z) :
  (forall n, In n (nodes (build_graph kmer_dict))
             <-> exists kmer count,
                   In (kmer, count) kmer_dict
                   /\ (n = prefix_of kmer \/ n = suffix_of kmer))
  /\ (forall u v, has_edge (build_graph kmer_dict) u v = true
                  <-> exists kmer count,
                        In (kmer, count) kmer_dict
                        /\ u = prefix_of kmer /\ v = suffix_of kmer)
  /\ (forall e, In e (edges (build_graph kmer_dict)) ->
                weight e = pair_count kmer_dict (src e) (dst e)).
Proof.
  destruct empty_graph_invariant as [W [S _]].
  destruct (@build_graph_fold_adds kmer_dict empty_graph W S) as [N [E G]].
  destruct (@build_graph_fold kmer_dict empty_graph W S) as [_ [S' _]].
  fold (build_graph kmer_dict) in N, E, G, S'.
  split; [| split].
  - intros n. rewrite N. simpl. tauto.
  - intros u v. rewrite E. unfold has_edge at 1. simpl. split.
    + intros [H | H]; [discriminate | exact H].
    + auto.
  - intros e He. rewrite <- (@edge_weight_single _ e S' He), G.
    unfold edge_weight. simpl. unfold sum_weights. simpl. lia.
Qed.

(** X7. The graph of [build_graph] holds what the k-mers give and nothing
    else: its nodes are the slices [kmer[:-1]] and [kmer[1:]] of the k-mers
    of the dictionary, its edges join [kmer[:-1]] to [kmer[1:]], and the
    weight of an edge is the total count of the k-mers that go from its
    source to its target. *)
Theorem build_graph_from_kmers (kmer_dict : dict Z) :
  (forall n, In n (nodes (build_graph kmer_dict))
             <-> exists kmer count,
                   In (kmer, count) kmer_dict
                   /\ (n = prefix_of kmer \/ n = suffix_of kmer))
  /\ (forall u v, has_edge (build_graph kmer_dict) u v = true
                  <-> exists kmer count,
                        In (kmer, count) kmer_dict
                        /\ u = prefix_of kmer /\ v = suffix_of kmer)
  /\ (forall e, In e (edges (build_graph kmer_dict)) ->
                weight e = pair_count kmer_dict (src e) (dst e)).
Proof.
  exact (build_graph_contents kmer_dict).
Qed.

(** ** One edge for each k-mer *)

Lemma substring_all (s : string) : substring 0 (String.length s) s = s.
Proof.
  induction s as [|c r IH]; simpl; [reflexivity | now rewrite IH].
Qed.

Lemma suffix_of_cons (c : ascii) (r : string) : suffix_of (String c r) = r.
Proof.
  unfold suffix_of. rewrite str_slice_tail. simpl.
  rewrite Nat.sub_0_r. apply substring_all.
Qed.

Lemma prefix_of_cons (c d : ascii) (r : string) :
  prefix_of (String c (String d r))
  = String c (substring 0 (String.length r) (String d r)).
Proof.
  unfold prefix_of. rewrite str_slice_init. reflexivity.
Qed.

(** A k-mer of at least two characters is known from its two nodes. *)
Lemma kmer_of_nodes (k1 k2 : string) :
  2 <= String.length k1 -> 2 <= String.length k2 ->
  prefix_of k1 = prefix_of k2 -> suffix_of k1 = suffix_of k2 -> k1 = k2.
Proof.
  destruct k1 as [|a1 [|b1 r1]]; simpl; try lia.
  destruct k2 as [|a2 [|b2 r2]]; simpl; try lia.
  intros _ _. rewrite !prefix_of_cons, !suffix_of_cons.
  intros P Q. inversion P. now rewrite Q.
Qed.

Lemma pair_count_absent (d : dict Z) (kmer : string) :
  (forall k c, In (k, c) d -> 2 <= String.length k) ->
  2 <= String.length kmer -> ~ In kmer (map fst d) ->
  pair_count d (prefix_of kmer) (suffix_of kmer) = 0%Z.
Proof.
  intros L Lk. unfold pair_count. induction d as [|[k c] r IH]; intros A;
    [reflexivity |].
  simpl.
  destruct (String.eqb (prefix_of k) (prefix_of kmer)
            && String.eqb (suffix_of k) (suffix_of kmer)) eqn:E.
  - exfalso. apply A. left. simpl.
    apply andb_true_iff in E. destruct E as [E1 E2].
    apply String.eqb_eq in E1, E2.
    apply kmer_of_nodes; [apply (L k c); now left | exact Lk | exact E1 | exact E2].
  - apply IH; [intros k' c' H; apply (L k' c'); now right |].
    intros H. apply A. now right.
Qed.

Lemma pair_count_distinct (d : dict Z) (kmer : string) (count : Z) :
  NoDup (map fst d) ->
  (forall k c, In (k, c) d -> 2 <= String.length k) ->
  In (kmer, count) d ->
  pair_count d (prefix_of kmer) (suffix_of kmer) = count.
Proof.
  induction d as [|[k c] r IH]; intros Hnd L H; [destruct H |].
  inversion Hnd as [|? ? Hn Hr]; subst.
  assert (Lr : forall k' c', In (k', c') r -> 2 <= String.length k')
    by (intros k' c' H'; apply (L k' c'); now right).
  destruct H as [H | H].
  - inversion H; subst.
    assert (Z0 := @pair_count_absent r kmer Lr (L kmer count (or_introl eq_refl)) Hn).
    unfold pair_count in *. simpl. rewrite !String.eqb_refl. simpl.
    rewrite Z0. lia.
  - specialize (IH Hr Lr H). unfold pair_count in *. simpl.
    destruct (String.eqb (prefix_of k) (prefix_of kmer)
              && String.eqb (suffix_of k) (suffix_of kmer)) eqn:E; [| exact IH].
    exfalso. apply Hn.
    apply andb_true_iff in E. destruct E as [E1 E2].
    apply String.eqb_eq in E1, E2.
    assert (k = kmer)
      by (apply kmer_of_nodes;
          [apply (L k c); now left | apply (L kmer count); now right | exact E1 | exact E2]).
    subst k. change kmer with (fst (kmer, count)). now apply in_map.
Qed.

Lemma build_graph_edges_of_kmers (kmer_dict : dict Z) :
  NoDup (map fst kmer_dict) ->
  (forall kmer count, In (kmer, count) kmer_dict -> 2 <= String.length kmer) ->
  forall e,
    In e (edges (build_graph kmer_dict))
    <-> exists kmer count,
          In (kmer, count) kmer_dict
          /\ e = mkEdge (prefix_of kmer) (suffix_of kmer) count.
Proof.
  intros Hnd L e.
  destruct (build_graph_contents kmer_dict) as [_ [E G]]. split.
  - intros He.
    assert (H : has_edge (build_graph kmer_dict) (src e) (dst e) = true).
    { apply has_edge_endpoints. change (src e, dst e) with (endpoints e).
      now apply in_map. }
    apply E in H. destruct H as [kmer [count [Hin [Hs Hd]]]].
    exists kmer, count. split; [exact Hin |].
    specialize (G e He). rewrite Hs, Hd in G.
    rewrite (@pair_count_distinct kmer_dict kmer count Hnd L Hin) in G.
    destruct e as [s t w]. simpl in *. now subst.
  - intros [kmer [count [Hin ->]]].
    assert (H : has_edge (build_graph kmer_dict) (prefix_of kmer) (suffix_of kmer) = true)
      by (apply E; now exists kmer, count).
    unfold has_edge in H. apply existsb_exists in H. destruct H as [e [He Ee]].
    unfold is_edge in Ee. apply andb_true_iff in Ee. destruct Ee as [E1 E2].
    apply String.eqb_eq in E1, E2.
    specialize (G e He). rewrite E1, E2 in G.
    rewrite (@pair_count_distinct kmer_dict kmer count Hnd L Hin) in G.
    destruct e as [s t w]. simpl in *. now subst.
Qed.

(** X8. When the keys of the dictionary are distinct k-mers of at least two
    characters, the edges of the graph of [build_graph] are exactly one edge
    for each k-mer, from [kmer[:-1]] to [kmer[1:]], whose weight is the count
    of the k-mer. *)
Theorem build_graph_one_edge_per_kmer (kmer_dict : dict Z) :
  NoDup (map fst kmer_dict) ->
  (forall kmer count, In (kmer, count) kmer_dict -> 2 <= String.length kmer) ->
  forall e,
    In e (edges (build_graph kmer_dict))
    <-> exists kmer count,
          In (kmer, count) kmer_dict
          /\ e = mkEdge (prefix_of kmer) (suffix_of kmer) count.
Proof.
  exact (@build_graph_edges_of_kmers kmer_dict).
Qed.

Lemma build_graph_one_edge_per_kmer_witness :
  In (mkEdge "AC" "CG" 1%Z) (edges g_bubble)
  <-> exists kmer count,
        In (kmer, count) [("ACC", 10%Z); ("CCG", 10%Z); ("ACG", 1%Z)]
        /\ mkEdge "AC" "CG" 1%Z = mkEdge (prefix_of kmer) (suffix_of kmer) count.
Proof.
  apply (@build_graph_one_edge_per_kmer
           [("ACC", 10%Z); ("CCG", 10%Z); ("ACG", 1%Z)]).
  - repeat constructor; simpl; intuition discriminate.
  - intros kmer count [H | [H | [H | []]]]; inversion H; simpl; lia.
Defined.

(** ** From the reads to the graph *)

Lemma dict_get_present (V : Type) (d : dict V) (k : string) (v : V) :
  In (k, v) d -> dict_get d k <> None.
Proof.
  induction d as [|[k' v'] r IH]; simpl; [tauto |].
  intros [H | H].
  - inversion H; subst. rewrite String.eqb_refl. discriminate.
  - destruct (String.eqb k' k); [discriminate | now apply IH].
Qed.

Lemma dict_In_get (V : Type) (d : dict V) (k : string) (v : V) :
  NoDup (map fst d) -> In (k, v) d -> dict_get d k = Some v.
Proof.
  induction d as [|[k' v'] r IH]; simpl; intros Hnd H; [destruct H |].
  inversion Hnd as [|? ? Hn Hr]; subst. destruct H as [H | H].
  - inversion H; subst. now rewrite String.eqb_refl.
  - destruct (String.eqb k' k) eqn:E; [| now apply IH].
    apply String.eqb_eq in E. subst k'. exfalso. apply Hn.
    change k with (fst (k, v)). now apply in_map.
Qed.

(** The dictionary of the reads: distinct keys of three characters, each
    with the number of its occurrences in the reads. *)
Lemma count_reads_dict (reads : list string) :
  let d := fold_left
             (fun kmer_dict read => fold_left count_kmer (cut_kmer read 3%Z) kmer_dict)
             reads [] in
  NoDup (map fst d)
  /\ three_mers d
  /\ forall kmer count,
       In (kmer, count) d
       <-> 0 < occurrences kmer reads /\ count = Z.of_nat (occurrences kmer reads).
Proof.
  cbv zeta.
  assert (H0 : counting (@nil (string * Z)))
    by (split; [constructor | intros k n; discriminate]).
  assert (T0 : three_mers (@nil (string * Z))) by (intros k c []).
  destruct (count_reads_spec reads H0) as [[Hnd Hpos] E].
  destruct (count_reads_totals reads T0) as [T _].
  cbv zeta in Hnd, Hpos, E, T.
  set (d := fold_left
              (fun kmer_dict read => fold_left count_kmer (cut_kmer read 3%Z) kmer_dict)
              reads []) in *.
  split; [exact Hnd |]. split; [exact T |].
  intros kmer count. specialize (E kmer). unfold count_of in E. simpl in E.
  split.
  - intros Hin. pose proof (@dict_In_get _ d kmer count Hnd Hin) as G.
    rewrite G in E. specialize (Hpos kmer count G). lia.
  - intros [Hocc ->]. apply dict_get_In.
    destruct (dict_get d kmer) as [n|]; [f_equal; lia | lia].
Qed.

Lemma graph_of_reads_edges (fastq_file reads : list string) (kmer_size : Z)
      (kmer_dict : dict Z) :
  read_fastq fastq_file = Ok reads ->
  build_kmer_dict fastq_file kmer_size = Ok kmer_dict ->
  forall e,
    In e (edges (build_graph kmer_dict))
    <-> exists kmer,
          0 < occurrences kmer reads
          /\ e = mkEdge (prefix_of kmer) (suffix_of kmer)
                        (Z.of_nat (occurrences kmer reads)).
Proof.
  intros Hr Hd e. unfold build_kmer_dict in Hd. rewrite Hr in Hd. simpl in Hd.
  injection Hd as Ed.
  destruct (count_reads_dict reads) as [Hnd [T C]]. cbv zeta in Hnd, T, C.
  rewrite Ed in Hnd, T, C.
  assert (L : forall kmer count, In (kmer, count) kmer_dict -> 2 <= String.length kmer).
  { intros kmer count H. destruct (T kmer count H) as [L _]. lia. }
  pose proof (@build_graph_edges_of_kmers kmer_dict Hnd L e) as B.
  etransitivity; [exact B |]. split.
  - intros [kmer [count [Hin ->]]]. apply C in Hin. destruct Hin as [Hocc ->].
    now exists kmer.
  - intros [kmer [Hocc ->]]. exists kmer, (Z.of_nat (occurrences kmer reads)).
    split; [| reflexivity]. now apply C.
Qed.

(** X9. The graph built from the dictionary of a file has exactly one edge
    for each string of three characters that occurs in the reads: it goes
    from the first two characters to the last two, and its weight is the
    number of occurrences of the string in the reads. *)
Theorem graph_of_reads (fastq_file reads : list string) (kmer_size : Z)
        (kmer_dict : dict Z) :
  read_fastq fastq_file = Ok reads ->
  build_kmer_dict fastq_file kmer_size = Ok kmer_dict ->
  forall e,
    In e (edges (build_graph kmer_dict))
    <-> exists kmer,
          0 < occurrences kmer reads
          /\ e = mkEdge (prefix_of kmer) (suffix_of kmer)
                        (Z.of_nat (occurrences kmer reads)).
Proof.
  exact (@graph_of_reads_edges fastq_file reads kmer_size kmer_dict).
Qed.

Lemma graph_of_reads_witness :
  read_fastq one_read = Ok ["ACGTA"]
  /\ build_kmer_dict one_read 200%Z
     = Ok [("ACG", 1%Z); ("CGT", 1%Z); ("GTA", 1%Z)]
  /\ (In (mkEdge "CG" "GT" 1%Z)
         (edges (build_graph [("ACG", 1%Z); ("CGT", 1%Z); ("GTA", 1%Z)]))
      <-> exists kmer,
            0 < occurrences kmer ["ACGTA"]
            /\ mkEdge "CG" "GT" 1%Z
               = mkEdge (prefix_of kmer) (suffix_of kmer)
                        (Z.of_nat (occurrences kmer ["ACGTA"]))).
Proof.
  split; [reflexivity |]. split; [reflexivity |].
  apply (@graph_of_reads one_read ["ACGTA"] 200%Z); reflexivity.
Defined.

(** ** Contigs of a graph without an empty node *)

Lemma mapM_total (A B : Type) (f : A -> result B) (l : list A) :
  (forall x, In x l -> exists y, f x = Ok y) -> exists ys, mapM f l = Ok ys.
Proof.
  induction l as [|x r IH]; intros H; simpl.
  - now exists [].
  - destruct (H x (or_introl eq_refl)) as [y ->].
    destruct IH as [ys ->]; [intros z Hz; apply H; now right |].
    simpl. now exists (y :: ys).
Qed.

Lemma join_contig_total (path : list node) (acc : string) :
  Forall (fun n => n <> "") path -> exists seq, join_contig acc path = Ok seq.
Proof.
  revert acc. induction path as [|n r IH]; intros acc H; simpl.
  - now exists acc.
  - inversion H as [|? ? Hn Hr]; subst.
    destruct (String.length acc =? 0); [now apply IH |].
    destruct n as [|c s]; [congruence |]. simpl. now apply IH.
Qed.

Lemma simple_path_nodes (g : DiGraph) (source target : node) (path : list node) :
  well_formed g -> In target (nodes g) ->
  simple_path g source target path -> incl path (nodes g).
Proof.
  intros W Ht [_ [Hc [Hh Hl]]].
  destruct path as [|a r]; [intros x [] |].
  apply (@chain_nodes g W r a Hc).
  rewrite (@last_default (a :: r) a source) by discriminate. now rewrite Hl.
Qed.

(** What [get_contigs] does for one pair that it returns. *)
Lemma get_contigs_In (graph : DiGraph) (starting_nodes ending_nodes : list node)
      (contigs : list (string * Z)) (sequence : string) (len : Z) :
  get_contigs graph starting_nodes ending_nodes = Ok contigs ->
  In (sequence, len) contigs ->
  exists path node_start node_target,
    In node_start starting_nodes /\ In node_target ending_nodes
    /\ simple_path graph node_start node_target path
    /\ join_contig "" path = Ok sequence
    /\ len = Z.of_nat (String.length sequence).
Proof.
  intros H Hin. unfold get_contigs in H.
  apply bind_Ok in H. destruct H as [per_start [Hs H]]. inversion H; subst; clear H.
  apply in_concat in Hin. destruct Hin as [l [Hl Hin]].
  destruct (@mapM_In _ _ _ _ _ Hs l Hl) as [node_start [Hstart Hf]].
  apply bind_Ok in Hf. destruct Hf as [per_target [Ht H]]. inversion H; subst; clear H.
  apply in_concat in Hin. destruct Hin as [l' [Hl' Hin]].
  destruct (@mapM_In _ _ _ _ _ Ht l' Hl') as [node_target [Htarget Hg]].
  apply bind_Ok in Hg. destruct Hg as [connected [Hc Hg]].
  destruct connected; [| inversion Hg; subst; destruct Hin].
  apply bind_Ok in Hg. destruct Hg as [all_contigs [Ha Hm]].
  destruct (@mapM_In _ _ _ _ _ Hm _ Hin) as [path [Hpath Hj]].
  apply bind_Ok in Hj. destruct Hj as [cs [Hj E]]. inversion E; subst; clear E.
  assert (Hnode : In node_target (nodes graph)).
  { unfold has_path in Hc.
    destruct (has_node graph node_start && has_node graph node_target) eqn:B;
      [| discriminate].
    apply andb_true_iff in B. now apply has_node_In. }
  exists path, node_start, node_target.
  split; [exact Hstart |]. split; [exact Htarget |].
  split; [exact (@all_simple_paths_sound _ _ _ _ Hnode Ha path Hpath) |].
  split; [exact Hj | reflexivity].
Qed.

Lemma get_contigs_returns (graph : DiGraph) (starting_nodes ending_nodes : list node) :
  well_formed graph ->
  (forall n, In n (nodes graph) -> n <> "") ->
  incl starting_nodes (nodes graph) -> incl ending_nodes (nodes graph) ->
  exists contigs, get_contigs graph starting_nodes ending_nodes = Ok contigs.
Proof.
  intros W Hne Hs He. unfold get_contigs.
  destruct (@mapM_total _ _
              (fun node_start =>
                 per_target <-
                   mapM (fun node_target =>
                           connected <- has_path graph node_start node_target ;;
                           if connected : bool then
                             all_contigs <- all_simple_paths graph node_start node_target ;;
                             mapM (fun contig =>
                                     contig_sequence <- join_contig "" contig ;;
                                     Ok (contig_sequence,
                                         Z.of_nat (String.length contig_sequence)))
                                  all_contigs
                           else Ok [])
                        ending_nodes ;;
                 Ok (List.concat per_target))
              starting_nodes) as [per_start E].
  - intros node_start Hstart. apply Hs in Hstart.
    assert (Ns : has_node graph node_start = true) by now apply has_node_In.
    destruct (@mapM_total _ _
                (fun node_target =>
                   connected <- has_path graph node_start node_target ;;
                   if connected : bool then
                     all_contigs <- all_simple_paths graph node_start node_target ;;
                     mapM (fun contig =>
                             contig_sequence <- join_contig "" contig ;;
                             Ok (contig_sequence,
                                 Z.of_nat (String.length contig_sequence)))
                          all_contigs
                   else Ok [])
                ending_nodes) as [per_target E].
    + intros node_target Htarget. apply He in Htarget.
      assert (Nt : has_node graph node_target = true) by now apply has_node_In.
      unfold has_path. rewrite Ns, Nt. simpl.
      destruct (mem node_target (descendants_or_self graph node_start));
        [| now exists []].
      destruct (all_simple_paths graph node_start node_target) as [paths|e] eqn:A.
      * simpl. apply mapM_total. intros path Hpath.
        pose proof (@all_simple_paths_sound _ _ _ _ Htarget A path Hpath) as Hsp.
        pose proof (simple_path_nodes W Htarget Hsp) as Hi.
        destruct (@join_contig_total path "") as [seq ->].
        { apply Forall_forall. intros n Hn. apply Hne. now apply Hi. }
        simpl. eauto.
      * unfold all_simple_paths in A. rewrite Ns in A. discriminate.
    + rewrite E. simpl. eauto.
  - rewrite E. simpl. eauto.
Qed.

(** X10. On a graph whose edges join nodes of the graph and that has no
    empty node, [get_contigs] raises no exception, whatever nodes of the
    graph it is given as starting and ending nodes. *)
Theorem get_contigs_never_raises (graph : DiGraph)
        (starting_nodes ending_nodes : list node) :
  well_formed graph ->
  (forall n, In n (nodes graph) -> n <> "") ->
  incl starting_nodes (nodes graph) -> incl ending_nodes (nodes graph) ->
  exists contigs, get_contigs graph starting_nodes ending_nodes = Ok contigs.
Proof.
  exact (@get_contigs_returns graph starting_nodes ending_nodes).
Qed.

Lemma get_contigs_never_raises_witness :
  exists contigs, get_contigs g_diamond ["AC"] ["TA"] = Ok contigs.
Proof.
  apply (@get_contigs_never_raises g_diamond ["AC"] ["TA"]).
  - apply build_graph_invariant.
    intros kmer count H. simpl in H.
    repeat (destruct H as [H | H]; [inversion H; lia |]). destruct H.
  - intros n H. vm_compute in H.
    repeat (destruct H as [<- | H]; [discriminate |]). destruct H.
  - intros n [<- | []]. vm_compute. tauto.
  - intros n [<- | []]. vm_compute. tauto.
Defined.

(** ** The contigs of a file *)

Lemma three_mer_nodes (kmer : string) :
  String.length kmer = 3 ->
  exists a b c,
    kmer = String a (String b (String c ""))
    /\ prefix_of kmer = String a (String b "")
    /\ suffix_of kmer = String b (String c "").
Proof.
  destruct kmer as [|a [|b [|c [|d r]]]]; simpl; try discriminate. intros _.
  exists a, b, c. split; [reflexivity |]. rewrite prefix_of_cons, suffix_of_cons.
  split; reflexivity.
Qed.

(** The nodes and the paths of a graph made from strings of three characters
    that have the property [Q]. *)
Lemma three_mer_graph (Q : string -> Prop) (kmer_dict : dict Z) :
  (forall kmer count, In (kmer, count) kmer_dict -> String.length kmer = 3 /\ Q kmer) ->
  (forall n, In n (nodes (build_graph kmer_dict)) -> String.length n = 2)
  /\ (forall path, chain (build_graph kmer_dict) path -> overlapping Q path).
Proof.
  intros H. destruct (build_graph_contents kmer_dict) as [N [E _]]. split.
  - intros n Hn. apply N in Hn. destruct Hn as [kmer [count [Hin Hn]]].
    destruct (H kmer count Hin) as [L _].
    destruct (three_mer_nodes kmer L) as [a [b [c [_ [P S]]]]].
    destruct Hn as [-> | ->]; [now rewrite P | now rewrite S].
  - induction path as [|u r IH]; [exact (fun _ => I) |].
    destruct r as [|v r']; [exact (fun _ => I) |].
    intros [He Hc]. split; [| now apply IH].
    apply E in He. destruct He as [kmer [count [Hin [-> ->]]]].
    destruct (H kmer count Hin) as [L HQ]. now exists kmer.
Qed.

Lemma join_contig_spelling (path : list node) (first : node) (sequence : string) :
  first <> "" -> join_contig "" (first :: path) = Ok sequence ->
  sequence = contig_of (first :: path)
  /\ String.length sequence = String.length first + List.length path.
Proof.
  intros Hne H. simpl in H.
  destruct (@join_contig_nonempty path first sequence Hne H) as [E [L _]].
  split; [exact E | exact L].
Qed.

(** Every window of three characters of the sequence of an overlapping path
    has the property [Q]. *)
Lemma contig_windows (Q : string -> Prop) (path : list node) :
  overlapping Q path ->
  (forall n, In n path -> String.length n = 2) ->
  forall i, i + 3 <= String.length (contig_of path) ->
            Q (substring i 3 (contig_of path)).
Proof.
  induction path as [|u r IH]; intros Ho Hl i Hi; [simpl in Hi; lia |].
  destruct r as [|v r'].
  - simpl in Hi. rewrite length_append in Hi. simpl in Hi.
    rewrite (Hl u (or_introl eq_refl)) in Hi. lia.
  - destruct Ho as [[kmer [L [P [S HQ]]]] Ho].
    destruct (three_mer_nodes kmer L) as [a [b [c [Ek [P' S']]]]].
    rewrite P in P'. rewrite S in S'.
    assert (E : contig_of (u :: v :: r') = String a (contig_of (v :: r'))).
    { rewrite P', S'. reflexivity. }
    rewrite E in *. destruct i as [|i].
    + replace (substring 0 3 (String a (contig_of (v :: r')))) with kmer;
        [exact HQ |].
      rewrite S', Ek. simpl. destruct (fold_right _ _ r'); reflexivity.
    + change (Q (substring i 3 (contig_of (v :: r')))).
      change (Datatypes.S (i + 3)
              <= Datatypes.S (String.length (contig_of (v :: r')))) in Hi.
      apply IH; [exact Ho | intros n Hn; apply Hl; now right | lia].
Qed.

Lemma main_contigs_spec (fastq_file reads : list string) :
  read_fastq fastq_file = Ok reads ->
  exists contigs,
    main_contigs fastq_file = Ok contigs
    /\ forall sequence len,
         In (sequence, len) contigs ->
         len = Z.of_nat (String.length sequence)
         /\ 2 <= String.length sequence
         /\ forall i, i + 3 <= String.length sequence ->
                      0 < occurrences (substring i 3 sequence) reads.
Proof.
  intros Hr. unfold main_contigs, build_kmer_dict. rewrite Hr. simpl.
  destruct (count_reads_dict reads) as [Hnd [T C]]. cbv zeta in Hnd, T, C.
  set (d := fold_left
              (fun kmer_dict read => fold_left count_kmer (cut_kmer read 3%Z) kmer_dict)
              reads []) in *.
  assert (W : well_formed (build_graph d)).
  { apply build_graph_invariant. intros kmer count H. now apply (T kmer count). }
  destruct (@three_mer_graph (fun kmer => 0 < occurrences kmer reads) d)
    as [N2 Hov].
  { intros kmer count H. split; [now apply (T kmer count) | now apply (C kmer count)]. }
  assert (Hne : forall n, In n (nodes (build_graph d)) -> n <> "").
  { intros n Hn ->. apply N2 in Hn. discriminate. }
  destruct (@get_contigs_returns (build_graph d)
              (get_starting_nodes (build_graph d)) (get_sink_nodes (build_graph d))
              W Hne) as [contigs G].
  { intros n Hn. unfold get_starting_nodes in Hn. now apply filter_In in Hn. }
  { intros n Hn. unfold get_sink_nodes in Hn. now apply filter_In in Hn. }
  exists contigs. split; [exact G |]. intros sequence len Hin.
  destruct (@get_contigs_In _ _ _ _ _ _ G Hin)
    as [path [s [t [Hs [Ht [Hsp [Hj ->]]]]]]].
  split; [reflexivity |].
  assert (Htn : In t (nodes (build_graph d))).
  { unfold get_sink_nodes in Ht. now apply filter_In in Ht. }
  pose proof (@simple_path_nodes _ _ _ _ W Htn Hsp) as Hi.
  destruct Hsp as [_ [Hc [Hh _]]].
  destruct path as [|first rest]; [discriminate |].
  assert (L1 : String.length first = 2) by (apply N2, Hi; now left).
  assert (F : first <> "") by (intros ->; discriminate).
  destruct (@join_contig_spelling rest first _ F Hj) as [-> L].
  split; [lia |].
  apply (@contig_windows (fun kmer => 0 < occurrences kmer reads));
    [now apply Hov | intros n Hn; now apply N2, Hi].
Qed.

(** X11. The program, from the lines of the file to the list of contigs that
    it saves: when the file is made of records of four lines, no exception is
    raised; every contig is given with its length, has at least two
    characters, and each of its windows of three characters occurs in a
    read. *)
Theorem main_contigs_from_reads (fastq_file reads : list string) :
  read_fastq fastq_file = Ok reads ->
  exists contigs,
    main_contigs fastq_file = Ok contigs
    /\ forall sequence len,
         In (sequence, len) contigs ->
         len = Z.of_nat (String.length sequence)
         /\ 2 <= String.length sequence
         /\ forall i, i + 3 <= String.length sequence ->
                      0 < occurrences (substring i 3 sequence) reads.
Proof.
  exact (@main_contigs_spec fastq_file reads).
Qed.

Lemma main_contigs_from_reads_witness :
  read_fastq one_read = Ok ["ACGTA"]
  /\ exists contigs,
       main_contigs one_read = Ok contigs
       /\ forall sequence len,
            In (sequence, len) contigs ->
            len = Z.of_nat (String.length sequence)
            /\ 2 <= String.length sequence
            /\ forall i, i + 3 <= String.length sequence ->
                         0 < occurrences (substring i 3 sequence) ["ACGTA"].
Proof.
  split; [reflexivity |].
  apply (@main_contigs_from_reads one_read ["ACGTA"]). reflexivity.
Defined.

(** ** The graph that the removal of bubbles returns *)

Lemma well_formed_remove_others (g : DiGraph) (kept : list node)
      (path_list : list (list node)) (e s : bool) :
  well_formed g -> well_formed (remove_others g kept path_list e s).
Proof.
  unfold remove_others.
  generalize (filter (fun path => negb (path_eqb path kept)) path_list).
  intros losers. revert g.
  induction losers as [|p r IH]; intros g W; simpl; [exact W |].
  apply IH. now apply is_without_remove_paths.
Qed.

Lemma is_without_acyclic (g' g : DiGraph) (gone : list node) :
  well_formed g -> is_without g' g gone -> acyclic g -> acyclic g'.
Proof.
  intros W [_ E] [rank Hr]. exists rank. intros e He.
  apply Hr. now apply (E W).
Qed.

Lemma solve_bubble_result (R : RandomSource) (g : DiGraph) (a d : node)
      (rs : rng_state R) (g' : DiGraph) (rs' : rng_state R) :
  solve_bubble R g a d rs = Ok (g', rs') ->
  exists paths kept,
    all_simple_paths g a d = Ok paths
    /\ g' = remove_others g kept paths false false.
Proof.
  unfold solve_bubble.
  destruct (all_simple_paths g a d) as [paths|]; simpl; [| discriminate].
  destruct (mapM (path_average_weight g) paths) as [avgs|]; simpl; [| discriminate].
  intros H. apply select_best_path_result in H. destruct H as [kept ->].
  now exists paths, kept.
Qed.

Lemma combinations_short (l : list node) :
  List.length l <= 1 -> combinations l = [].
Proof.
  destruct l as [|x [|y r]]; simpl; [reflexivity | reflexivity | lia].
Qed.

Lemma lowest_common_ancestor_none (set_pick : list node -> nat) (g : DiGraph)
      (u v : node) :
  lowest_common_ancestor set_pick g u v = Ok None -> common_ancestors g u v = [].
Proof.
  unfold lowest_common_ancestor.
  destruct (negb (is_directed_acyclic_graph g)); [discriminate |].
  destruct (List.length (nodes g) =? 0); [discriminate |].
  destruct (negb (has_node g u && has_node g v)); [discriminate |].
  destruct (common_ancestors g u v); [reflexivity | discriminate].
Qed.

Lemma first_ancestor_none (set_pick : list node -> nat) (g : DiGraph)
      (pairs : list (node * node)) :
  first_ancestor set_pick g pairs = Ok None ->
  forall u v, In (u, v) pairs -> common_ancestors g u v = [].
Proof.
  induction pairs as [|[x y] r IH]; intros H u v Hin; [destruct Hin |].
  cbn [first_ancestor fst snd] in H.
  destruct (lowest_common_ancestor set_pick g x y) as [[a|]|] eqn:L;
    simpl in H; try discriminate.
  destruct Hin as [E | Hin].
  - inversion E; subst. now apply lowest_common_ancestor_none in L.
  - now apply IH.
Qed.

Lemma find_bubble_none (set_pick : list node -> nat) (g : DiGraph)
      (list_nodes : list node) :
  find_bubble set_pick g list_nodes = Ok None ->
  forall n u v,
    In n list_nodes -> In (u, v) (combinations (predecessors g n)) ->
    common_ancestors g u v = [].
Proof.
  induction list_nodes as [|m r IH]; intros H n u v Hn Huv; [destruct Hn |].
  cbn [find_bubble] in H.
  destruct (1 <? List.length (predecessors g m)) eqn:B.
  - destruct (first_ancestor set_pick g (combinations (predecessors g m)))
      as [[a|]|] eqn:F; simpl in H; try discriminate.
    destruct Hn as [<- | Hn].
    + exact (first_ancestor_none _ _ _ F u v Huv).
    + exact (IH H n u v Hn Huv).
  - destruct Hn as [<- | Hn].
    + apply Nat.ltb_ge in B. rewrite (combinations_short _ B) in Huv. destruct Huv.
    + exact (IH H n u v Hn Huv).
Qed.

(** On an acyclic graph, a scan that finds nothing means that there is no
    bubble. *)
Lemma find_bubble_none_no_bubble (set_pick : list node -> nat) (g : DiGraph) :
  well_formed g -> acyclic g ->
  find_bubble set_pick g (nodes g) = Ok None -> no_bubble g.
Proof.
  intros W [rank Hr] H n u v Hn Huv [a [Ha _]].
  pose proof (find_bubble_none _ _ _ H n u v Hn Huv) as E.
  destruct (@combinations_In _ _ _ Huv) as [Pu Pv].
  apply predecessors_edge in Pu, Pv.
  apply (@has_edge_nodes g W) in Pu, Pv.
  destruct Pu as [Pu _]. destruct Pv as [Pv _].
  apply (@common_ancestors_correct g rank Hr W u v a Pu Pv) in Ha.
  rewrite E in Ha. destruct Ha.
Qed.

Lemma simplify_bubbles_returns (R : RandomSource) (set_pick : list node -> nat)
      (fuel : nat) (g : DiGraph) (rs : rng_state R)
      (g' : DiGraph) (rs' : rng_state R) :
  well_formed g ->
  simplify_bubbles R set_pick fuel g rs = Some (Ok (g', rs')) ->
  (exists gone, is_without g' g gone)
  /\ well_formed g'
  /\ find_bubble set_pick g' (nodes g') = Ok None.
Proof.
  revert g rs. induction fuel as [|f IH]; intros g rs W H; [discriminate |].
  cbn [simplify_bubbles] in H.
  destruct (find_bubble set_pick g (nodes g)) as [[[a n]|]|] eqn:F;
    [| | discriminate].
  - destruct (solve_bubble R g a n rs) as [[g1 rs1]|] eqn:B; [| discriminate].
    apply solve_bubble_result in B. destruct B as [paths [kept [_ ->]]].
    pose proof (well_formed_remove_others kept paths false false W) as W1.
    destruct (IH _ _ W1 H) as [[gone Hg] [W' F']].
    split; [| split; [exact W' | exact F']].
    exists (removed_nodes kept paths false false ++ gone).
    eapply is_without_trans; [intros _; exact W1 | | exact Hg].
    apply is_without_remove_others.
  - inversion H; subst. split; [| split; [exact W | exact F]].
    exists []. apply is_without_refl.
Qed.

(** X12. When [simplify_bubbles] returns, the graph it returns is the graph
    it was given without some of its nodes and without the edges that touch
    them (no node or edge is added and no weight changes); a second call on
    the result returns it as it is; and if the graph given is acyclic, the
    result is acyclic and has no bubble left: no node has two predecessors
    with a common ancestor. *)
Theorem simplify_bubbles_result (R : RandomSource) (set_pick : list node -> nat)
        (fuel : nat) (g : DiGraph) (rs : rng_state R)
        (g' : DiGraph) (rs' : rng_state R) :
  well_formed g ->
  simplify_bubbles R set_pick fuel g rs = Some (Ok (g', rs')) ->
  (exists gone, is_without g' g gone)
  /\ well_formed g'
  /\ (forall fuel', simplify_bubbles R set_pick (S fuel') g' rs'
                    = Some (Ok (g', rs')))
  /\ (acyclic g -> acyclic g' /\ no_bubble g').
Proof.
  intros W H.
  destruct (@simplify_bubbles_returns R set_pick fuel g rs g' rs' W H)
    as [[gone Hg] [W' F]].
  split; [now exists gone |]. split; [exact W' |]. split.
  - intros fuel'. cbn [simplify_bubbles]. now rewrite F.
  - intros A. pose proof (is_without_acyclic W Hg A) as A'.
    split; [exact A' |]. now apply (find_bubble_none_no_bubble set_pick).
Qed.

Lemma simplify_bubbles_result_witness :
  (exists gone, is_without g_diamond_heavy g_diamond gone)
  /\ well_formed g_diamond_heavy
  /\ (forall fuel',
        simplify_bubbles lowest_source (fun _ => 0) (S fuel') g_diamond_heavy tt
        = Some (Ok (g_diamond_heavy, tt)))
  /\ (acyclic g_diamond -> acyclic g_diamond_heavy /\ no_bubble g_diamond_heavy).
Proof.
  apply (@simplify_bubbles_result lowest_source (fun _ => 0) 2 g_diamond tt).
  - apply build_graph_invariant.
    intros kmer count H. simpl in H.
    repeat (destruct H as [H | H]; [inversion H; lia |]). destruct H.
  - vm_compute. reflexivity.
Defined.

(** ** The nodes of a path that are removed *)

Lemma In_removelast (A : Type) (l : list A) (x : A) :
  In x (removelast l) -> In x l.
Proof.
  induction l as [|y r IH]; simpl; [tauto |].
  destruct r as [|z r']; [intros [] |].
  intros [H | H]; [now left | right; now apply IH].
Qed.

Lemma NoDup_removelast_last (l : list node) (d x : node) :
  NoDup l -> In x (removelast l) -> x <> last l d.
Proof.
  intros Hnd Hx E. destruct l as [|y r]; [destruct Hx |].
  assert (Hne : y :: r <> []) by discriminate.
  rewrite (app_removelast_last d Hne) in Hnd.
  apply NoDup_remove_2 in Hnd. rewrite app_nil_r in Hnd.
  apply Hnd. now rewrite <- E.
Qed.

(** What each choice of the flags removes from a simple path: never the end
    that the flag protects. *)
Lemma nodes_to_remove_simple_path (g : DiGraph) (source target : node)
      (path : list node) (e s : bool) (n : node) :
  simple_path g source target path ->
  In n (nodes_to_remove path e s) ->
  In n path /\ (e = false -> n <> source) /\ (s = false -> n <> target).
Proof.
  intros [Hnd [_ [Hh Hl]]] H.
  destruct path as [|x r]; [discriminate |]. inversion Hh; subst x.
  assert (Hr : In n r -> n <> source).
  { intros Hin ->. inversion Hnd; contradiction. }
  assert (Hlast : In n (removelast (source :: r)) -> n <> target).
  { intros Hin. rewrite <- Hl. now apply NoDup_removelast_last. }
  unfold nodes_to_remove in H. destruct e, s; simpl andb in H; cbv iota in H.
  - split; [exact H |]. split; discriminate.
  - rewrite list_slice_init in H.
    split; [now apply In_removelast |]. split; [discriminate |].
    intros _. now apply Hlast.
  - rewrite list_slice_tail in H. simpl in H.
    split; [now right |]. split; [intros _; now apply Hr | discriminate].
  - rewrite list_slice_inner in H. simpl skipn in H.
    pose proof (In_removelast _ _ H) as Hin.
    split; [now right |]. split; [intros _; now apply Hr |].
    intros _. rewrite <- Hl.
    destruct r as [|y r']; [destruct H |].
    change (last (source :: y :: r') source) with (last (y :: r') source).
    apply NoDup_removelast_last; [now inversion Hnd | exact H].
Qed.

Lemma removed_nodes_simple_paths (g : DiGraph) (kept : list node)
      (paths : list (list node)) (e s : bool) (n : node)
      (ends : list node -> node * node) :
  (forall path, In path paths ->
                simple_path g (fst (ends path)) (snd (ends path)) path) ->
  In n (removed_nodes kept paths e s) ->
  exists path,
    In path paths /\ In n path
    /\ (e = false -> n <> fst (ends path))
    /\ (s = false -> n <> snd (ends path)).
Proof.
  intros Hsp H. unfold removed_nodes in H. apply in_flat_map in H.
  destruct H as [path [Hp Hn]]. apply filter_In in Hp. destruct Hp as [Hp _].
  destruct (@nodes_to_remove_simple_path g _ _ path e s n (Hsp path Hp) Hn)
    as [H1 [H2 H3]].
  now exists path.
Qed.

Lemma is_without_keeps (g' g : DiGraph) (gone : list node) (n : node) :
  is_without g' g gone -> In n (nodes g) -> ~ In n gone -> In n (nodes g').
Proof.
  intros [N _] Hn Hg. rewrite N. apply filter_In. split; [exact Hn |].
  destruct (mem n gone) eqn:M; [| reflexivity].
  apply mem_In in M. contradiction.
Qed.

Lemma solve_bubble_removes_inner (R : RandomSource) (g : DiGraph) (a d : node)
      (rs : rng_state R) (g' : DiGraph) (rs' : rng_state R) :
  In d (nodes g) ->
  solve_bubble R g a d rs = Ok (g', rs') ->
  exists gone,
    is_without g' g gone
    /\ In a (nodes g') /\ In d (nodes g')
    /\ forall n, In n gone ->
                 n <> a /\ n <> d
                 /\ exists path, simple_path g a d path /\ In n path.
Proof.
  intros Hd H. apply solve_bubble_result in H.
  destruct H as [paths [kept [Hp ->]]].
  assert (Ha : In a (nodes g)).
  { unfold all_simple_paths in Hp. apply has_node_In.
    destruct (has_node g a); [reflexivity | discriminate]. }
  pose proof (@all_simple_paths_sound _ _ _ _ Hd Hp) as Hsp.
  assert (Hg : forall n, In n (removed_nodes kept paths false false) ->
                         n <> a /\ n <> d
                         /\ exists path, simple_path g a d path /\ In n path).
  { intros n Hn.
    destruct (@removed_nodes_simple_paths g kept paths false false n
                (fun _ => (a, d)) Hsp Hn) as [path [Hin [Hnp [Hna Hnd]]]].
    split; [now apply Hna |]. split; [now apply Hnd |].
    exists path. split; [now apply Hsp | exact Hnp]. }
  exists (removed_nodes kept paths false false).
  pose proof (is_without_remove_others kept paths false false g) as W.
  split; [exact W |].
  split; [apply (@is_without_keeps _ _ _ a W Ha); intros Hn; now destruct (Hg a Hn) |].
  split; [apply (@is_without_keeps _ _ _ d W Hd); intros Hn;
          now destruct (Hg d Hn) as [_ [? _]] |].
  exact Hg.
Qed.

(** X13. When [solve_bubble] returns, the graph it returns is the graph it
    was given without some inner nodes of the simple paths from the ancestor
    to the descendant, and without the edges that touch them: the ancestor
    and the descendant are still nodes of the result. *)
Theorem solve_bubble_keeps_both_ends (R : RandomSource) (g : DiGraph)
        (ancestor_node descendant_node : node)
        (rs : rng_state R) (g' : DiGraph) (rs' : rng_state R) :
  In descendant_node (nodes g) ->
  solve_bubble R g ancestor_node descendant_node rs = Ok (g', rs') ->
  exists gone,
    is_without g' g gone
    /\ In ancestor_node (nodes g') /\ In descendant_node (nodes g')
    /\ forall n, In n gone ->
                 n <> ancestor_node /\ n <> descendant_node
                 /\ exists path,
                      simple_path g ancestor_node descendant_node path
                      /\ In n path.
Proof.
  exact (@solve_bubble_removes_inner R g ancestor_node descendant_node rs g' rs').
Qed.

Lemma solve_bubble_keeps_both_ends_witness :
  exists gone,
    is_without g_diamond_heavy g_diamond gone
    /\ In "AC" (nodes g_diamond_heavy) /\ In "TA" (nodes g_diamond_heavy)
    /\ forall n, In n gone ->
                 n <> "AC" /\ n <> "TA"
                 /\ exists path, simple_path g_diamond "AC" "TA" path /\ In n path.
Proof.
  apply (@solve_bubble_keeps_both_ends lowest_source g_diamond "AC" "TA" tt
           g_diamond_heavy tt).
  - vm_compute. tauto.
  - vm_compute. reflexivity.
Defined.

(** ** Tips *)

Lemma tip_pairs_In (g : DiGraph) (degree : node -> nat) (ends : list node)
      (n e : node) :
  In (n, e) (tip_pairs g degree ends)
  <-> In n (nodes g) /\ In e ends /\ 1 < degree n.
Proof.
  unfold tip_pairs. rewrite in_flat_map. split.
  - intros [m [Hm H]]. apply in_flat_map in H. destruct H as [x [Hx H]].
    destruct (1 <? degree m) eqn:D; [| destruct H].
    destruct H as [H | []]. inversion H; subst.
    apply Nat.ltb_lt in D. auto.
  - intros [Hn [He D]]. exists n. split; [exact Hn |].
    apply in_flat_map. exists e. split; [exact He |].
    apply Nat.ltb_lt in D. rewrite D. now left.
Qed.

Lemma tip_pairs_none (g : DiGraph) (degree : node -> nat) (ends : list node) :
  ends = [] \/ (forall n, In n (nodes g) -> degree n <= 1) ->
  tip_pairs g degree ends = [].
Proof.
  intros H. destruct (tip_pairs g degree ends) as [|[n e] r] eqn:E; [reflexivity |].
  assert (Hin : In (n, e) (tip_pairs g degree ends)) by (rewrite E; now left).
  apply tip_pairs_In in Hin. destruct Hin as [Hn [He D]].
  destruct H as [-> | H]; [destruct He |]. specialize (H n Hn). lia.
Qed.

Lemma sum_abs_le (bound : Z) (data : list Z) :
  (forall w, In w data -> (Z.abs w <= bound)%Z) ->
  (Z.abs (fold_right Z.add 0%Z data) <= Z.of_nat (List.length data) * bound)%Z.
Proof.
  induction data as [|x r IH]; intros H; [simpl; lia |].
  assert (Hx : (Z.abs x <= bound)%Z) by (apply H; now left).
  assert (Hr : (Z.abs (fold_right Z.add 0%Z r) <= Z.of_nat (List.length r) * bound)%Z)
    by (apply IH; intros w Hw; apply H; now right).
  cbn [fold_right List.length]. rewrite Nat2Z.inj_succ. lia.
Qed.

(** The mean of integers below [bound] in absolute value is below it. *)
Lemma mean_abs_lt (bound : Z) (data : list Z) :
  data <> [] ->
  (forall w, In w data -> (Z.abs w < bound)%Z) ->
  (Qabs (inject_Z (fold_right Z.add 0%Z data)
         / inject_Z (Z.of_nat (List.length data)))
   < inject_Z bound)%Q.
Proof.
  intros Hne H.
  assert (S := @sum_abs_le (bound - 1) data ltac:(intros w Hw; specialize (H w Hw); lia)).
  set (t := fold_right Z.add 0%Z data) in *.
  set (n := Z.of_nat (List.length data)) in *.
  assert (Hn : (0 < n)%Z) by (unfold n; destruct data; [congruence | simpl; lia]).
  assert (Hq : (0 < inject_Z n)%Q)
    by (change 0%Q with (inject_Z 0); now rewrite <- Zlt_Qlt).
  apply Qle_lt_trans with (y := inject_Z (bound - 1));
    [| rewrite <- Zlt_Qlt; lia].
  apply Qabs_Qle_condition. split.
  - apply Qle_shift_div_l; [exact Hq |].
    rewrite <- inject_Z_opp, <- inject_Z_mult, <- Zle_Qle. lia.
  - apply Qle_shift_div_r; [exact Hq |].
    rewrite <- inject_Z_mult, <- Zle_Qle. lia.
Qed.

(** [statistics.mean] of integers fails on an empty list, and on a mean that
    is too large for a float, which takes a datum of [2^1024 - 2^970] or
    more in absolute value. *)
Lemma mean_raises (data : list Z) (e : exn) :
  mean data = Raise e ->
  (e = StatisticsError /\ data = [])
  \/ (e = OverflowError
      /\ exists w, In w data /\ (2 ^ 1024 - 2 ^ 970 <= Z.abs w)%Z).
Proof.
  unfold mean. destruct data as [|x r] eqn:D; [intros H; inversion H; auto |].
  rewrite <- D. intros H.
  destruct (_ mod _ =? 0)%Z; [discriminate |].
  unfold float_of_fraction in H.
  destruct (Qle_bool float_overflow _) eqn:O; [| discriminate].
  inversion H; subst e. right. split; [reflexivity |].
  destruct (existsb (fun w => (2 ^ 1024 - 2 ^ 970 <=? Z.abs w)%Z) data) eqn:X.
  - apply existsb_exists in X. destruct X as [w [Hw L]].
    exists w. split; [exact Hw | now apply Z.leb_le].
  - exfalso. apply Qle_bool_iff in O.
    assert (L := @mean_abs_lt (2 ^ 1024 - 2 ^ 970) data).
    apply (Qlt_not_le _ _ (L ltac:(rewrite D; discriminate)
                             ltac:(intros w Hw;
                                   destruct (2 ^ 1024 - 2 ^ 970 <=? Z.abs w)%Z eqn:B;
                                   [exfalso; rewrite <- not_true_iff_false in X;
                                    apply X; apply existsb_exists; exists w; auto
                                   | now apply Z.leb_gt]))).
    exact O.
Qed.

Lemma subgraph_edges_sub (g : DiGraph) (path : list node) (e : edge) :
  In e (subgraph_edges g path) ->
  In e (edges g) /\ In (src e) path /\ In (dst e) path.
Proof.
  unfold subgraph_edges, edges_view, out_edges. intros H.
  apply filter_In in H. destruct H as [H B].
  apply andb_true_iff in B. destruct B as [B1 B2].
  apply mem_In in B1, B2.
  apply in_flat_map in H. destruct H as [u [_ H]]. apply filter_In in H.
  tauto.
Qed.

(** What makes [path_average_weight] fail. *)
Lemma path_average_weight_raises (g : DiGraph) (path : list node) (x : exn) :
  path_average_weight g path = Raise x ->
  (x = StatisticsError /\ subgraph_edges g path = [])
  \/ (x = OverflowError
      /\ exists e, In e (edges g) /\ In (src e) path /\ In (dst e) path
                   /\ (2 ^ 1024 - 2 ^ 970 <= Z.abs (weight e))%Z).
Proof.
  unfold path_average_weight. intros H. apply mean_raises in H.
  destruct H as [[-> E] | [-> [w [Hw L]]]].
  - left. split; [reflexivity |]. now apply map_eq_nil in E.
  - right. split; [reflexivity |].
    apply in_map_iff in Hw. destruct Hw as [e [<- He]].
    apply subgraph_edges_sub in He. exists e. tauto.
Qed.

(** [select_best_path] needs two candidates. *)
Lemma select_best_path_few (R : RandomSource) (g : DiGraph)
      (path_list : list (list node)) (lens : list Z) (avgs : list Q)
      (e s : bool) (rs : rng_state R) :
  List.length avgs < 2 ->
  select_best_path R g path_list lens avgs e s rs = Raise StatisticsError.
Proof.
  intros L. unfold select_best_path, choose_best_path.
  now rewrite (variance_undefined_positive avgs L).
Qed.

Lemma mapM_length_Ok (A B : Type) (f : A -> result B) (l : list A) (ys : list B) :
  mapM f l = Ok ys -> List.length ys = List.length l.
Proof.
  revert ys. induction l as [|x r IH]; intros ys H; simpl in H.
  - inversion H. reflexivity.
  - apply bind_Ok in H. destruct H as [y [_ H]].
    apply bind_Ok in H. destruct H as [zs [Hz H]]. inversion H; subst.
    simpl. f_equal. now apply IH.
Qed.

Lemma mapM_raises (A B : Type) (f : A -> result B) (l : list A) (e : exn) :
  mapM f l = Raise e -> exists x, In x l /\ f x = Raise e.
Proof.
  induction l as [|x r IH]; simpl; [discriminate |].
  destruct (f x) as [y|e'] eqn:E; simpl.
  - destruct (mapM f r) as [ys|e'']; simpl; [discriminate |].
    intros H. inversion H; subst. destruct IH as [z [Hz Ez]]; [reflexivity |].
    exists z. split; [now right | exact Ez].
  - intros H. inversion H; subst. exists x. split; [now left | exact E].
Qed.

Lemma solve_tips_outcome (R : RandomSource) (g : DiGraph)
      (path_list : list (list (list node))) (e s : bool) (rs : rng_state R) :
  (path_list = [] -> solve_tips R g path_list e s rs = Ok (g, rs))
  /\ (path_list <> [] -> List.length (List.concat path_list) < 2 ->
      solve_tips R g path_list e s rs = Raise StatisticsError
      \/ (solve_tips R g path_list e s rs = Raise OverflowError
          /\ exists w, In w (edges g)
                       /\ (2 ^ 1024 - 2 ^ 970 <= Z.abs (weight w))%Z))
  /\ (forall g' rs',
        solve_tips R g path_list e s rs = Ok (g', rs') ->
        exists kept,
          is_without g' g (removed_nodes kept (List.concat path_list) e s)).
Proof.
  split; [intros ->; reflexivity |]. split.
  - intros Hne L. unfold solve_tips.
    destruct path_list as [|l r]; [congruence |].
    destruct (mapM (path_average_weight g) (List.concat (l :: r)))
      as [avgs|x] eqn:M; simpl.
    + left. apply select_best_path_few. now rewrite (mapM_length_Ok _ _ M).
    + apply mapM_raises in M. destruct M as [p [_ M]].
      apply path_average_weight_raises in M.
      destruct M as [[-> _] | [-> [w [Hw [_ [_ B]]]]]]; [now left |].
      right. split; [reflexivity |]. now exists w.
  - intros g' rs' H. unfold solve_tips in H.
    destruct path_list as [|l r].
    + inversion H; subst. exists []. apply is_without_refl.
    + apply bind_Ok in H. destruct H as [avgs [_ H]].
      apply select_best_path_result in H. destruct H as [kept ->].
      exists kept. apply is_without_remove_others.
Qed.

Lemma simple_path_ends (g : DiGraph) (source target : node) (path : list node) :
  simple_path g source target path ->
  simple_path g (hd "" path) (last path "") path.
Proof.
  intros [Hnd [Hc [Hh Hl]]].
  destruct path as [|x r]; [discriminate |]. inversion Hh; subst x.
  split; [exact Hnd |]. split; [exact Hc |]. split; [reflexivity |].
  apply last_default. discriminate.
Qed.

Lemma simple_path_last (g : DiGraph) (source target : node) (path : list node) :
  simple_path g source target path -> last path "" = target /\ hd "" path = source.
Proof.
  intros [_ [_ [Hh Hl]]].
  destruct path as [|x r]; [discriminate |]. inversion Hh; subst x.
  split; [| reflexivity]. rewrite <- Hl. apply last_default. discriminate.
Qed.

(** The paths that the two functions gather, for a list of pairs
    (source, target) whose targets are nodes of the graph. *)
Lemma gathered_paths (g : DiGraph) (A : Type) (pairs : list A)
      (ends : A -> node * node) (path_list : list (list (list node)))
      (path : list node) :
  (forall p, In p pairs -> In (snd (ends p)) (nodes g)) ->
  mapM (fun p => all_simple_paths g (fst (ends p)) (snd (ends p))) pairs
  = Ok path_list ->
  In path (List.concat path_list) ->
  exists p, In p pairs /\ simple_path g (fst (ends p)) (snd (ends p)) path.
Proof.
  intros Ht M Hin. apply in_concat in Hin. destruct Hin as [l [Hl Hin]].
  destruct (@mapM_In _ _ _ _ _ M l Hl) as [p [Hp E]].
  exists p. split; [exact Hp |].
  exact (@all_simple_paths_sound _ _ _ _ (Ht p Hp) E path Hin).
Qed.

Lemma solve_entry_tips_cases (R : RandomSource) (g : DiGraph)
      (starting_nodes : list node) (rs : rng_state R) :
  (starting_nodes = []
   \/ (forall n, In n (nodes g) -> List.length (predecessors g n) <= 1) ->
   solve_entry_tips R g starting_nodes rs = Ok (g, rs))
  /\ (forall path_list,
        mapM (fun p => all_simple_paths g (snd p) (fst p))
             (tip_pairs g (fun n => List.length (predecessors g n)) starting_nodes)
        = Ok path_list ->
        path_list <> [] -> List.length (List.concat path_list) < 2 ->
        solve_entry_tips R g starting_nodes rs = Raise StatisticsError
        \/ (solve_entry_tips R g starting_nodes rs = Raise OverflowError
            /\ exists w, In w (edges g)
                         /\ (2 ^ 1024 - 2 ^ 970 <= Z.abs (weight w))%Z))
  /\ (forall g' rs',
        solve_entry_tips R g starting_nodes rs = Ok (g', rs') ->
        exists gone,
          is_without g' g gone
          /\ forall n, In n gone ->
               exists node_start node_merge path,
                 In node_start starting_nodes
                 /\ In node_merge (nodes g)
                 /\ 1 < List.length (predecessors g node_merge)
                 /\ simple_path g node_start node_merge path
                 /\ In n path /\ n <> node_merge).
Proof.
  unfold solve_entry_tips. split; [| split].
  - intros H. rewrite (@tip_pairs_none g _ starting_nodes H). reflexivity.
  - intros path_list M Hne L. rewrite M. simpl.
    now apply (proj1 (proj2 (solve_tips_outcome R g path_list _ _ rs))).
  - intros g' rs' H. apply bind_Ok in H. destruct H as [path_list [M H]].
    apply solve_tips_outcome in H. destruct H as [kept W].
    exists (removed_nodes kept (List.concat path_list) true false).
    split; [exact W |]. intros n Hn.
    assert (Hsp : forall path, In path (List.concat path_list) ->
                  exists p,
                    In p (tip_pairs g (fun n => List.length (predecessors g n))
                                    starting_nodes)
                    /\ simple_path g (snd p) (fst p) path).
    { intros path Hp.
      apply (@gathered_paths g _ _ (fun p => (snd p, fst p)) path_list path);
        [| exact M | exact Hp].
      intros [m st] Hin. apply tip_pairs_In in Hin. now destruct Hin. }
    destruct (@removed_nodes_simple_paths g kept (List.concat path_list) true false n
                (fun path => (hd "" path, last path ""))) as [path [Hp [Hin [_ Hl]]]];
      [| exact Hn |].
    + intros path Hp. destruct (Hsp path Hp) as [p [_ S]].
      exact (simple_path_ends S).
    + destruct (Hsp path Hp) as [[m st] [Ht S]].
      apply tip_pairs_In in Ht. destruct Ht as [Hm [Hs D]].
      simpl in S. destruct (simple_path_last S) as [El _].
      exists st, m, path. repeat (split; [assumption |]).
      simpl in Hl. rewrite El in Hl. now apply Hl.
Qed.

Lemma solve_out_tips_cases (R : RandomSource) (g : DiGraph)
      (ending_nodes : list node) (rs : rng_state R) :
  (ending_nodes = []
   \/ (forall n, In n (nodes g) -> List.length (successors g n) <= 1) ->
   solve_out_tips R g ending_nodes rs = Ok (g, rs))
  /\ (forall path_list,
        mapM (fun p => all_simple_paths g (fst p) (snd p))
             (tip_pairs g (fun n => List.length (successors g n)) ending_nodes)
        = Ok path_list ->
        path_list <> [] -> List.length (List.concat path_list) < 2 ->
        solve_out_tips R g ending_nodes rs = Raise StatisticsError
        \/ (solve_out_tips R g ending_nodes rs = Raise OverflowError
            /\ exists w, In w (edges g)
                         /\ (2 ^ 1024 - 2 ^ 970 <= Z.abs (weight w))%Z))
  /\ (forall g' rs',
        incl ending_nodes (nodes g) ->
        solve_out_tips R g ending_nodes rs = Ok (g', rs') ->
        exists gone,
          is_without g' g gone
          /\ forall n, In n gone ->
               exists node_fork node_end path,
                 In node_end ending_nodes
                 /\ In node_fork (nodes g)
                 /\ 1 < List.length (successors g node_fork)
                 /\ simple_path g node_fork node_end path
                 /\ In n path /\ n <> node_fork).
Proof.
  unfold solve_out_tips. split; [| split].
  - intros H. rewrite (@tip_pairs_none g _ ending_nodes H). reflexivity.
  - intros path_list M Hne L. rewrite M. simpl.
    now apply (proj1 (proj2 (solve_tips_outcome R g path_list _ _ rs))).
  - intros g' rs' Hi H. apply bind_Ok in H. destruct H as [path_list [M H]].
    apply solve_tips_outcome in H. destruct H as [kept W].
    exists (removed_nodes kept (List.concat path_list) false true).
    split; [exact W |]. intros n Hn.
    assert (Hsp : forall path, In path (List.concat path_list) ->
                  exists p,
                    In p (tip_pairs g (fun n => List.length (successors g n))
                                    ending_nodes)
                    /\ simple_path g (fst p) (snd p) path).
    { intros path Hp.
      apply (@gathered_paths g _ _ (fun p => (fst p, snd p)) path_list path);
        [| exact M | exact Hp].
      intros [m en] Hin. apply tip_pairs_In in Hin. apply Hi. now destruct Hin as [_ [? _]]. }
    destruct (@removed_nodes_simple_paths g kept (List.concat path_list) false true n
                (fun path => (hd "" path, last path ""))) as [path [Hp [Hin [Hf _]]]];
      [| exact Hn |].
    + intros path Hp. destruct (Hsp path Hp) as [p [_ S]].
      exact (simple_path_ends S).
    + destruct (Hsp path Hp) as [[m en] [Ht S]].
      apply tip_pairs_In in Ht. destruct Ht as [Hm [He D]].
      simpl in S. destruct (simple_path_last S) as [_ Eh].
      exists m, en, path. repeat (split; [assumption |]).
      simpl in Hf. rewrite Eh in Hf. now apply Hf.
Qed.

(** X14. [solve_entry_tips]: with no starting node, or when no node has
    more than one predecessor, the graph is returned as it is; when there are
    pairs to look at but fewer than two paths are gathered, StatisticsError is
    raised, or OverflowError if the average weight of the one path is too
    large for a float, which takes a weight of [2^1024 - 2^970] or more; and
    a graph that is returned is the graph given without nodes that
    lie on a simple path from a starting node to a node with several
    predecessors, that node itself excepted, and without the edges that touch
    them. *)
Theorem solve_entry_tips_outcome (R : RandomSource) (g : DiGraph)
        (starting_nodes : list node) (rs : rng_state R) :
  (starting_nodes = []
   \/ (forall n, In n (nodes g) -> List.length (predecessors g n) <= 1) ->
   solve_entry_tips R g starting_nodes rs = Ok (g, rs))
  /\ (forall path_list,
        mapM (fun p => all_simple_paths g (snd p) (fst p))
             (tip_pairs g (fun n => List.length (predecessors g n)) starting_nodes)
        = Ok path_list ->
        path_list <> [] -> List.length (List.concat path_list) < 2 ->
        solve_entry_tips R g starting_nodes rs = Raise StatisticsError
        \/ (solve_entry_tips R g starting_nodes rs = Raise OverflowError
            /\ exists w, In w (edges g)
                         /\ (2 ^ 1024 - 2 ^ 970 <= Z.abs (weight w))%Z))
  /\ (forall g' rs',
        solve_entry_tips R g starting_nodes rs = Ok (g', rs') ->
        exists gone,
          is_without g' g gone
          /\ forall n, In n gone ->
               exists node_start node_merge path,
                 In node_start starting_nodes
                 /\ In node_merge (nodes g)
                 /\ 1 < List.length (predecessors g node_merge)
                 /\ simple_path g node_start node_merge path
                 /\ In n path /\ n <> node_merge).
Proof.
  exact (solve_entry_tips_cases R g starting_nodes rs).
Qed.

Lemma solve_entry_tips_outcome_witness :
  solve_entry_tips lowest_source g_merge ["AT"] tt = Raise StatisticsError.
Proof.
  destruct (proj1 (proj2 (solve_entry_tips_outcome lowest_source g_merge ["AT"] tt))
                  [[["AT"; "TC"]]]) as [H | [H _]].
  - reflexivity.
  - discriminate.
  - simpl. lia.
  - exact H.
  - vm_compute in H. discriminate.
Defined.

(** X15. [solve_out_tips]: with no ending node, or when no node has more
    than one successor, the graph is returned as it is; when there are pairs
    to look at but fewer than two paths are gathered, StatisticsError is
    raised, or OverflowError if the average weight of the one path is too
    large for a float, which takes a weight of [2^1024 - 2^970] or more; and
    a graph that is returned, for ending nodes of the graph, is
    the graph given without nodes that lie on a simple path from a node with
    several successors to an ending node, that node itself excepted, and
    without the edges that touch them. *)
Theorem solve_out_tips_outcome (R : RandomSource) (g : DiGraph)
        (ending_nodes : list node) (rs : rng_state R) :
  (ending_nodes = []
   \/ (forall n, In n (nodes g) -> List.length (successors g n) <= 1) ->
   solve_out_tips R g ending_nodes rs = Ok (g, rs))
  /\ (forall path_list,
        mapM (fun p => all_simple_paths g (fst p) (snd p))
             (tip_pairs g (fun n => List.length (successors g n)) ending_nodes)
        = Ok path_list ->
        path_list <> [] -> List.length (List.concat path_list) < 2 ->
        solve_out_tips R g ending_nodes rs = Raise StatisticsError
        \/ (solve_out_tips R g ending_nodes rs = Raise OverflowError
            /\ exists w, In w (edges g)
                         /\ (2 ^ 1024 - 2 ^ 970 <= Z.abs (weight w))%Z))
  /\ (forall g' rs',
        incl ending_nodes (nodes g) ->
        solve_out_tips R g ending_nodes rs = Ok (g', rs') ->
        exists gone,
          is_without g' g gone
          /\ forall n, In n gone ->
               exists node_fork node_end path,
                 In node_end ending_nodes
                 /\ In node_fork (nodes g)
                 /\ 1 < List.length (successors g node_fork)
                 /\ simple_path g node_fork node_end path
                 /\ In n path /\ n <> node_fork).
Proof.
  exact (solve_out_tips_cases R g ending_nodes rs).
Qed.

Lemma solve_out_tips_outcome_witness :
  solve_out_tips lowest_source g_fork ["TC"] tt = Raise StatisticsError.
Proof.
  destruct (proj1 (proj2 (solve_out_tips_outcome lowest_source g_fork ["TC"] tt))
                  [[["AT"; "TC"]]]) as [H | [H _]].
  - reflexivity.
  - discriminate.
  - simpl. lia.
  - exact H.
  - vm_compute in H. discriminate.
Defined.

(** ** Starting nodes and sink nodes *)

Lemma length_zero_none (l : list node) :
  (List.length l =? 0) = true <-> forall m, ~ In m l.
Proof.
  destruct l as [|x r]; simpl; split; try tauto.
  - discriminate.
  - intros H. exfalso. apply (H x). now left.
Qed.

Lemma get_starting_nodes_In (g : DiGraph) (n : node) :
  In n (get_starting_nodes g)
  <-> In n (nodes g) /\ forall m, has_edge g m n = false.
Proof.
  unfold get_starting_nodes. rewrite filter_In, length_zero_none.
  split; intros [Hn H]; (split; [exact Hn |]); intros m.
  - destruct (has_edge g m n) eqn:E; [| reflexivity].
    exfalso. apply (H m). now apply predecessors_edge.
  - intros Hm. apply predecessors_edge in Hm. now rewrite H in Hm.
Qed.

Lemma get_sink_nodes_In (g : DiGraph) (n : node) :
  In n (get_sink_nodes g)
  <-> In n (nodes g) /\ forall m, has_edge g n m = false.
Proof.
  unfold get_sink_nodes. rewrite filter_In, length_zero_none.
  split; intros [Hn H]; (split; [exact Hn |]); intros m.
  - destruct (has_edge g n m) eqn:E; [| reflexivity].
    exfalso. apply (H m). now apply successors_edge.
  - intros Hm. apply successors_edge in Hm. now rewrite H in Hm.
Qed.

Section RankedEnds.
Variable g : DiGraph.
Variable rank : node -> nat.
Hypothesis rank_edges : forall e, In e (edges g) -> rank (src e) < rank (dst e).
Hypothesis g_well_formed : well_formed g.

(** Going up from a node ends at a starting node. *)
Lemma reached_from_start (k : nat) (n : node) :
  rank n < k -> In n (nodes g) ->
  exists s, In s (get_starting_nodes g) /\ reaches g s n.
Proof.
  revert n. induction k as [|k IH]; intros n L Hn; [lia |].
  destruct (predecessors g n) as [|m r] eqn:P.
  - exists n. split; [| constructor].
    unfold get_starting_nodes. apply filter_In. split; [exact Hn |].
    now rewrite P.
  - assert (He : has_edge g m n = true)
      by (apply predecessors_edge; rewrite P; now left).
    pose proof (@rank_has_edge g rank rank_edges m n He) as Lm.
    destruct (@has_edge_nodes g g_well_formed m n He) as [Hm _].
    destruct (IH m) as [s [Hs Hr]]; [lia | exact Hm |].
    exists s. split; [exact Hs |]. eapply reaches_edge_last; eassumption.
Qed.

(** Going down from a node ends at a sink node. *)
Lemma reaches_sink (top k : nat) (n : node) :
  (forall x, In x (nodes g) -> rank x <= top) ->
  top - rank n < k -> In n (nodes g) ->
  exists t, In t (get_sink_nodes g) /\ reaches g n t.
Proof.
  intros Htop. revert n. induction k as [|k IH]; intros n L Hn; [lia |].
  destruct (successors g n) as [|m r] eqn:P.
  - exists n. split; [| constructor].
    unfold get_sink_nodes. apply filter_In. split; [exact Hn |].
    now rewrite P.
  - assert (He : has_edge g n m = true)
      by (apply successors_edge; rewrite P; now left).
    pose proof (@rank_has_edge g rank rank_edges n m He) as Lm.
    destruct (@has_edge_nodes g g_well_formed n m He) as [_ Hm].
    pose proof (Htop m Hm) as Tm.
    destruct (IH m) as [t [Ht Hr]]; [lia | exact Hm |].
    exists t. split; [exact Ht |]. eapply reaches_step; eassumption.
Qed.

Lemma between_start_and_sink (n : node) :
  In n (nodes g) ->
  exists s t,
    In s (get_starting_nodes g) /\ In t (get_sink_nodes g)
    /\ reaches g s n /\ reaches g n t.
Proof.
  intros Hn.
  destruct (@reached_from_start (S (rank n)) n) as [s [Hs Rs]]; [lia | exact Hn |].
  assert (Hne : nodes g <> []) by (intros E; rewrite E in Hn; destruct Hn).
  destruct (@highest_rank rank _ Hne) as [M [_ HM]].
  destruct (@reaches_sink (rank M) (S (rank M - rank n)) n HM) as [t [Ht Rt]];
    [lia | exact Hn |].
  now exists s, t.
Qed.

End RankedEnds.

(** X16. The starting nodes are the nodes that no edge enters and the sink
    nodes are the nodes that no edge leaves; in an acyclic graph, every node
    is reached from a starting node and reaches a sink node, so that a graph
    with a node has a starting node and a sink node. *)
Theorem starting_and_sink_nodes (g : DiGraph) :
  (forall n, In n (get_starting_nodes g)
             <-> In n (nodes g) /\ forall m, has_edge g m n = false)
  /\ (forall n, In n (get_sink_nodes g)
                <-> In n (nodes g) /\ forall m, has_edge g n m = false)
  /\ (well_formed g -> acyclic g ->
      forall n, In n (nodes g) ->
                exists s t,
                  In s (get_starting_nodes g) /\ In t (get_sink_nodes g)
                  /\ reaches g s n /\ reaches g n t).
Proof.
  split; [exact (get_starting_nodes_In g) |].
  split; [exact (get_sink_nodes_In g) |].
  intros W [rank Hr] n Hn. exact (@between_start_and_sink g rank Hr W n Hn).
Qed.

Lemma starting_and_sink_nodes_witness :
  exists s t,
    In s (get_starting_nodes g_merge) /\ In t (get_sink_nodes g_merge)
    /\ reaches g_merge s "TC" /\ reaches g_merge "TC" t.
Proof.
  apply (proj2 (proj2 (starting_and_sink_nodes g_merge))
               g_merge_well_formed g_merge_acyclic "TC").
  vm_compute. tauto.
Defined.

(** ** Every simple path gives a contig *)

Lemma chain_descendants (g : DiGraph) (seen : list node) (p : list node)
      (k : nat) (x : node) :
  In x (closure k (successors g) seen) -> chain g (x :: p) ->
  In (last (x :: p) x) (closure (k + List.length p) (successors g) seen).
Proof.
  revert k x. induction p as [|b r IH]; intros k x Hx Hc.
  - simpl. now rewrite Nat.add_0_r.
  - destruct Hc as [He Hc].
    assert (Hb : In b (closure (S k) (successors g) seen)).
    { apply closure_next with (b := x); [exact Hx |]. now apply successors_edge. }
    specialize (IH (S k) b Hb Hc).
    replace (k + List.length (b :: r)) with (S k + List.length r) by (simpl; lia).
    replace (last (x :: b :: r) x) with (last (b :: r) b); [exact IH |].
    change (last (x :: b :: r) x) with (last (b :: r) x).
    apply last_default. discriminate.
Qed.

Lemma last_In (l : list node) (d : node) : l <> [] -> In (last l d) l.
Proof.
  induction l as [|x r IH]; [congruence | intros _].
  destruct r as [|y r']; [now left |].
  right. apply IH. discriminate.
Qed.

Lemma simple_path_has_path (g : DiGraph) (source target : node) (path : list node) :
  incl path (nodes g) -> simple_path g source target path ->
  has_path g source target = Ok true.
Proof.
  intros Hi [Hnd [Hc [Hh Hl]]].
  destruct path as [|x r]; [discriminate |]. inversion Hh; subst x.
  assert (Hs : In source (nodes g)) by (apply Hi; now left).
  assert (Ht : In target (nodes g)).
  { apply Hi. rewrite <- Hl. apply last_In. discriminate. }
  unfold has_path.
  apply has_node_In in Hs. apply has_node_In in Ht. rewrite Hs, Ht. simpl.
  f_equal. apply mem_In. unfold descendants_or_self.
  apply closure_grows with (k := List.length r).
  - pose proof (NoDup_incl_length Hnd Hi) as L. simpl in L. lia.
  - rewrite <- Hl.
    apply (@chain_descendants g [source] r 0 source); [now left | exact Hc].
Qed.

Lemma mem_false_notin (x : string) (l : list string) :
  ~ In x l -> mem x l = false.
Proof.
  intros H. destruct (mem x l) eqn:E; [| reflexivity].
  apply mem_In in E. contradiction.
Qed.

(** The depth-first search misses no simple path that fits in the cutoff. *)
Lemma simple_paths_from_complete (g : DiGraph) (target : node) (rest : list node) :
  forall fuel pre cur,
    rest <> [] ->
    NoDup (pre ++ rest) -> chain g (cur :: rest) ->
    last rest target = target ->
    List.length rest <= S fuel ->
    In (pre ++ rest) (simple_paths_from fuel g [target] pre cur).
Proof.
  induction rest as [|child rest' IH]; intros fuel pre cur Hne Hnd Hc Hl L;
    [congruence |].
  destruct Hc as [He Hc].
  assert (Hchild : ~ In child pre).
  { intros Hin. apply NoDup_remove_2 in Hnd. apply Hnd.
    apply in_or_app. now left. }
  destruct fuel as [|f]; cbn [simple_paths_from]; apply in_flat_map;
    exists child; (split; [now apply successors_edge |]);
    rewrite (mem_false_notin _ _ Hchild).
  - destruct rest' as [|y r]; [| simpl in L; lia].
    simpl in Hl. subst child. simpl. rewrite String.eqb_refl. simpl. now left.
  - destruct rest' as [|y r].
    + simpl in Hl. subst child. simpl. rewrite String.eqb_refl. simpl. now left.
    + apply in_or_app. right.
      assert (Hw : pre ++ child :: y :: r = (pre ++ [child]) ++ y :: r)
        by (rewrite <- app_assoc; reflexivity).
      assert (Ht : ~ In target (pre ++ [child])).
      { intros Hin. rewrite Hw in Hnd.
        assert (Hlast : In target (y :: r)).
        { rewrite <- Hl. change (last (child :: y :: r) target)
            with (last (y :: r) target).
          apply last_In. discriminate. }
        clear - Hnd Hin Hlast.
        induction (pre ++ [child]) as [|a l IH]; [destruct Hin |].
        simpl in Hnd. inversion Hnd as [|? ? Hn Hr]; subst.
        destruct Hin as [-> | Hin]; [| now apply IH].
        apply Hn. apply in_or_app. now right. }
      match goal with
      | |- In _ (if ?c then _ else _) =>
          assert (Ex : c = true)
            by (change (negb (mem target (pre ++ [child])) || false = true);
                rewrite (@mem_false_notin _ _ Ht); reflexivity);
          rewrite Ex
      end.
      rewrite Hw. apply IH.
      * discriminate.
      * exact (eq_ind _ (@NoDup node) Hnd _ Hw).
      * exact Hc.
      * exact Hl.
      * simpl in L. simpl. lia.
Qed.

Lemma all_simple_paths_complete (g : DiGraph) (source target : node)
      (path : list node) :
  incl path (nodes g) -> In target (nodes g) ->
  simple_path g source target path ->
  exists paths, all_simple_paths g source target = Ok paths /\ In path paths.
Proof.
  intros Hi Ht [Hnd [Hc [Hh Hl]]].
  destruct path as [|x r]; [discriminate |]. inversion Hh; subst x.
  assert (Hs : In source (nodes g)) by (apply Hi; now left).
  unfold all_simple_paths.
  apply has_node_In in Hs. apply has_node_In in Ht. rewrite Hs, Ht. cbn [negb].
  eexists. split; [reflexivity |].
  destruct r as [|b r'].
  - simpl in Hl. subst target. apply in_or_app. left.
    simpl. rewrite String.eqb_refl. now left.
  - apply in_or_app. right.
    pose proof (NoDup_incl_length Hnd Hi) as L. simpl in L.
    assert (C : (0 <? List.length (nodes g) - 1) = true) by (apply Nat.ltb_lt; lia).
    rewrite C.
    assert (Hts : ~ In target [source]).
    { intros [E | []]. inversion Hnd as [|? ? Hn _]. apply Hn.
      rewrite E, <- Hl.
      change (last (source :: b :: r') source) with (last (b :: r') source).
      apply last_In. discriminate. }
    match goal with
    | |- In _ (if true && ?c then _ else _) =>
        assert (Ex : c = true)
          by (change (negb (mem target [source]) || false = true);
              rewrite (@mem_false_notin _ _ Hts); reflexivity);
        rewrite Ex
    end.
    cbn [andb].
    apply (@simple_paths_from_complete g target (b :: r')
             (List.length (nodes g) - 1 - 1) [source] source).
    + discriminate.
    + exact Hnd.
    + exact Hc.
    + change (last (source :: b :: r') source) with (last (b :: r') source) in Hl.
      rewrite <- Hl at 2. apply last_default. discriminate.
    + simpl. lia.
Qed.

Lemma mapM_keeps (A B : Type) (f : A -> result B) (l : list A) (ys : list B)
      (x : A) (y : B) :
  mapM f l = Ok ys -> In x l -> f x = Ok y -> In y ys.
Proof.
  revert ys. induction l as [|a r IH]; intros ys H Hx Hy; [destruct Hx |].
  simpl in H. apply bind_Ok in H. destruct H as [b [Hb H]].
  apply bind_Ok in H. destruct H as [zs [Hz H]]. inversion H; subst.
  destruct Hx as [-> | Hx].
  - left. congruence.
  - right. now apply (IH zs).
Qed.

Lemma mapM_each (A B : Type) (f : A -> result B) (l : list A) (ys : list B)
      (x : A) :
  mapM f l = Ok ys -> In x l -> exists y, f x = Ok y /\ In y ys.
Proof.
  revert ys. induction l as [|a r IH]; intros ys H Hx; [destruct Hx |].
  simpl in H. apply bind_Ok in H. destruct H as [b [Hb H]].
  apply bind_Ok in H. destruct H as [zs [Hz H]]. inversion H; subst.
  destruct Hx as [-> | Hx].
  - exists b. split; [exact Hb | now left].
  - destruct (IH zs Hz Hx) as [y [Hy Hin]]. exists y. split; [exact Hy | now right].
Qed.

Lemma get_contigs_finds (graph : DiGraph) (starting_nodes ending_nodes : list node)
      (contigs : list (string * Z))
      (node_start node_target : node) (path : list node) :
  well_formed graph ->
  (forall n, In n starting_nodes -> n <> "") ->
  get_contigs graph starting_nodes ending_nodes = Ok contigs ->
  In node_start starting_nodes -> In node_target ending_nodes ->
  simple_path graph node_start node_target path ->
  In (contig_of path, contig_length path) contigs.
Proof.
  intros W Hne H Hs Ht Hsp. unfold get_contigs in H.
  apply bind_Ok in H. destruct H as [per_start [Ms H]]. inversion H; subst; clear H.
  destruct (@mapM_each _ _ _ _ _ _ Ms Hs) as [l [Hl Hin]].
  apply in_concat. exists l. split; [exact Hin |].
  apply bind_Ok in Hl. destruct Hl as [per_target [Mt H]]. inversion H; subst; clear H.
  destruct (@mapM_each _ _ _ _ _ _ Mt Ht) as [l' [Hl' Hin']].
  apply in_concat. exists l'. split; [exact Hin' |].
  apply bind_Ok in Hl'. destruct Hl' as [connected [Hc Hl']].
  assert (Hnode : In node_target (nodes graph)).
  { unfold has_path in Hc.
    destruct (has_node graph node_start && has_node graph node_target) eqn:B;
      [| discriminate].
    apply andb_true_iff in B. now apply has_node_In. }
  pose proof (@simple_path_nodes _ _ _ _ W Hnode Hsp) as Hi.
  rewrite (@simple_path_has_path _ _ _ _ Hi Hsp) in Hc. inversion Hc; subst connected.
  apply bind_Ok in Hl'. destruct Hl' as [all_contigs [Ha Hm]].
  destruct (@all_simple_paths_complete _ _ _ _ Hi Hnode Hsp) as [paths [Ha' Hp]].
  rewrite Ha in Ha'. inversion Ha'; subst paths.
  destruct (@mapM_each _ _ _ _ _ _ Hm Hp) as [c [Hj Hcin]].
  apply bind_Ok in Hj. destruct Hj as [seq [Hj E]]. inversion E; subst c; clear E.
  destruct Hsp as [_ [_ [Hh _]]].
  destruct path as [|first rest]; [discriminate |]. inversion Hh; subst first.
  destruct (@join_contig_spelling rest node_start seq (Hne _ Hs) Hj) as [E L].
  subst seq. unfold contig_length. simpl hd. simpl List.length.
  replace (S (List.length rest) - 1) with (List.length rest) by lia.
  rewrite <- L. exact Hcin.
Qed.

(** X17. [get_contigs] misses no simple path: on a graph whose edges join
    nodes of the graph, when no starting node is the empty string and the
    call returns, every simple path from a starting node to an ending node
    has its contig in the list, the first node followed by the last
    character of each other node, with its length. *)
Theorem get_contigs_complete (graph : DiGraph)
        (starting_nodes ending_nodes : list node)
        (contigs : list (string * Z))
        (node_start node_target : node) (path : list node) :
  well_formed graph ->
  (forall n, In n starting_nodes -> n <> "") ->
  get_contigs graph starting_nodes ending_nodes = Ok contigs ->
  In node_start starting_nodes -> In node_target ending_nodes ->
  simple_path graph node_start node_target path ->
  In (contig_of path, contig_length path) contigs.
Proof.
  exact (@get_contigs_finds graph starting_nodes ending_nodes contigs
           node_start node_target path).
Qed.

Lemma get_contigs_complete_witness :
  In (contig_of ["AC"; "CC"; "CT"; "TA"], contig_length ["AC"; "CC"; "CT"; "TA"])
     [("ACGTA", 5%Z); ("ACCTA", 5%Z)].
Proof.
  apply (@get_contigs_complete g_diamond ["AC"] ["TA"]
           [("ACGTA", 5%Z); ("ACCTA", 5%Z)] "AC" "TA" ["AC"; "CC"; "CT"; "TA"]).
  - apply build_graph_invariant.
    intros kmer count H. simpl in H.
    repeat (destruct H as [H | H]; [inversion H; lia |]). destruct H.
  - intros n [<- | []]. discriminate.
  - reflexivity.
  - now left.
  - now left.
  - split; [| split; [| split]].
    + repeat constructor; simpl; intuition discriminate.
    + vm_compute. tauto.
    + reflexivity.
    + reflexivity.
Defined.

(** ** Rounding to a float *)

Lemma round_half_even_ge (y : Q) (j : Z) :
  (inject_Z j <= y)%Q -> (j <= round_half_even y)%Z.
Proof.
  intros H. apply Qfloor_resp_le in H. rewrite Qfloor_Z in H.
  unfold round_half_even.
  destruct (Qcompare _ _); [destruct (Z.even _) | |]; lia.
Qed.

Lemma round_half_even_le (y : Q) (j : Z) :
  (y <= inject_Z j)%Q -> (round_half_even y <= j)%Z.
Proof.
  intros H.
  assert (F : (Qfloor y <= j)%Z)
    by (apply Qfloor_resp_le in H; now rewrite Qfloor_Z in H).
  assert (G : (inject_Z (Qfloor y) < y)%Q -> (Qfloor y + 1 <= j)%Z).
  { intros L. assert (L' := Qlt_le_trans _ _ _ L H).
    rewrite <- Zlt_Qlt in L'. lia. }
  unfold round_half_even.
  destruct (Qcompare_spec (y - inject_Z (Qfloor y)) (1 # 2)) as [E | E | E].
  - destruct (Z.even _); [exact F |]. apply G. lra.
  - exact F.
  - apply G. lra.
Qed.

Lemma two_power_pos (e : Z) : (0 < 2 ^ e)%Q.
Proof. apply Qpower_0_lt. reflexivity. Qed.

(** A multiple of [2^e] below (above) a number is below (above) the
    multiple of [2^e] nearest to the number. *)
Lemma scaled_round_ge (a : Q) (j e : Z) :
  (inject_Z j * 2 ^ e <= a)%Q ->
  (inject_Z j * 2 ^ e <= inject_Z (round_half_even (a / 2 ^ e)) * 2 ^ e)%Q.
Proof.
  intros H. pose proof (two_power_pos e) as P.
  apply Qmult_le_compat_r; [| now apply Qlt_le_weak].
  rewrite <- Zle_Qle. apply round_half_even_ge.
  now apply Qle_shift_div_l.
Qed.

Lemma scaled_round_le (a : Q) (j e : Z) :
  (a <= inject_Z j * 2 ^ e)%Q ->
  (inject_Z (round_half_even (a / 2 ^ e)) * 2 ^ e <= inject_Z j * 2 ^ e)%Q.
Proof.
  intros H. pose proof (two_power_pos e) as P.
  apply Qmult_le_compat_r; [| now apply Qlt_le_weak].
  rewrite <- Zle_Qle. apply round_half_even_le.
  now apply Qle_shift_div_r.
Qed.

(** A multiple of [2^t] is a multiple of [2^e] for [e <= t]. *)
Lemma coarser_multiple (c e t : Z) :
  (e <= t)%Z ->
  (inject_Z c * 2 ^ t == inject_Z (c * 2 ^ (t - e)) * 2 ^ e)%Q.
Proof.
  intros H. rewrite inject_Z_mult, Zpower_Qpower by lia.
  change (inject_Z 2) with 2%Q.
  rewrite <- Qmult_assoc, <- Qpower_plus by discriminate.
  replace (t - e + e)%Z with t by lia. reflexivity.
Qed.

(** [ilog2] is the integer part of the binary logarithm. *)
Lemma ilog2_spec (a : Q) :
  (0 < a)%Q -> (2 ^ ilog2 a <= a)%Q /\ (a < 2 ^ (ilog2 a + 1))%Q.
Proof.
  intros Ha. unfold ilog2.
  set (ln := Z.log2 (Qnum a)). set (ld := Z.log2 (Z.pos (Qden a))).
  assert (Hn : (0 < Qnum a)%Z).
  { destruct a as [n d]. unfold Qlt in Ha. simpl in *. lia. }
  pose proof (Z.log2_spec _ Hn) as [N1 N2]. fold ln in N1, N2.
  pose proof (Z.log2_spec (Z.pos (Qden a)) eq_refl) as [D1 D2]. fold ld in D1, D2.
  assert (Hln : (0 <= ln)%Z) by apply Z.log2_nonneg.
  assert (Hld : (0 <= ld)%Z) by apply Z.log2_nonneg.
  assert (Lo : (2 ^ (ln - ld - 1) < a)%Q).
  { replace (ln - ld - 1)%Z with (ln - Z.succ ld)%Z by lia.
    rewrite Qpower_minus by discriminate.
    change 2%Q with (inject_Z 2). rewrite <- !Zpower_Qpower by lia.
    apply Qlt_shift_div_r.
    - change 0%Q with (inject_Z 0). rewrite <- Zlt_Qlt. lia.
    - destruct a as [n d]. unfold Qlt, Qmult, inject_Z. simpl in *. nia. }
  assert (Hi : (a < 2 ^ (ln - ld + 1))%Q).
  { replace (ln - ld + 1)%Z with (Z.succ ln - ld)%Z by lia.
    rewrite Qpower_minus by discriminate.
    change 2%Q with (inject_Z 2). rewrite <- !Zpower_Qpower by lia.
    apply Qlt_shift_div_l.
    - change 0%Q with (inject_Z 0). rewrite <- Zlt_Qlt. lia.
    - destruct a as [n d]. unfold Qlt, Qmult, inject_Z. simpl in *. nia. }
  destruct (Qle_bool (2 ^ (ln - ld)) a) eqn:B.
  - apply Qle_bool_iff in B. split; assumption.
  - split; [now apply Qlt_le_weak |].
    replace (ln - ld - 1 + 1)%Z with (ln - ld)%Z by lia.
    apply Qnot_le_lt. intros L. apply Qle_bool_iff in L. congruence.
Qed.

Lemma ilog2_lt (a : Q) (p : Z) :
  (0 < a)%Q -> (a < 2 ^ p)%Q -> (ilog2 a < p)%Z.
Proof.
  intros Ha H. destruct (ilog2_spec Ha) as [L _].
  apply (@Qpower_lt_compat_l_inv 2); [| reflexivity].
  eapply Qle_lt_trans; eassumption.
Qed.

(** Rounding to a float does not cross a multiple [c * 2^t] of a power of
    two that is itself a float of at least the magnitude of the number. *)
Lemma float_round_bounds (x : Q) (c t : Z) :
  (-1074 <= t)%Z -> (Qabs x < 2 ^ (t + 53))%Q ->
  ((inject_Z c * 2 ^ t <= x)%Q -> (inject_Z c * 2 ^ t <= float_round x)%Q)
  /\ ((x <= inject_Z c * 2 ^ t)%Q -> (float_round x <= inject_Z c * 2 ^ t)%Q).
Proof.
  intros Ht Hx. unfold float_round.
  destruct (Qeq_bool x 0) eqn:Z0.
  - apply Qeq_bool_iff in Z0. rewrite Z0. tauto.
  - assert (Hnz : ~ (x == 0)%Q) by (intros E; apply Qeq_bool_iff in E; congruence).
    set (a := Qabs x) in *.
    assert (Ha : (0 < a)%Q).
    { destruct (Qlt_le_dec 0 a) as [L | L]; [exact L |].
      exfalso. apply Hnz. pose proof (Qabs_nonneg x) as N. fold a in N.
      assert (E : (a == 0)%Q) by lra.
      unfold a in E. revert E. apply Qabs_case; intros; lra. }
    set (e := Z.max (ilog2 a - 52) (-1074)).
    assert (He : (e <= t)%Z) by (pose proof (@ilog2_lt a (t + 53) Ha Hx); unfold e; lia).
    pose proof (@coarser_multiple c e t He) as G.
    pose proof (@coarser_multiple (- c) e t He) as G'.
    pose proof (@scaled_round_ge a (c * 2 ^ (t - e)) e) as R1.
    pose proof (@scaled_round_le a (c * 2 ^ (t - e)) e) as R2.
    pose proof (@scaled_round_ge a (- c * 2 ^ (t - e)) e) as R3.
    pose proof (@scaled_round_le a (- c * 2 ^ (t - e)) e) as R4.
    rewrite <- G in R1, R2. rewrite <- G' in R3, R4.
    rewrite inject_Z_opp in R3, R4.
    set (m := (inject_Z (round_half_even (a / 2 ^ e)) * 2 ^ e)%Q) in *.
    set (k := (inject_Z c * 2 ^ t)%Q) in *.
    destruct (Qle_bool 0 x) eqn:S.
    + apply Qle_bool_iff in S.
      assert (E : (a == x)%Q) by (apply Qabs_pos; exact S).
      split; intros H; [apply R1 | apply R2]; lra.
    + assert (S' : (x <= 0)%Q).
      { destruct (Qlt_le_dec 0 x) as [L | L]; [| exact L].
        apply Qlt_le_weak, Qle_bool_iff in L. congruence. }
      assert (E : (a == - x)%Q) by (apply Qabs_neg; exact S').
      assert (Ek : (- inject_Z c * 2 ^ t == - k)%Q) by (unfold k; ring).
      rewrite Ek in R3, R4.
      split; intros H.
      * assert (M : (m <= - k)%Q) by (apply R4; lra). lra.
      * assert (M : (- k <= m)%Q) by (apply R3; lra). lra.
Qed.

Lemma ilog2_unique (a : Q) (k : Z) :
  (2 ^ k <= a)%Q -> (a < 2 ^ (k + 1))%Q -> ilog2 a = k.
Proof.
  intros L U.
  assert (Ha : (0 < a)%Q) by (eapply Qlt_le_trans; [apply two_power_pos | exact L]).
  destruct (ilog2_spec Ha) as [L' U'].
  assert (K1 : (k < ilog2 a + 1)%Z).
  { apply (@Qpower_lt_compat_l_inv 2); [| reflexivity].
    eapply Qle_lt_trans; eassumption. }
  assert (K2 : (ilog2 a < k + 1)%Z).
  { apply (@Qpower_lt_compat_l_inv 2); [| reflexivity].
    eapply Qle_lt_trans; eassumption. }
  lia.
Qed.

Lemma ilog2_comp (a b : Q) : (0 < a)%Q -> (a == b)%Q -> ilog2 a = ilog2 b.
Proof.
  intros Ha E. symmetry. destruct (ilog2_spec Ha) as [L U].
  apply ilog2_unique; rewrite <- E; assumption.
Qed.

Lemma round_half_even_comp (x y : Q) :
  (x == y)%Q -> round_half_even x = round_half_even y.
Proof.
  intros E. unfold round_half_even.
  rewrite (Qfloor_comp _ _ E).
  assert (C : ((x - inject_Z (Qfloor y)) ?= (1 # 2))%Q
              = ((y - inject_Z (Qfloor y)) ?= (1 # 2))%Q)
    by (now rewrite E).
  now rewrite C.
Qed.

(** Numbers of the same value round to the same float. *)
Lemma float_round_comp (x y : Q) :
  (x == y)%Q -> (float_round x == float_round y)%Q.
Proof.
  intros E. unfold float_round.
  assert (Z0 : Qeq_bool x 0 = Qeq_bool y 0).
  { destruct (Qeq_bool y 0) eqn:B.
    - apply Qeq_bool_iff. apply Qeq_bool_iff in B. now rewrite E.
    - destruct (Qeq_bool x 0) eqn:B'; [| reflexivity].
      apply Qeq_bool_iff in B'. rewrite E in B'. apply Qeq_bool_iff in B'. congruence. }
  rewrite Z0. destruct (Qeq_bool y 0) eqn:B; [reflexivity |].
  assert (Ea : (Qabs x == Qabs y)%Q) by (now rewrite E).
  assert (Ha : (0 < Qabs x)%Q).
  { destruct (Qlt_le_dec 0 (Qabs x)) as [L | L]; [exact L |].
    exfalso. pose proof (Qabs_nonneg x) as N.
    assert (E0 : (Qabs x == 0)%Q) by lra.
    assert (Ex : (x == 0)%Q) by (revert E0; apply Qabs_case; intros; lra).
    rewrite E in Ex. apply Qeq_bool_iff in Ex. congruence. }
  rewrite (ilog2_comp Ha Ea).
  set (e := Z.max (ilog2 (Qabs y) - 52) (-1074)).
  assert (Er : round_half_even (Qabs x / 2 ^ e) = round_half_even (Qabs y / 2 ^ e))
    by (apply round_half_even_comp; now rewrite Ea).
  rewrite Er.
  assert (S : Qle_bool 0 x = Qle_bool 0 y).
  { destruct (Qle_bool 0 y) eqn:B1.
    - apply Qle_bool_iff. apply Qle_bool_iff in B1. now rewrite E.
    - destruct (Qle_bool 0 x) eqn:B2; [| reflexivity].
      apply Qle_bool_iff in B2. rewrite E in B2. apply Qle_bool_iff in B2. congruence. }
  rewrite S. reflexivity.
Qed.

(** ** The nearest float *)

Lemma Qabs_cases (z : Q) :
  ((0 <= z)%Q /\ (Qabs z == z)%Q) \/ ((z <= 0)%Q /\ (Qabs z == - z)%Q).
Proof.
  destruct (Qlt_le_dec z 0) as [L | L].
  - right. split; [now apply Qlt_le_weak |]. apply Qabs_neg. now apply Qlt_le_weak.
  - left. split; [exact L |]. now apply Qabs_pos.
Qed.

Lemma floor_bounds (y : Q) :
  (inject_Z (Qfloor y) <= y)%Q /\ (y < inject_Z (Qfloor y) + 1)%Q.
Proof.
  split; [apply Qfloor_le |].
  pose proof (Qlt_floor y) as H. rewrite inject_Z_plus in H. exact H.
Qed.

Lemma integer_sides (k r : Z) :
  (inject_Z k + 1 <= inject_Z r)%Q \/ k = r \/ (inject_Z r + 1 <= inject_Z k)%Q.
Proof.
  change 1%Q with (inject_Z 1). rewrite <- !inject_Z_plus, <- !Zle_Qle. lia.
Qed.

Lemma round_half_even_cases (y : Q) :
  (- (1 # 2) <= y - inject_Z (round_half_even y) <= 1 # 2)%Q
  /\ ((y - inject_Z (round_half_even y) == 1 # 2)%Q
      \/ (y - inject_Z (round_half_even y) == - (1 # 2))%Q ->
      Z.even (round_half_even y) = true).
Proof.
  pose proof (floor_bounds y) as [F1 F2].
  unfold round_half_even. set (f := Qfloor y) in *.
  assert (E1 : (inject_Z (f + 1) == inject_Z f + 1)%Q)
    by (rewrite inject_Z_plus; reflexivity).
  destruct (Qcompare_spec (y - inject_Z f) (1 # 2)) as [C | C | C].
  - destruct (Z.even f) eqn:Ev.
    + split; [lra | intros _; exact Ev].
    + rewrite E1. split; [lra |]. intros _.
      rewrite Z.add_1_r, Z.even_succ, <- Z.negb_even, Ev. reflexivity.
  - split; [lra |]. intros [H | H]; exfalso; lra.
  - rewrite E1. split; [lra |]. intros [H | H]; exfalso; lra.
Qed.

(** [round_half_even] gives a nearest integer, and the even one of two. *)
Lemma nearest_integer (y : Q) (k : Z) :
  (Qabs (y - inject_Z (round_half_even y)) <= Qabs (y - inject_Z k))%Q
  /\ ((Qabs (y - inject_Z (round_half_even y)) == Qabs (y - inject_Z k))%Q ->
      k <> round_half_even y ->
      Z.even (round_half_even y) = true
      /\ (k = round_half_even y + 1 \/ k = round_half_even y - 1)%Z).
Proof.
  destruct (round_half_even_cases y) as [[B1 B2] Ev].
  set (r := round_half_even y) in *.
  destruct (Qabs_cases (y - inject_Z r)) as [[S1 A1] | [S1 A1]];
    destruct (Qabs_cases (y - inject_Z k)) as [[S2 A2] | [S2 A2]];
    rewrite A1, A2;
    (destruct (integer_sides k r) as [K | [K | K]];
     [| subst k; split; [lra | intros _ N; congruence] |]);
    (split; [lra |]); intros T N.
  all: assert (Hk : (inject_Z k == inject_Z r + 1)%Q
                    \/ (inject_Z k == inject_Z r - 1)%Q) by
      (first [left; lra | right; lra]).
  all: split; [apply Ev; first [left; lra | right; lra] |].
  all: destruct Hk as [Hk | Hk]; [left | right].
  all: apply inject_Z_injective; rewrite Hk.
  all: first [rewrite inject_Z_plus; reflexivity
             | unfold Z.sub; rewrite inject_Z_plus; reflexivity].
Qed.

Lemma Qabs_scale (z P : Q) : (0 < P)%Q -> (Qabs (z * P) == Qabs z * P)%Q.
Proof.
  intros H. rewrite Qabs_Qmult. rewrite (Qabs_pos P); [reflexivity |].
  now apply Qlt_le_weak.
Qed.

Lemma two_power_le (p q : Z) : (p <= q)%Z -> (2 ^ p <= 2 ^ q)%Q.
Proof. intros H. apply Qpower_le_compat_l; [exact H | discriminate]. Qed.

Lemma is_float_opp (f : Q) : is_float f -> is_float (- f).
Proof.
  intros [m [e [Hm [He E]]]]. exists (- m)%Z, e.
  split; [lia |]. split; [exact He |].
  rewrite E, inject_Z_opp. ring.
Qed.

(** A float on a finer grid than [2^e] is below [2^(e + 52)]. *)
Lemma finer_float_small (g : Q) (m e' e : Z) :
  (Z.abs m < 2 ^ 53)%Z -> (e' < e)%Z -> (g == inject_Z m * 2 ^ e')%Q ->
  (g < 2 ^ (e + 52))%Q.
Proof.
  intros Hm He E. rewrite E.
  apply Qlt_le_trans with (y := (inject_Z (2 ^ 53) * 2 ^ e')%Q).
  - apply Qmult_lt_compat_r; [apply two_power_pos |].
    rewrite <- Zlt_Qlt. lia.
  - rewrite Zpower_Qpower by lia. change (inject_Z 2) with 2%Q.
    rewrite <- Qpower_plus by discriminate. apply two_power_le. lia.
Qed.

Lemma round_positive_nearest (a : Q) :
  (0 < a)%Q -> (a < inject_Z (2 ^ 1024 - 2 ^ 970))%Q ->
  is_float (inject_Z (round_half_even (a / 2 ^ Z.max (ilog2 a - 52) (-1074)))
            * 2 ^ Z.max (ilog2 a - 52) (-1074))
  /\ forall g, is_float g ->
       (Qabs (a - inject_Z (round_half_even (a / 2 ^ Z.max (ilog2 a - 52) (-1074)))
                  * 2 ^ Z.max (ilog2 a - 52) (-1074))
        <= Qabs (a - g))%Q
       /\ ((Qabs (a - inject_Z (round_half_even
                                  (a / 2 ^ Z.max (ilog2 a - 52) (-1074)))
                      * 2 ^ Z.max (ilog2 a - 52) (-1074))
            == Qabs (a - g))%Q ->
           ~ (g == inject_Z (round_half_even (a / 2 ^ Z.max (ilog2 a - 52) (-1074)))
                   * 2 ^ Z.max (ilog2 a - 52) (-1074))%Q ->
           exists k : Z,
             (inject_Z (round_half_even (a / 2 ^ Z.max (ilog2 a - 52) (-1074)))
              * 2 ^ Z.max (ilog2 a - 52) (-1074)
              == inject_Z (2 * k)
                 * (g - inject_Z (round_half_even
                                    (a / 2 ^ Z.max (ilog2 a - 52) (-1074)))
                        * 2 ^ Z.max (ilog2 a - 52) (-1074)))%Q).
Proof.
  intros Ha Hb.
  destruct (ilog2_spec Ha) as [L U].
  assert (Hil : (ilog2 a < 1024)%Z).
  { apply ilog2_lt; [exact Ha |]. eapply Qlt_trans; [exact Hb |].
    vm_compute. reflexivity. }
  set (il := ilog2 a) in *. set (e := Z.max (il - 52) (-1074)).
  pose proof (two_power_pos e) as HP.
  set (P := (2 ^ e)%Q) in *.
  assert (HP0 : ~ (P == 0)%Q) by lra.
  set (y := (a / P)%Q).
  assert (Ey : (a == y * P)%Q) by (unfold y; field; exact HP0).
  destruct (round_half_even_cases y) as [[B1 B2] _].
  set (r := round_half_even y) in *.
  assert (Hy0 : (0 <= y)%Q).
  { unfold y. apply Qle_shift_div_l; [exact HP | lra]. }
  assert (Hy : (y < inject_Z (2 ^ 53))%Q).
  { unfold y. apply Qlt_shift_div_r; [exact HP |].
    eapply Qlt_le_trans; [exact U |].
    rewrite Zpower_Qpower by lia. change (inject_Z 2) with 2%Q.
    unfold P. rewrite <- Qpower_plus by discriminate. apply two_power_le.
    unfold e. lia. }
  assert (Hr0 : (0 <= r)%Z) by (apply round_half_even_ge; exact Hy0).
  assert (Hr : (r <= 2 ^ 53)%Z)
    by (apply round_half_even_le; now apply Qlt_le_weak).
  assert (Ea : forall k : Z, (a - inject_Z k * P == (y - inject_Z k) * P)%Q)
    by (intros k; rewrite Ey; ring).
  split.
  - destruct (Z.eq_dec r (2 ^ 53)) as [E53 | N53].
    + assert (He : (e <= 970)%Z).
      { destruct (Z_le_gt_dec e 970) as [H | H]; [exact H | exfalso].
        assert (E971 : e = 971%Z) by (unfold e in *; lia).
        assert (Hy' : (y < inject_Z (2 ^ 53) - (1 # 2))%Q).
        { unfold y. apply Qlt_shift_div_r; [exact HP |].
          eapply Qlt_le_trans; [exact Hb |].
          unfold P. rewrite E971. vm_compute. discriminate. }
        rewrite E53 in B1. lra. }
      exists (2 ^ 52)%Z, (e + 1)%Z. split; [vm_compute; reflexivity |].
      split; [unfold e in *; lia |].
      rewrite E53.
      rewrite (@coarser_multiple (2 ^ 52) e (e + 1)) by lia.
      replace (e + 1 - e)%Z with 1%Z by lia. reflexivity.
    + exists r, e. split; [lia |]. split; [unfold e; lia | reflexivity].
  - intros g [m [e' [Hm [He' Eg]]]].
    destruct (Z_le_gt_dec e e') as [Hee | Hee].
    + pose proof (@coarser_multiple m e e' Hee) as G. fold P in G.
      set (k := (m * 2 ^ (e' - e))%Z) in *.
      assert (Eg' : (g == inject_Z k * P)%Q) by (rewrite Eg; exact G).
      destruct (nearest_integer y k) as [N1 N2]. fold r in N1, N2.
      assert (A1 : (Qabs (a - inject_Z r * P) == Qabs (y - inject_Z r) * P)%Q)
        by (rewrite Ea; now apply Qabs_scale).
      assert (A2 : (Qabs (a - g) == Qabs (y - inject_Z k) * P)%Q)
        by (rewrite Eg', Ea; now apply Qabs_scale).
      split.
      * rewrite A1, A2. apply Qmult_le_compat_r; [exact N1 | lra].
      * intros T Ng. rewrite A1, A2 in T.
        apply Qmult_inj_r in T; [| exact HP0].
        assert (Nk : k <> r).
        { intros E. apply Ng. rewrite Eg', E. reflexivity. }
        destruct (N2 T Nk) as [Ev K].
        apply Z.even_spec in Ev. destruct Ev as [h Eh].
        destruct K as [K | K].
        -- exists h. rewrite Eg', K, Eh, !inject_Z_plus, !inject_Z_mult.
           change (inject_Z 1) with 1%Q. ring.
        -- exists (- h)%Z. rewrite Eg', K, Eh. unfold Z.sub.
           rewrite !inject_Z_plus, !inject_Z_mult, !inject_Z_opp.
           change (inject_Z 1) with 1%Q. ring.
    + assert (E52 : e = (il - 52)%Z) by (unfold e in *; lia).
      assert (Sm : (g < 2 ^ il)%Q).
      { replace il with (e + 52)%Z by lia.
        exact (@finer_float_small g m e' e Hm ltac:(lia) Eg). }
      assert (Gr : (2 ^ il == inject_Z (2 ^ 52) * P)%Q).
      { rewrite Zpower_Qpower by lia. change (inject_Z 2) with 2%Q.
        unfold P. rewrite <- Qpower_plus by discriminate.
        replace (52 + e)%Z with il by lia. reflexivity. }
      destruct (nearest_integer y (2 ^ 52)) as [N1 _]. fold r in N1.
      assert (A1 : (Qabs (a - inject_Z r * P) == Qabs (y - inject_Z r) * P)%Q)
        by (rewrite Ea; now apply Qabs_scale).
      assert (A2 : (Qabs (a - 2 ^ il) == Qabs (y - inject_Z (2 ^ 52)) * P)%Q)
        by (rewrite Gr, Ea; now apply Qabs_scale).
      assert (A3 : (Qabs (a - inject_Z r * P) <= Qabs (a - 2 ^ il))%Q).
      { rewrite A1, A2. apply Qmult_le_compat_r; [exact N1 | lra]. }
      assert (A4 : (Qabs (a - 2 ^ il) == a - 2 ^ il)%Q) by (apply Qabs_pos; lra).
      assert (A5 : (Qabs (a - g) == a - g)%Q) by (apply Qabs_pos; lra).
      split; [lra |]. intros T _. exfalso. lra.
Qed.

(** [float_round] gives the float nearest to a number that is not too
    large, and the even one of two. *)
Lemma float_round_nearest (x : Q) :
  (Qabs x < inject_Z (2 ^ 1024 - 2 ^ 970))%Q -> nearest_float x (float_round x).
Proof.
  intros Hb. unfold float_round.
  destruct (Qeq_bool x 0) eqn:Z0.
  - apply Qeq_bool_iff in Z0. split.
    + exists 0%Z, 0%Z. split; [reflexivity |]. split; [lia | reflexivity].
    + intros f' _.
      assert (E0 : (Qabs (x - 0) == 0)%Q) by (rewrite Z0; reflexivity).
      rewrite E0. split; [apply Qabs_nonneg |].
      intros T N. exfalso. apply N.
      destruct (Qabs_cases (x - f')) as [[S A] | [S A]]; lra.
  - assert (Hnz : ~ (x == 0)%Q) by (intros E; apply Qeq_bool_iff in E; congruence).
    assert (Ha : (0 < Qabs x)%Q).
    { destruct (Qabs_cases x) as [[S A] | [S A]]; rewrite A;
        destruct (Qlt_le_dec 0 x); lra. }
    destruct (round_positive_nearest Ha Hb) as [F N].
    destruct (Qle_bool 0 x) eqn:S.
    + apply Qle_bool_iff in S.
      assert (E : (Qabs x == x)%Q) by (now apply Qabs_pos).
      set (fr := (inject_Z (round_half_even
                              (Qabs x / 2 ^ Z.max (ilog2 (Qabs x) - 52) (-1074)))
                  * 2 ^ Z.max (ilog2 (Qabs x) - 52) (-1074))%Q) in *.
      clearbody fr. split; [exact F |].
      intros f' Hf'. destruct (N f' Hf') as [N1 N2].
      assert (X1 : (x - fr == Qabs x - fr)%Q) by lra.
      assert (X2 : (x - f' == Qabs x - f')%Q) by lra.
      rewrite X1, X2. split; assumption.
    + assert (S' : (x <= 0)%Q).
      { destruct (Qlt_le_dec 0 x) as [L | L]; [| exact L].
        apply Qlt_le_weak, Qle_bool_iff in L. congruence. }
      assert (E : (Qabs x == - x)%Q) by (now apply Qabs_neg).
      set (fr := (inject_Z (round_half_even
                              (Qabs x / 2 ^ Z.max (ilog2 (Qabs x) - 52) (-1074)))
                  * 2 ^ Z.max (ilog2 (Qabs x) - 52) (-1074))%Q) in *.
      clearbody fr. split; [now apply is_float_opp |].
      intros f' Hf'. destruct (N (- f')%Q (is_float_opp Hf')) as [N1 N2].
      assert (X1 : (x - - fr == - (Qabs x - fr))%Q) by lra.
      assert (X2 : (x - f' == - (Qabs x - - f'))%Q) by lra.
      rewrite X1, X2, !Qabs_opp. split; [exact N1 |].
      intros T Nf. destruct (N2 T) as [k Hk].
      * intros G. apply Nf. lra.
      * exists k.
        transitivity (- (inject_Z (2 * k) * (- f' - fr)))%Q;
          [apply Qopp_comp; exact Hk | ring].
Qed.

(** There is one nearest float at most. *)
Lemma nearest_float_unique (x f f' : Q) :
  nearest_float x f -> nearest_float x f' -> (f == f')%Q.
Proof.
  intros [F N] [F' N'].
  destruct (N f' F') as [N1 N2]. destruct (N' f F) as [N1' N2'].
  destruct (Qeq_dec f f') as [E | D]; [exact E | exfalso].
  assert (T : (Qabs (x - f) == Qabs (x - f'))%Q) by (apply Qle_antisym; assumption).
  destruct (N2 T) as [k Hk]; [intros G; apply D; now symmetry |].
  destruct (N2' (Qeq_sym _ _ T) D) as [k' Hk'].
  assert (Z0 : (inject_Z (1 + 2 * (k + k')) * (f' - f) == 0)%Q).
  { rewrite inject_Z_plus, !inject_Z_mult, inject_Z_plus.
    rewrite inject_Z_mult in Hk, Hk'.
    change (inject_Z 1) with 1%Q.
    transitivity ((f' - f) + inject_Z 2 * inject_Z k * (f' - f)
                  - inject_Z 2 * inject_Z k' * (f - f'))%Q; [ring |].
    rewrite <- Hk, <- Hk'. ring. }
  apply Qmult_integral in Z0. destruct Z0 as [Z0 | Z0].
  - assert (Hz : (1 + 2 * (k + k') = 0)%Z)
      by (apply inject_Z_injective; exact Z0).
    lia.
  - apply D. lra.
Qed.

Lemma nearest_float_comp (x x' f : Q) :
  (x == x')%Q -> nearest_float x f -> nearest_float x' f.
Proof.
  intros E [F N]. split; [exact F |].
  intros f' Hf'. destruct (N f' Hf') as [N1 N2].
  rewrite <- E. split; assumption.
Qed.

(** The least positive float and the greatest float. *)
Lemma float_min_least :
  is_float float_min
  /\ forall f, is_float f -> (0 < f)%Q -> (float_min <= f)%Q.
Proof.
  split.
  - exists 1%Z, (-1074)%Z. split; [reflexivity |]. split; [lia |].
    vm_compute. reflexivity.
  - intros f [m [e [Hm [He E]]]] Hf. rewrite E in *.
    pose proof (two_power_pos e) as P.
    assert (M : (1 <= m)%Z).
    { destruct (Z_lt_le_dec m 1) as [L | L]; [exfalso | exact L].
      assert (Hq : (inject_Z m <= 0)%Q)
        by (change 0%Q with (inject_Z 0); rewrite <- Zle_Qle; lia).
      assert (H0 : (inject_Z m * 2 ^ e <= 0 * 2 ^ e)%Q)
        by (apply Qmult_le_compat_r; [exact Hq | lra]).
      lra. }
    apply Qle_trans with (y := (2 ^ e)%Q).
    + assert (E0 : (float_min == 2 ^ (-1074))%Q) by (vm_compute; reflexivity).
      rewrite E0. apply two_power_le. lia.
    + assert (Hq : (1 <= inject_Z m)%Q)
        by (change 1%Q with (inject_Z 1); rewrite <- Zle_Qle; lia).
      assert (H1 : (1 * 2 ^ e <= inject_Z m * 2 ^ e)%Q)
        by (apply Qmult_le_compat_r; [exact Hq | lra]).
      lra.
Qed.

Lemma float_max_greatest :
  is_float (inject_Z (2 ^ 1024 - 2 ^ 971))
  /\ (forall f, is_float f -> (f <= inject_Z (2 ^ 1024 - 2 ^ 971))%Q)
  /\ (float_overflow
      == (inject_Z (2 ^ 1024 - 2 ^ 971) + inject_Z (2 ^ 1024)) / 2)%Q.
Proof.
  split; [| split].
  - exists (2 ^ 53 - 1)%Z, 971%Z. split; [vm_compute; reflexivity |].
    split; [lia |]. vm_compute. reflexivity.
  - intros f [m [e [Hm [He E]]]]. rewrite E.
    pose proof (two_power_pos e) as P.
    assert (E0 : (inject_Z (2 ^ 1024 - 2 ^ 971) == inject_Z (2 ^ 53 - 1) * 2 ^ 971)%Q)
      by (vm_compute; reflexivity).
    rewrite E0.
    destruct (Z_lt_le_dec m 0) as [L | L].
    + apply Qle_trans with (y := 0%Q).
      * assert (Hq : (inject_Z m <= 0)%Q)
          by (change 0%Q with (inject_Z 0); rewrite <- Zle_Qle; lia).
        assert (H0 : (inject_Z m * 2 ^ e <= 0 * 2 ^ e)%Q)
          by (apply Qmult_le_compat_r; [exact Hq | lra]).
        lra.
      * vm_compute. discriminate.
    + apply Qle_trans with (y := (inject_Z (2 ^ 53 - 1) * 2 ^ e)%Q).
      * apply Qmult_le_compat_r; [rewrite <- Zle_Qle; lia | lra].
      * rewrite !(Qmult_comm (inject_Z (2 ^ 53 - 1))).
        apply Qmult_le_compat_r; [apply two_power_le; lia | vm_compute; discriminate].
  - vm_compute. reflexivity.
Qed.

(** The conversions at work: a mean that is not whole is rounded
    ([mean([1, 1, 2])] is 1.3333333333333333), above [2^53] the rounded mean
    can be below every datum, and a standard deviation of half the smallest
    float or less is [0.0] although the data differ. *)
Example mean_is_rounded :
  mean [1; 1; 2]%Z = Ok (inject_Z 6004799503160661 * 2 ^ (- 52))%Q.
Proof. vm_compute. reflexivity. Qed.

Example mean_below_the_data :
  mean [2 ^ 54 + 1; 2 ^ 54 + 1; 2 ^ 54 + 2]%Z = Ok (inject_Z (2 ^ 52) * 2 ^ 2)%Q.
Proof. vm_compute. reflexivity. Qed.

Example stdev_rounded_to_zero :
  stdev_positive [0; 0; 0; 0; float_min]%Q = Ok false
  /\ stdev_positive [0; float_min]%Q = Ok true.
Proof. split; vm_compute; reflexivity. Qed.

(** ** Standard deviations that fit in a float *)

Lemma sum_squares_le (M : Q) (data : list Q) :
  (forall x, In x data -> (Qabs x <= M)%Q) ->
  (sumQ (map (fun x => x * x) data) <= Qlen data * (M * M))%Q.
Proof.
  induction data as [|x r IH]; intros H.
  - unfold Qlen. simpl. rewrite Qmult_0_l. apply Qle_refl.
  - assert (Hx : (- M <= x <= M)%Q)
      by (apply Qabs_Qle_condition, H; now left).
    assert (Hr := IH (fun y Hy => H y (or_intror Hy))).
    change (sumQ (map (fun y => y * y) (x :: r)))%Q
      with (x * x + sumQ (map (fun y => y * y) r))%Q.
    rewrite Qlen_cons. nra.
Qed.

Lemma ss_le_sum_squares (data : list Q) :
  (0 < Qlen data)%Q -> (ss data <= sumQ (map (fun x => x * x) data))%Q.
Proof.
  intros H. unfold ss. apply Qle_shift_div_r; [exact H |]. nra.
Qed.

(** Data of at most [2^1023] in absolute value have a standard deviation
    that fits in a float: their variance is at most [2^2047]. *)
Lemma bounded_stdev_fits (data : list Q) :
  2 <= List.length data ->
  (forall x, In x data -> (Qabs x <= inject_Z (2 ^ 1023))%Q) ->
  stdev_fits data.
Proof.
  intros Hn H. unfold stdev_fits.
  rewrite <- (ss_sample_variance data Hn).
  assert (N2 : (2 <= Qlen data)%Q).
  { unfold Qlen. change 2%Q with (inject_Z 2). rewrite <- Zle_Qle. lia. }
  pose proof (sum_squares_le data H) as S1.
  pose proof (@ss_le_sum_squares data ltac:(lra)) as S2.
  assert (B : (2 * (inject_Z (2 ^ 1023) * inject_Z (2 ^ 1023))
               < inject_Z ((2 ^ 1024 - 2 ^ 970) ^ 2))%Q)
    by (vm_compute; reflexivity).
  assert (P : (0 <= inject_Z (2 ^ 1023) * inject_Z (2 ^ 1023))%Q)
    by (vm_compute; discriminate).
  revert S1 B P. generalize (inject_Z (2 ^ 1023) * inject_Z (2 ^ 1023))%Q.
  generalize (inject_Z ((2 ^ 1024 - 2 ^ 970) ^ 2))%Q.
  intros F M2 S1 B P.
  apply Qle_lt_trans with (y := (2 * M2)%Q); [| exact B].
  apply Qle_shift_div_r; [lra |]. nra.
Qed.

Lemma stdev_positive_raises (data : list Q) (x : exn) :
  2 <= List.length data -> stdev_positive data = Raise x -> x = OverflowError.
Proof.
  intros Hn. unfold stdev_positive.
  assert (E : (List.length data <? 2) = false) by (apply Nat.ltb_ge; lia).
  rewrite E. cbv zeta. destruct (Qle_bool _ _); [| discriminate].
  intros H. now inversion H.
Qed.

(** ** The average weight of a path *)

Lemma subgraph_edges_In (g : DiGraph) (path : list node) (e : edge) :
  well_formed g ->
  (In e (subgraph_edges g path)
   <-> In e (edges g) /\ In (src e) path /\ In (dst e) path).
Proof.
  intros W. unfold subgraph_edges.
  rewrite filter_In, andb_true_iff, !mem_In.
  pose proof (edges_view_perm W) as P. split.
  - intros [H B]. split; [| exact B]. eapply Permutation_in; eassumption.
  - intros [H B]. split; [| exact B].
    eapply Permutation_in; [apply Permutation_sym |]; eassumption.
Qed.

Lemma sum_between (lo hi : Z) (data : list Z) :
  (forall x, In x data -> (lo <= x <= hi)%Z) ->
  (Z.of_nat (List.length data) * lo <= fold_right Z.add 0%Z data
   <= Z.of_nat (List.length data) * hi)%Z.
Proof.
  induction data as [|x r IH]; intros H; [simpl; lia |].
  assert (Hx := H x (or_introl eq_refl)).
  assert (Hr := IH (fun y Hy => H y (or_intror Hy))).
  cbn [fold_right List.length]. rewrite Nat2Z.inj_succ. lia.
Qed.

(** The mean of integers lies between any two integers that bound them and
    that are at most [2^53] in absolute value: these are floats, which the
    rounding of the mean does not cross. *)
Lemma mean_between (data : list Z) (lo hi : Z) (m : Q) :
  (forall x, In x data -> (lo <= x <= hi)%Z) ->
  (- 2 ^ 53 <= lo)%Z -> (hi <= 2 ^ 53)%Z ->
  mean data = Ok m -> (inject_Z lo <= m <= inject_Z hi)%Q.
Proof.
  intros H Hlo Hhi E. unfold mean in E.
  destruct data as [|x0 r0] eqn:D; [discriminate |]. rewrite <- D in *.
  pose proof (sum_between data H) as [S1 S2].
  set (total := fold_right Z.add 0%Z data) in *.
  set (n := Z.of_nat (List.length data)) in *.
  assert (Hn : (0 < n)%Z) by (unfold n; rewrite D; simpl; lia).
  assert (Hq : (0 < inject_Z n)%Q)
    by (change 0%Q with (inject_Z 0); now rewrite <- Zlt_Qlt).
  assert (B : (inject_Z lo <= inject_Z total / inject_Z n <= inject_Z hi)%Q).
  { split.
    - apply Qle_shift_div_l; [exact Hq |].
      rewrite <- inject_Z_mult, <- Zle_Qle. lia.
    - apply Qle_shift_div_r; [exact Hq |].
      rewrite <- inject_Z_mult, <- Zle_Qle. lia. }
  destruct (total mod n =? 0)%Z eqn:W; [inversion E; subst m; exact B |].
  unfold float_of_fraction in E.
  destruct (Qle_bool float_overflow _); [discriminate |].
  inversion E; subst m. clear E.
  apply Z.eqb_neq in W.
  assert (U : (total <> 2 ^ 53 * n)%Z)
    by (intros U; apply W; rewrite U; apply Z.mod_mul; lia).
  assert (L : (total <> - 2 ^ 53 * n)%Z)
    by (intros L; apply W; rewrite L; apply Z.mod_mul; lia).
  assert (A : (Qabs (inject_Z total / inject_Z n) < 2 ^ (0 + 53))%Q).
  { change (2 ^ (0 + 53))%Q with (inject_Z (2 ^ 53)).
    apply Qabs_Qlt_condition. split.
    - apply Qlt_shift_div_l; [exact Hq |].
      rewrite <- inject_Z_opp, <- inject_Z_mult, <- Zlt_Qlt. nia.
    - apply Qlt_shift_div_r; [exact Hq |].
      rewrite <- inject_Z_mult, <- Zlt_Qlt. nia. }
  destruct B as [B1 B2].
  destruct (@float_round_bounds (inject_Z total / inject_Z n) lo 0
              ltac:(lia) A) as [F1 _].
  destruct (@float_round_bounds (inject_Z total / inject_Z n) hi 0
              ltac:(lia) A) as [_ F2].
  change (2 ^ 0)%Q with 1%Q in F1, F2. rewrite Qmult_1_r in F1, F2.
  split; [now apply F1 | now apply F2].
Qed.

Lemma path_average_weight_cases (g : DiGraph) (path : list node) :
  well_formed g ->
  match path_average_weight g path with
  | Ok w =>
      (exists e, In e (edges g) /\ In (src e) path /\ In (dst e) path)
      /\ forall lo hi,
           (- 2 ^ 53 <= lo)%Z -> (hi <= 2 ^ 53)%Z ->
           (forall e, In e (edges g) -> In (src e) path -> In (dst e) path ->
                      (lo <= weight e <= hi)%Z) ->
           (inject_Z lo <= w <= inject_Z hi)%Q
  | Raise x =>
      (x = StatisticsError
       /\ forall e, In e (edges g) -> ~ (In (src e) path /\ In (dst e) path))
      \/ (x = OverflowError
          /\ exists e, In e (edges g) /\ In (src e) path /\ In (dst e) path
                       /\ (2 ^ 1024 - 2 ^ 970 <= Z.abs (weight e))%Z)
  end.
Proof.
  intros W.
  destruct (path_average_weight g path) as [w|x] eqn:M.
  - unfold path_average_weight in M. split.
    + destruct (subgraph_edges g path) as [|e r] eqn:S; [discriminate |].
      exists e. apply (subgraph_edges_In path e W). rewrite S. now left.
    + intros lo hi Hlo Hhi H. apply (@mean_between _ lo hi w) in M; auto.
      intros q Hq. apply in_map_iff in Hq. destruct Hq as [e [<- He]].
      apply (subgraph_edges_In path e W) in He. destruct He as [He [Hs Hd]].
      now apply H.
  - apply path_average_weight_raises in M.
    destruct M as [[-> E] | M]; [left | now right].
    split; [reflexivity |]. intros e He B.
    assert (Hin : In e (subgraph_edges g path))
      by (apply (subgraph_edges_In path e W); tauto).
    rewrite E in Hin. destruct Hin.
Qed.

(** X18. On a graph whose edges join nodes of the graph,
    [path_average_weight] raises StatisticsError exactly when no edge of the
    graph has its two ends among the nodes of the path (a path of one node
    without a loop, for instance); it raises OverflowError only when one of
    the edges that have their two ends among the nodes of the path weighs
    [2^1024 - 2^970] or more, and it raises nothing else.  The value
    returned, an exact integer or the float nearest to the mean, lies
    between any two integers that bound the weights of these edges and are
    at most [2^53] in absolute value; beyond [2^53] the rounding can leave
    the range of the weights. *)
Theorem path_average_weight_outcome (g : DiGraph) (path : list node) :
  well_formed g ->
  match path_average_weight g path with
  | Ok w =>
      (exists e, In e (edges g) /\ In (src e) path /\ In (dst e) path)
      /\ forall lo hi,
           (- 2 ^ 53 <= lo)%Z -> (hi <= 2 ^ 53)%Z ->
           (forall e, In e (edges g) -> In (src e) path -> In (dst e) path ->
                      (lo <= weight e <= hi)%Z) ->
           (inject_Z lo <= w <= inject_Z hi)%Q
  | Raise x =>
      (x = StatisticsError
       /\ forall e, In e (edges g) -> ~ (In (src e) path /\ In (dst e) path))
      \/ (x = OverflowError
          /\ exists e, In e (edges g) /\ In (src e) path /\ In (dst e) path
                       /\ (2 ^ 1024 - 2 ^ 970 <= Z.abs (weight e))%Z)
  end.
Proof.
  exact (@path_average_weight_cases g path).
Qed.

Lemma path_average_weight_outcome_witness :
  match path_average_weight g_bubble ["AC"; "CC"; "CG"] with
  | Ok w =>
      (exists e, In e (edges g_bubble)
                 /\ In (src e) ["AC"; "CC"; "CG"] /\ In (dst e) ["AC"; "CC"; "CG"])
      /\ forall lo hi,
           (- 2 ^ 53 <= lo)%Z -> (hi <= 2 ^ 53)%Z ->
           (forall e, In e (edges g_bubble) ->
                      In (src e) ["AC"; "CC"; "CG"] -> In (dst e) ["AC"; "CC"; "CG"] ->
                      (lo <= weight e <= hi)%Z) ->
           (inject_Z lo <= w <= inject_Z hi)%Q
  | Raise x =>
      (x = StatisticsError
       /\ forall e, In e (edges g_bubble) ->
                    ~ (In (src e) ["AC"; "CC"; "CG"] /\ In (dst e) ["AC"; "CC"; "CG"]))
      \/ (x = OverflowError
          /\ exists e, In e (edges g_bubble)
                       /\ In (src e) ["AC"; "CC"; "CG"] /\ In (dst e) ["AC"; "CC"; "CG"]
                       /\ (2 ^ 1024 - 2 ^ 970 <= Z.abs (weight e))%Z)
  end.
Proof.
  apply (@path_average_weight_outcome g_bubble ["AC"; "CC"; "CG"]).
  apply build_graph_invariant.
  intros kmer count H. simpl in H.
  repeat (destruct H as [H | H]; [inversion H; lia |]). destruct H.
Defined.

(** ** Paths without a chord *)

Lemma consecutive_cons (path : list node) (a u v : node) :
  consecutive (a :: path) u v
  <-> (exists r, path = v :: r /\ a = u) \/ consecutive path u v.
Proof.
  unfold consecutive. split.
  - intros [before [after E]]. destruct before as [|b l]; simpl in E.
    + inversion E; subst. left. now exists after.
    + inversion E; subst. right. now exists l, after.
  - intros [[r [-> ->]] | [before [after ->]]].
    + now exists [], r.
    + now exists (a :: before), after.
Qed.

Lemma consecutive_In (path : list node) (u v : node) :
  consecutive path u v -> In u path /\ In v path.
Proof.
  intros [before [after ->]]. split; apply in_or_app; right; simpl; auto.
Qed.

Lemma consecutive_edges_In (g : DiGraph) (path : list node) (e : edge) :
  In e (consecutive_edges g path)
  <-> In e (edges g) /\ consecutive path (src e) (dst e).
Proof.
  induction path as [|u r IH].
  - simpl. split; [tauto |]. intros [_ [before [after E]]].
    destruct before; discriminate.
  - destruct r as [|v r'].
    + simpl. split; [tauto |]. intros [_ [before [after E]]].
      destruct before as [|b [|c l]]; discriminate.
    + change (consecutive_edges g (u :: v :: r'))
        with (filter (is_edge u v) (edges g) ++ consecutive_edges g (v :: r')).
      rewrite in_app_iff, IH, filter_In, (consecutive_cons (v :: r') u). split.
      * intros [[He E] | [He C]]; [| tauto].
        split; [exact He |]. left. exists r'.
        unfold is_edge in E. apply andb_true_iff in E. destruct E as [E1 E2].
        apply String.eqb_eq in E1, E2. now subst.
      * intros [He [[t [E Eu]] | C]]; [| tauto].
        left. split; [exact He |]. inversion E; subst.
        unfold is_edge. now rewrite !String.eqb_refl.
Qed.

Lemma consecutive_edges_NoDup (g : DiGraph) (path : list node) :
  NoDup (edges g) -> NoDup path -> NoDup (consecutive_edges g path).
Proof.
  intros He. induction path as [|u r IH]; intros Hp; [constructor |].
  destruct r as [|v r']; [constructor |].
  change (consecutive_edges g (u :: v :: r'))
    with (filter (is_edge u v) (edges g) ++ consecutive_edges g (v :: r')).
  inversion Hp as [|? ? Hu Hr]; subst.
  apply NoDup_app; [now apply NoDup_filter | now apply IH |].
  intros e H1 H2. apply filter_In in H1. destruct H1 as [_ E].
  unfold is_edge in E. apply andb_true_iff in E. destruct E as [E _].
  apply String.eqb_eq in E.
  apply consecutive_edges_In in H2. destruct H2 as [_ C].
  apply consecutive_In in C. destruct C as [C _]. rewrite E in C. contradiction.
Qed.

Lemma sumQ_weights (l : list edge) :
  (sumQ (map (fun e => inject_Z (weight e)) l) == inject_Z (sum_weights l))%Q.
Proof.
  unfold sum_weights. induction l as [|e r IH]; simpl; [reflexivity |].
  rewrite IH, inject_Z_plus. reflexivity.
Qed.

Lemma chord_free_same_edges (g : DiGraph) (path : list node) :
  well_formed g -> simple_edges g -> NoDup path -> chord_free g path ->
  Permutation (subgraph_edges g path) (consecutive_edges g path).
Proof.
  intros W S Hp Hc.
  assert (He : NoDup (edges g)) by (apply (NoDup_map_inv endpoints); exact S).
  apply NoDup_Permutation.
  - unfold subgraph_edges. apply NoDup_filter.
    eapply Permutation_NoDup; [apply Permutation_sym, edges_view_perm; exact W |].
    exact He.
  - now apply consecutive_edges_NoDup.
  - intros e. rewrite (subgraph_edges_In path e W), consecutive_edges_In. split.
    + intros [H [Hs Hd]]. split; [exact H | now apply Hc].
    + intros [H C]. split; [exact H | now apply consecutive_In].
Qed.

Lemma sumQ_inject (data : list Z) :
  (sumQ (map inject_Z data) == inject_Z (fold_right Z.add 0%Z data))%Q.
Proof.
  induction data as [|x r IH]; simpl; [reflexivity |].
  rewrite IH, inject_Z_plus. reflexivity.
Qed.

(** [statistics.mean] of integers against their arithmetic mean: the mean
    itself when it is whole, the float nearest to it otherwise, and
    OverflowError when there is no such float. *)
Lemma mean_cases (data : list Z) :
  match mean data, arithmetic_mean (map inject_Z data) with
  | Ok w, Ok m =>
      (whole m /\ (w == m)%Q)
      \/ (~ whole m /\ (Qabs m < inject_Z (2 ^ 1024 - 2 ^ 970))%Q
          /\ nearest_float m w)
  | Raise x, Ok m =>
      x = OverflowError /\ ~ whole m
      /\ (inject_Z (2 ^ 1024 - 2 ^ 970) <= Qabs m)%Q
  | Raise x, Raise _ => x = StatisticsError
  | Ok _, Raise _ => False
  end.
Proof.
  destruct data as [|x0 r0] eqn:D; [reflexivity |]. rewrite <- D.
  assert (Ea : arithmetic_mean (map inject_Z data)
               = Ok (sumQ (map inject_Z data) / Qlen (map inject_Z data))%Q)
    by (rewrite D; reflexivity).
  assert (Em : mean data
               = let total := fold_right Z.add 0%Z data in
                 let n := Z.of_nat (List.length data) in
                 if (total mod n =? 0)%Z
                 then Ok (inject_Z total / inject_Z n)%Q
                 else float_of_fraction (inject_Z total / inject_Z n)%Q)
    by (rewrite D; reflexivity).
  rewrite Ea, Em. clear Ea Em. cbv zeta.
  set (total := fold_right Z.add 0%Z data).
  set (n := Z.of_nat (List.length data)).
  assert (Hn : (0 < n)%Z) by (unfold n; rewrite D; simpl; lia).
  assert (Hq : ~ (inject_Z n == 0)%Q).
  { change 0%Q with (inject_Z 0). rewrite inject_Z_injective. lia. }
  assert (E : (sumQ (map inject_Z data) / Qlen (map inject_Z data)
               == inject_Z total / inject_Z n)%Q).
  { unfold Qlen. rewrite length_map, sumQ_inject. reflexivity. }
  assert (Wh : whole (inject_Z total / inject_Z n) <-> (total mod n = 0)%Z).
  { split.
    - intros [z Hz].
      assert (Hz' : (inject_Z total == inject_Z (z * n))%Q).
      { rewrite inject_Z_mult, <- Hz. field. exact Hq. }
      assert (Ht : total = (z * n)%Z) by (apply inject_Z_injective; exact Hz').
      rewrite Ht. apply Z.mod_mul. lia.
    - intros M. exists (total / n)%Z.
      apply Z_div_exact_full_2 in M; [| lia].
      rewrite M at 1. rewrite inject_Z_mult. field. exact Hq. }
  destruct (total mod n =? 0)%Z eqn:B.
  - apply Z.eqb_eq in B. left. split.
    + destruct (proj2 Wh B) as [z Hz]. exists z. now rewrite E.
    + now rewrite E.
  - apply Z.eqb_neq in B.
    assert (Nw : ~ whole (sumQ (map inject_Z data) / Qlen (map inject_Z data))).
    { intros [z Hz]. apply B, Wh. exists z. now rewrite <- E. }
    unfold float_of_fraction, float_overflow.
    destruct (Qle_bool (inject_Z (2 ^ 1024 - 2 ^ 970))
                       (Qabs (inject_Z total / inject_Z n))) eqn:O.
    + apply Qle_bool_iff in O. rewrite <- E in O. auto.
    + assert (B' : (Qabs (inject_Z total / inject_Z n)
                   < inject_Z (2 ^ 1024 - 2 ^ 970))%Q).
      { apply Qnot_le_lt. intros L. apply Qle_bool_iff in L. congruence. }
      right. split; [exact Nw |]. split; [now rewrite E |].
      apply (@nearest_float_comp (inject_Z total / inject_Z n)); [now symmetry |].
      now apply float_round_nearest.
Qed.

Lemma mean_weights_perm (l l' : list edge) :
  Permutation l l' -> mean (map weight l) = mean (map weight l').
Proof.
  intros P. pose proof (Permutation_length P) as L.
  pose proof (sum_weights_perm P) as Sw. unfold sum_weights in Sw.
  unfold mean. rewrite !length_map, L, Sw.
  destruct l as [|e r]; destruct l' as [|e' r']; try discriminate; reflexivity.
Qed.

Lemma chord_free_average (g : DiGraph) (path : list node) :
  well_formed g -> simple_edges g -> NoDup path -> chord_free g path ->
  match path_average_weight g path, consecutive_mean g path with
  | Ok w, Ok m =>
      (whole m /\ (w == m)%Q)
      \/ (~ whole m /\ (Qabs m < inject_Z (2 ^ 1024 - 2 ^ 970))%Q
          /\ nearest_float m w)
  | Raise x, Ok m =>
      x = OverflowError /\ ~ whole m
      /\ (inject_Z (2 ^ 1024 - 2 ^ 970) <= Qabs m)%Q
  | Raise x, Raise _ => x = StatisticsError
  | Ok _, Raise _ => False
  end.
Proof.
  intros W S Hp Hc.
  pose proof (chord_free_same_edges W S Hp Hc) as P.
  unfold path_average_weight, consecutive_mean.
  rewrite (mean_weights_perm P).
  rewrite <- (map_map weight inject_Z (consecutive_edges g path)).
  apply mean_cases.
Qed.

(** X19. On a simple path without a chord, in a graph with at most one edge
    for each ordered pair of nodes, [path_average_weight] is [statistics.mean]
    of the weights of the edges between consecutive nodes of the path: their
    mean when it is whole; when it is not, the float nearest to their mean,
    the one with an even last bit of two that are equally near;
    OverflowError when the mean is not whole and is [2^1024 - 2^970] or more
    in absolute value; and StatisticsError, and nothing else, when the path
    has no edge. *)
Theorem path_average_weight_chord_free (g : DiGraph) (path : list node) :
  well_formed g -> simple_edges g -> NoDup path -> chord_free g path ->
  match path_average_weight g path, consecutive_mean g path with
  | Ok w, Ok m =>
      (whole m /\ (w == m)%Q)
      \/ (~ whole m /\ (Qabs m < inject_Z (2 ^ 1024 - 2 ^ 970))%Q
          /\ nearest_float m w)
  | Raise x, Ok m =>
      x = OverflowError /\ ~ whole m
      /\ (inject_Z (2 ^ 1024 - 2 ^ 970) <= Qabs m)%Q
  | Raise x, Raise _ => x = StatisticsError
  | Ok _, Raise _ => False
  end.
Proof.
  exact (@chord_free_average g path).
Qed.

Lemma path_average_weight_chord_free_witness :
  match path_average_weight g_diamond ["AC"; "CG"; "GT"; "TA"],
        consecutive_mean g_diamond ["AC"; "CG"; "GT"; "TA"] with
  | Ok w, Ok m =>
      (whole m /\ (w == m)%Q)
      \/ (~ whole m /\ (Qabs m < inject_Z (2 ^ 1024 - 2 ^ 970))%Q
          /\ nearest_float m w)
  | Raise x, Ok m =>
      x = OverflowError /\ ~ whole m
      /\ (inject_Z (2 ^ 1024 - 2 ^ 970) <= Qabs m)%Q
  | Raise x, Raise _ => x = StatisticsError
  | Ok _, Raise _ => False
  end.
Proof.
  assert (H : graph_invariant g_diamond).
  { apply build_graph_invariant.
    intros kmer count H. simpl in H.
    repeat (destruct H as [H | H]; [inversion H; lia |]). destruct H. }
  apply (@path_average_weight_chord_free g_diamond ["AC"; "CG"; "GT"; "TA"]).
  - apply H.
  - apply H.
  - repeat constructor; simpl; intuition discriminate.
  - intros e He Hs Hd. vm_compute in He.
    destruct He as [<- | [<- | [<- | [<- | [<- | [<- | []]]]]]]; simpl in *.
    + now exists [], ["GT"; "TA"].
    + now exists ["AC"], ["TA"].
    + now exists ["AC"; "CG"], [].
    + exfalso. intuition discriminate.
    + exfalso. intuition discriminate.
    + exfalso. intuition discriminate.
Defined.

(** ** The removal of bubbles on an acyclic graph *)

Lemma select_best_path_chosen (R : RandomSource) (graph : DiGraph)
      (path_list : list (list node)) (path_length : list Z)
      (weight_avg_list : list Q) (e s : bool) (rs : rng_state R) (b1 b2 : bool) :
  List.length path_length = List.length path_list ->
  List.length weight_avg_list = List.length path_list ->
  2 <= List.length path_list ->
  stdev_positive weight_avg_list = Ok b1 ->
  stdev_positive (map inject_Z path_length) = Ok b2 ->
  exists g' rs',
    select_best_path R graph path_list path_length weight_avg_list e s rs
    = Ok (g', rs').
Proof.
  intros Hlen Havg Hn E1 E2.
  unfold select_best_path, choose_best_path. rewrite E1, E2. simpl.
  destruct b1; [| destruct b2].
  - destruct (@index_of_max_Q weight_avg_list) as [m [i [M [I [L _]]]]].
    { intros ->. simpl in Havg. lia. }
    rewrite M. simpl. rewrite I. simpl.
    rewrite (@list_getitem_nat _ [] path_list i) by lia. simpl. eauto.
  - destruct (@index_of_max_Z path_length) as [m [i [M [I [L _]]]]].
    { intros ->. simpl in Hlen. lia. }
    rewrite M. simpl. rewrite I. simpl.
    rewrite (@list_getitem_nat _ [] path_list i) by lia. simpl. eauto.
  - unfold py_randint.
    assert (Eb : (Z.of_nat (List.length path_list) - 1 <? 0)%Z = false)
      by (apply Z.ltb_ge; lia).
    rewrite Eb.
    pose proof (@randint_range R rs 0 (Z.of_nat (List.length path_list) - 1)) as Hr.
    destruct (randint R rs 0 (Z.of_nat (List.length path_list) - 1)) as [z rs'] eqn:Ez.
    simpl in Hr. specialize (Hr ltac:(lia)). simpl.
    assert (Eg : list_getitem path_list z = Ok (nth (Z.to_nat z) path_list [])).
    { rewrite <- (Z2Nat.id z) at 1 by lia. apply list_getitem_nat. lia. }
    rewrite Eg. simpl. eauto.
Qed.

(** With two candidates or more, [select_best_path] returns when the two
    standard deviations fit in a float, and raises nothing but
    OverflowError. *)
Lemma select_best_path_returns (R : RandomSource) (graph : DiGraph)
      (path_list : list (list node)) (path_length : list Z)
      (weight_avg_list : list Q) (e s : bool) (rs : rng_state R) :
  List.length path_length = List.length path_list ->
  List.length weight_avg_list = List.length path_list ->
  2 <= List.length path_list ->
  (stdev_fits weight_avg_list -> stdev_fits (map inject_Z path_length) ->
   exists g' rs',
     select_best_path R graph path_list path_length weight_avg_list e s rs
     = Ok (g', rs'))
  /\ (forall x,
        select_best_path R graph path_list path_length weight_avg_list e s rs
        = Raise x -> x = OverflowError).
Proof.
  intros Hlen Havg Hn.
  assert (N1 : 2 <= List.length weight_avg_list) by lia.
  assert (N2 : 2 <= List.length (map inject_Z path_length))
    by (rewrite length_map; lia).
  split.
  - intros F1 F2.
    destruct (proj1 (@stdev_positive_spec weight_avg_list N1) F1) as [b1 [E1 _]].
    destruct (proj1 (@stdev_positive_spec (map inject_Z path_length) N2) F2)
      as [b2 [E2 _]].
    exact (@select_best_path_chosen R graph path_list path_length weight_avg_list
             e s rs b1 b2 Hlen Havg Hn E1 E2).
  - intros x H.
    destruct (stdev_positive weight_avg_list) as [b1|x1] eqn:E1.
    + destruct (stdev_positive (map inject_Z path_length)) as [b2|x2] eqn:E2.
      * destruct (@select_best_path_chosen R graph path_list path_length
                    weight_avg_list e s rs b1 b2 Hlen Havg Hn E1 E2)
          as [g' [rs' E]].
        congruence.
      * unfold select_best_path, choose_best_path in H. rewrite E1, E2 in H.
        simpl in H. inversion H; subst x2.
        exact (@stdev_positive_raises _ x N2 E2).
    + unfold select_best_path, choose_best_path in H. rewrite E1 in H.
      simpl in H. inversion H; subst x1.
      exact (@stdev_positive_raises _ x N1 E1).
Qed.

(** The mean of integers of at most [2^1023] in absolute value is at most
    [2^1023] in absolute value, rounded or not. *)
Lemma mean_bounded (data : list Z) (w : Q) :
  (forall x, In x data -> (Z.abs x <= 2 ^ 1023)%Z) ->
  mean data = Ok w -> (Qabs w <= inject_Z (2 ^ 1023))%Q.
Proof.
  intros H E. unfold mean in E.
  destruct data as [|x0 r0] eqn:D; [discriminate |]. rewrite <- D in *.
  pose proof (@sum_between (- 2 ^ 1023) (2 ^ 1023) data
                ltac:(intros x Hx; specialize (H x Hx); lia)) as [S1 S2].
  set (total := fold_right Z.add 0%Z data) in *.
  set (n := Z.of_nat (List.length data)) in *.
  assert (Hn : (0 < n)%Z) by (unfold n; rewrite D; simpl; lia).
  assert (Hq : (0 < inject_Z n)%Q)
    by (change 0%Q with (inject_Z 0); now rewrite <- Zlt_Qlt).
  assert (B : (- inject_Z (2 ^ 1023) <= inject_Z total / inject_Z n
               <= inject_Z (2 ^ 1023))%Q).
  { split.
    - apply Qle_shift_div_l; [exact Hq |].
      rewrite <- inject_Z_opp, <- inject_Z_mult, <- Zle_Qle. lia.
    - apply Qle_shift_div_r; [exact Hq |].
      rewrite <- inject_Z_mult, <- Zle_Qle. lia. }
  destruct (total mod n =? 0)%Z;
    [inversion E; subst w; now apply Qabs_Qle_condition |].
  unfold float_of_fraction in E.
  destruct (Qle_bool float_overflow _); [discriminate |].
  inversion E; subst w. clear E.
  assert (A : (Qabs (inject_Z total / inject_Z n) < 2 ^ (1023 + 53))%Q).
  { apply Qle_lt_trans with (y := inject_Z (2 ^ 1023));
      [now apply Qabs_Qle_condition | vm_compute; reflexivity]. }
  assert (E1 : (inject_Z 1 * 2 ^ 1023 == inject_Z (2 ^ 1023))%Q)
    by (vm_compute; reflexivity).
  assert (E2 : (inject_Z (- 1) * 2 ^ 1023 == - inject_Z (2 ^ 1023))%Q)
    by (vm_compute; reflexivity).
  destruct B as [B1 B2].
  destruct (@float_round_bounds (inject_Z total / inject_Z n) 1 1023
              ltac:(lia) A) as [_ F2].
  destruct (@float_round_bounds (inject_Z total / inject_Z n) (- 1) 1023
              ltac:(lia) A) as [F1 _].
  apply Qabs_Qle_condition. split.
  - apply Qle_trans with (y := (inject_Z (- 1) * 2 ^ 1023)%Q);
      [rewrite E2; apply Qle_refl |].
    apply F1. rewrite E2. exact B1.
  - apply Qle_trans with (y := (inject_Z 1 * 2 ^ 1023)%Q);
      [| rewrite E1; apply Qle_refl].
    apply F2. rewrite E1. exact B2.
Qed.

(** The average weight of a simple path between two distinct nodes: it has
    an edge, so that nothing but OverflowError is raised, and nothing at all
    when no weight is above [2^1023]. *)
Lemma average_weight_defined (g : DiGraph) (source target : node)
      (path : list node) :
  well_formed g -> source <> target -> simple_path g source target path ->
  (forall x, path_average_weight g path = Raise x -> x = OverflowError)
  /\ ((forall e, In e (edges g) -> (Z.abs (weight e) <= 2 ^ 1023)%Z) ->
      exists w, path_average_weight g path = Ok w
                /\ (Qabs w <= inject_Z (2 ^ 1023))%Q).
Proof.
  intros W Hne [_ [Hc [Hh Hl]]].
  destruct path as [|x r]; [discriminate |]. inversion Hh; subst x.
  destruct r as [|b r']; [simpl in Hl; congruence |].
  destruct Hc as [He _].
  unfold has_edge in He. apply existsb_exists in He. destruct He as [e0 [He0 E]].
  unfold is_edge in E. apply andb_true_iff in E. destruct E as [E1 E2].
  apply String.eqb_eq in E1, E2.
  assert (Hin : In e0 (subgraph_edges g (source :: b :: r'))).
  { apply (subgraph_edges_In (source :: b :: r') e0 W).
    rewrite E1, E2. simpl. auto. }
  assert (Only : forall x, path_average_weight g (source :: b :: r') = Raise x ->
                           x = OverflowError
                           /\ exists e, In e (edges g)
                                /\ (2 ^ 1024 - 2 ^ 970 <= Z.abs (weight e))%Z).
  { intros x H. apply path_average_weight_raises in H.
    destruct H as [[_ H] | [-> [e [H1 [_ [_ H2]]]]]].
    - rewrite H in Hin. destruct Hin.
    - split; [reflexivity | now exists e]. }
  split; [intros x H; now apply Only in H |].
  intros Hw.
  destruct (path_average_weight g (source :: b :: r')) as [w|x] eqn:M.
  - exists w. split; [reflexivity |].
    unfold path_average_weight in M. apply (@mean_bounded _ w) in M; [exact M |].
    intros z Hz. apply in_map_iff in Hz. destruct Hz as [e [<- He]].
    apply subgraph_edges_sub in He. now apply Hw.
  - exfalso. destruct (Only x eq_refl) as [_ [e [H1 H2]]].
    specialize (Hw e H1). lia.
Qed.

(** The choice among two or more simple paths of the graph, as
    [solve_bubble] and the two functions for the tips make it. *)
Lemma select_among_paths (R : RandomSource) (g : DiGraph)
      (paths : list (list node)) (e s : bool) (rs : rng_state R) :
  well_formed g ->
  (forall path, In path paths ->
                exists source target,
                  source <> target /\ In target (nodes g)
                  /\ simple_path g source target path) ->
  2 <= List.length paths ->
  (forall x,
     bind (mapM (path_average_weight g) paths)
          (fun avgs =>
             select_best_path R g paths
               (map (fun path => Z.of_nat (List.length path)) paths) avgs e s rs)
     = Raise x -> x = OverflowError)
  /\ (float_sized g ->
      exists g' rs',
        bind (mapM (path_average_weight g) paths)
             (fun avgs =>
                select_best_path R g paths
                  (map (fun path => Z.of_nat (List.length path)) paths) avgs e s rs)
        = Ok (g', rs')).
Proof.
  intros W Hp L2. split.
  - intros x H.
    destruct (mapM (path_average_weight g) paths) as [avgs|x1] eqn:M; simpl in H.
    + revert H. apply select_best_path_returns;
        [now rewrite length_map | now rewrite (@mapM_length_Ok _ _ _ _ _ M) | exact L2].
    + inversion H; subst x1. apply mapM_raises in M. destruct M as [path [Hin E]].
      destruct (Hp path Hin) as [a [b [Hne [_ Hsp]]]].
      exact (proj1 (@average_weight_defined g a b path W Hne Hsp) x E).
  - intros [Fw Fn].
    destruct (@mapM_total _ _ (path_average_weight g) paths) as [avgs M].
    { intros path Hin. destruct (Hp path Hin) as [a [b [Hne [_ Hsp]]]].
      destruct (proj2 (@average_weight_defined g a b path W Hne Hsp) Fw) as [w [E _]].
      now exists w. }
    rewrite M. simpl.
    pose proof (@mapM_length_Ok _ _ _ _ _ M) as La.
    apply select_best_path_returns;
      [now rewrite length_map | exact La | exact L2 | |].
    + apply bounded_stdev_fits; [lia |].
      intros y Hy. destruct (@mapM_In _ _ _ _ _ M y Hy) as [path [Hin E]].
      destruct (Hp path Hin) as [a [b [Hne [_ Hsp]]]].
      destruct (proj2 (@average_weight_defined g a b path W Hne Hsp) Fw)
        as [w [E' B]].
      congruence.
    + apply bounded_stdev_fits; [rewrite !length_map; lia |].
      intros y Hy. apply in_map_iff in Hy. destruct Hy as [z [<- Hz]].
      apply in_map_iff in Hz. destruct Hz as [path [<- Hin]].
      destruct (Hp path Hin) as [a [b [_ [Hb Hsp]]]].
      pose proof (@simple_path_nodes g a b path W Hb Hsp) as I.
      destruct Hsp as [Hnd _].
      pose proof (@NoDup_incl_length _ path (nodes g) Hnd I) as Ll.
      apply Qabs_Qle_condition. rewrite <- inject_Z_opp, <- !Zle_Qle. lia.
Qed.




Lemma predecessors_NoDup (g : DiGraph) (n : node) :
  simple_edges g -> NoDup (predecessors g n).
Proof.
  unfold simple_edges, predecessors.
  induction (edges g) as [|e r IH]; intros H; simpl; [constructor |].
  inversion H as [|? ? Hn Hr]; subst.
  destruct (String.eqb (dst e) n) eqn:E; [| now apply IH].
  simpl. constructor; [| now apply IH].
  intros Hin. apply in_map_iff in Hin. destruct Hin as [e' [Es He']].
  apply filter_In in He'. destruct He' as [He' Ed].
  apply String.eqb_eq in E, Ed. apply Hn.
  apply in_map_iff. exists e'. split; [| exact He'].
  unfold endpoints. now rewrite Es, Ed, E.
Qed.

Lemma two_items (A : Type) (l : list A) (x y : A) :
  In x l -> In y l -> x <> y -> 2 <= List.length l.
Proof.
  destruct l as [|a [|b r]]; simpl; try tauto; [| lia].
  intros [<- | []] [<- | []] H. congruence.
Qed.


Section RankedBubbles.
Variable R : RandomSource.
Variable set_pick : list node -> nat.
Variable g : DiGraph.
Variable rank : node -> nat.
Hypothesis rank_edges : forall e, In e (edges g) -> rank (src e) < rank (dst e).
Hypothesis g_well_formed : well_formed g.
Hypothesis g_simple : simple_edges g.




(** A path that ends with the edge from [u] to [n]. *)
Lemma path_through (a u n : node) :
  reaches g a u -> has_edge g u n = true ->
  exists p, simple_path g a n (p ++ [n]) /\ last p "" = u /\ p <> [].
Proof.
  intros Hr He. apply reaches_chain in Hr. destruct Hr as [q [Hc Hl]].
  exists (a :: q).
  assert (Hlu : last (a :: q) "" = u)
    by (rewrite <- Hl; apply last_default; discriminate).
  assert (Hch : chain g ((a :: q) ++ [n]))
    by (apply chain_snoc with (cur := u); [discriminate | exact Hlu | exact Hc | exact He]).
  split; [| split; [exact Hlu | discriminate]].
  split; [exact (@chain_NoDup g rank rank_edges _ Hch) |].
  split; [exact Hch |]. split; [reflexivity |]. apply last_last.
Qed.



End RankedBubbles.





(** ** Tips of an acyclic graph *)

Lemma successors_NoDup (g : DiGraph) (n : node) :
  simple_edges g -> NoDup (successors g n).
Proof.
  unfold simple_edges, successors.
  induction (edges g) as [|e r IH]; intros H; simpl; [constructor |].
  inversion H as [|? ? Hn Hr]; subst.
  destruct (String.eqb (src e) n) eqn:E; [| now apply IH].
  simpl. constructor; [| now apply IH].
  intros Hin. apply in_map_iff in Hin. destruct Hin as [e' [Ed He']].
  apply filter_In in He'. destruct He' as [He' Es].
  apply String.eqb_eq in E, Es. apply Hn.
  apply in_map_iff. exists e'. split; [| exact He'].
  unfold endpoints. now rewrite Ed, Es, E.
Qed.

Lemma two_of_many (l : list node) :
  NoDup l -> 1 < List.length l -> exists u v, In u l /\ In v l /\ u <> v.
Proof.
  destruct l as [|u [|v r]]; simpl; try lia. intros Hnd _.
  exists u, v. split; [now left |]. split; [right; now left |].
  intros ->. inversion Hnd as [|? ? Hn _]. apply Hn. now left.
Qed.

(** The paths gathered for the pairs, when every search succeeds. *)
Lemma gathered_all (g : DiGraph) (A : Type) (pairs : list A)
      (ends : A -> node * node) :
  (forall p, In p pairs -> In (fst (ends p)) (nodes g)) ->
  exists path_list,
    mapM (fun p => all_simple_paths g (fst (ends p)) (snd (ends p))) pairs
    = Ok path_list
    /\ forall p paths path,
         In p pairs ->
         all_simple_paths g (fst (ends p)) (snd (ends p)) = Ok paths ->
         In path paths -> In path (List.concat path_list).
Proof.
  intros Hs.
  destruct (@mapM_total _ _
              (fun p => all_simple_paths g (fst (ends p)) (snd (ends p))) pairs)
    as [path_list M].
  { intros p Hp. unfold all_simple_paths.
    specialize (Hs p Hp). apply has_node_In in Hs. rewrite Hs. simpl. eauto. }
  exists path_list. split; [exact M |].
  intros p paths path Hp Ea Hin.
  destruct (@mapM_each _ _ _ _ _ _ M Hp) as [l [El Hl]].
  apply in_concat. exists l. split; [exact Hl |]. congruence.
Qed.

Lemma solve_tips_returns (R : RandomSource) (g : DiGraph)
      (path_list : list (list (list node))) (e s : bool) (rs : rng_state R) :
  well_formed g ->
  (forall path, In path (List.concat path_list) ->
                exists source target,
                  source <> target /\ In target (nodes g)
                  /\ simple_path g source target path) ->
  (path_list <> [] -> 2 <= List.length (List.concat path_list)) ->
  (forall x, solve_tips R g path_list e s rs = Raise x -> x = OverflowError)
  /\ (float_sized g ->
      exists g' rs', solve_tips R g path_list e s rs = Ok (g', rs')).
Proof.
  intros W Hp L. unfold solve_tips.
  destruct path_list as [|l r]; [split; [discriminate | eauto] |].
  apply (@select_among_paths R g (List.concat (l :: r)) e s rs W Hp).
  apply L. discriminate.
Qed.

Section RankedTips.
Variable R : RandomSource.
Variable g : DiGraph.
Variable rank : node -> nat.
Hypothesis rank_edges : forall e, In e (edges g) -> rank (src e) < rank (dst e).
Hypothesis g_well_formed : well_formed g.
Hypothesis g_simple : simple_edges g.

Lemma path_from (n u t : node) :
  has_edge g n u = true -> reaches g u t ->
  exists q, simple_path g n t (n :: u :: q).
Proof.
  intros He Hr. apply reaches_chain in Hr. destruct Hr as [q [Hc Hl]].
  exists q.
  assert (Hch : chain g (n :: u :: q)) by (split; assumption).
  split; [exact (@chain_NoDup g rank rank_edges _ Hch) |].
  split; [exact Hch |]. split; [reflexivity |].
  rewrite <- Hl. change (last (n :: u :: q) n) with (last (u :: q) n).
  apply last_default. discriminate.
Qed.

Lemma solve_entry_tips_returns (rs : rng_state R) :
  (forall x, solve_entry_tips R g (get_starting_nodes g) rs = Raise x ->
             x = OverflowError)
  /\ (float_sized g ->
      exists g' rs',
        solve_entry_tips R g (get_starting_nodes g) rs = Ok (g', rs')).
Proof.
  unfold solve_entry_tips.
  set (pairs := tip_pairs g (fun n => List.length (predecessors g n))
                          (get_starting_nodes g)).
  destruct (@gathered_all g _ pairs (fun p => (snd p, fst p))) as [path_list [M All]].
  { intros [n st] Hp. apply tip_pairs_In in Hp. destruct Hp as [_ [Hs _]].
    apply get_starting_nodes_In in Hs. now destruct Hs. }
  cbn [fst snd] in M, All. rewrite M. simpl.
  apply solve_tips_returns; [exact g_well_formed | |].
  - intros path Hin.
    destruct (@gathered_paths g _ pairs (fun p => (snd p, fst p)) path_list path)
      as [[n st] [Hp Hsp]]; [| exact M | exact Hin |].
    + intros [n st] Hp. apply tip_pairs_In in Hp. now destruct Hp.
    + apply tip_pairs_In in Hp. destruct Hp as [Hn [Hs D]].
      exists st, n. split; [| split; [exact Hn | exact Hsp]].
      apply get_starting_nodes_In in Hs. destruct Hs as [_ Hs].
      intros ->. destruct (predecessors g n) as [|m r] eqn:P; [simpl in D; lia |].
      assert (Hm : has_edge g m n = true)
        by (apply predecessors_edge; rewrite P; now left).
      rewrite Hs in Hm. discriminate.
  - intros Hne. destruct path_list as [|l0 r0] eqn:El; [congruence |].
    rewrite <- El in *. clear Hne.
    destruct pairs as [|[n st] pr] eqn:Ep; [simpl in M; congruence |].
    assert (Hp : In (n, st) pairs) by (rewrite Ep; now left).
    rewrite <- Ep in *.
    apply tip_pairs_In in Hp. destruct Hp as [Hn [_ D]].
    destruct (two_of_many (predecessors_NoDup n g_simple) D) as [u [v [Pu [Pv Huv]]]].
    apply predecessors_edge in Pu, Pv.
    destruct (@has_edge_nodes g g_well_formed _ _ Pu) as [Hu _].
    destruct (@has_edge_nodes g g_well_formed _ _ Pv) as [Hv _].
    destruct (@reached_from_start g rank rank_edges g_well_formed (S (rank u)) u)
      as [s1 [Hs1 R1]]; [lia | exact Hu |].
    destruct (@reached_from_start g rank rank_edges g_well_formed (S (rank v)) v)
      as [s2 [Hs2 R2]]; [lia | exact Hv |].
    destruct (@path_through g rank rank_edges s1 u n R1 Pu) as [p1 [S1 [L1 N1]]].
    destruct (@path_through g rank rank_edges s2 v n R2 Pv) as [p2 [S2 [L2 N2]]].
    assert (I1 := @simple_path_nodes _ _ _ _ g_well_formed Hn S1).
    assert (I2 := @simple_path_nodes _ _ _ _ g_well_formed Hn S2).
    destruct (@all_simple_paths_complete _ _ _ _ I1 Hn S1) as [ps1 [E1 In1]].
    destruct (@all_simple_paths_complete _ _ _ _ I2 Hn S2) as [ps2 [E2 In2]].
    assert (T1 : In (n, s1) pairs) by (apply tip_pairs_In; auto).
    assert (T2 : In (n, s2) pairs) by (apply tip_pairs_In; auto).
    apply (@two_items _ _ (p1 ++ [n]) (p2 ++ [n])).
    + exact (All (n, s1) ps1 _ T1 E1 In1).
    + exact (All (n, s2) ps2 _ T2 E2 In2).
    + intros E. apply app_inj_tail in E. destruct E as [E _]. subst p2. congruence.
Qed.

Lemma solve_out_tips_returns (rs : rng_state R) :
  (forall x, solve_out_tips R g (get_sink_nodes g) rs = Raise x ->
             x = OverflowError)
  /\ (float_sized g ->
      exists g' rs',
        solve_out_tips R g (get_sink_nodes g) rs = Ok (g', rs')).
Proof.
  unfold solve_out_tips.
  set (pairs := tip_pairs g (fun n => List.length (successors g n))
                          (get_sink_nodes g)).
  destruct (@gathered_all g _ pairs (fun p => (fst p, snd p))) as [path_list [M All]].
  { intros [n en] Hp. apply tip_pairs_In in Hp. now destruct Hp. }
  cbn [fst snd] in M, All. rewrite M. simpl.
  apply solve_tips_returns; [exact g_well_formed | |].
  - intros path Hin.
    destruct (@gathered_paths g _ pairs (fun p => (fst p, snd p)) path_list path)
      as [[n en] [Hp Hsp]]; [| exact M | exact Hin |].
    + intros [n en] Hp. apply tip_pairs_In in Hp. destruct Hp as [_ [He _]].
      apply get_sink_nodes_In in He. now destruct He.
    + apply tip_pairs_In in Hp. destruct Hp as [_ [He D]].
      apply get_sink_nodes_In in He. destruct He as [Hen He].
      exists n, en. split; [| split; [exact Hen | exact Hsp]].
      intros ->. destruct (successors g en) as [|m r] eqn:P; [simpl in D; lia |].
      assert (Hm : has_edge g en m = true)
        by (apply successors_edge; rewrite P; now left).
      rewrite He in Hm. discriminate.
  - intros Hne. destruct path_list as [|l0 r0] eqn:El; [congruence |].
    rewrite <- El in *. clear Hne.
    destruct pairs as [|[n en] pr] eqn:Ep; [simpl in M; congruence |].
    assert (Hp : In (n, en) pairs) by (rewrite Ep; now left).
    rewrite <- Ep in *.
    apply tip_pairs_In in Hp. destruct Hp as [Hn [_ D]].
    destruct (two_of_many (successors_NoDup n g_simple) D) as [u [v [Pu [Pv Huv]]]].
    apply successors_edge in Pu, Pv.
    destruct (@has_edge_nodes g g_well_formed _ _ Pu) as [_ Hu].
    destruct (@has_edge_nodes g g_well_formed _ _ Pv) as [_ Hv].
    assert (Hne : nodes g <> []) by (intros E; rewrite E in Hn; destruct Hn).
    destruct (@highest_rank rank _ Hne) as [top [_ Htop]].
    destruct (@reaches_sink g rank rank_edges g_well_formed (rank top)
                (S (rank top - rank u)) u Htop) as [t1 [Ht1 R1]]; [lia | exact Hu |].
    destruct (@reaches_sink g rank rank_edges g_well_formed (rank top)
                (S (rank top - rank v)) v Htop) as [t2 [Ht2 R2]]; [lia | exact Hv |].
    destruct (@path_from n u t1 Pu R1) as [q1 S1].
    destruct (@path_from n v t2 Pv R2) as [q2 S2].
    assert (Hn1 : In t1 (nodes g)) by (apply get_sink_nodes_In in Ht1; now destruct Ht1).
    assert (Hn2 : In t2 (nodes g)) by (apply get_sink_nodes_In in Ht2; now destruct Ht2).
    assert (I1 := @simple_path_nodes _ _ _ _ g_well_formed Hn1 S1).
    assert (I2 := @simple_path_nodes _ _ _ _ g_well_formed Hn2 S2).
    destruct (@all_simple_paths_complete _ _ _ _ I1 Hn1 S1) as [ps1 [E1 In1]].
    destruct (@all_simple_paths_complete _ _ _ _ I2 Hn2 S2) as [ps2 [E2 In2]].
    assert (T1 : In (n, t1) pairs) by (apply tip_pairs_In; auto).
    assert (T2 : In (n, t2) pairs) by (apply tip_pairs_In; auto).
    apply (@two_items _ _ (n :: u :: q1) (n :: v :: q2)).
    + exact (All (n, t1) ps1 _ T1 E1 In1).
    + exact (All (n, t2) ps2 _ T2 E2 In2).
    + intros E. inversion E. contradiction.
Qed.

End RankedTips.

(** X21. On an acyclic graph with at most one edge for each ordered pair of
    nodes, the only exception that [solve_entry_tips] called with the
    starting nodes of the graph and [solve_out_tips] called with its sink
    nodes raise is OverflowError, for a mean or a standard deviation that is
    too large for a float: every search for paths succeeds, a node with
    several predecessors (successors) gives at least two paths, and every
    path has an edge to average.  When no weight is above [2^1023] in
    absolute value and the graph has at most [2^1023] nodes, the two
    functions return. *)
Theorem tips_exceptions_on_acyclic_graph (R : RandomSource) (g : DiGraph)
        (rs : rng_state R) :
  well_formed g -> simple_edges g -> acyclic g ->
  (forall x, solve_entry_tips R g (get_starting_nodes g) rs = Raise x ->
             x = OverflowError)
  /\ (forall x, solve_out_tips R g (get_sink_nodes g) rs = Raise x ->
                x = OverflowError)
  /\ (float_sized g ->
      (exists g' rs',
         solve_entry_tips R g (get_starting_nodes g) rs = Ok (g', rs'))
      /\ (exists g' rs',
            solve_out_tips R g (get_sink_nodes g) rs = Ok (g', rs'))).
Proof.
  intros W S [rank Hr].
  destruct (@solve_entry_tips_returns R g rank Hr W S rs) as [E1 E2].
  destruct (@solve_out_tips_returns R g rank Hr W S rs) as [O1 O2].
  split; [exact E1 |]. split; [exact O1 |].
  intros F. split; [exact (E2 F) | exact (O2 F)].
Qed.

Lemma tips_exceptions_on_acyclic_graph_witness :
  ((exists g' rs',
      solve_entry_tips lowest_source g_merge (get_starting_nodes g_merge) tt
      = Ok (g', rs'))
   /\ (exists g' rs',
         solve_out_tips lowest_source g_merge (get_sink_nodes g_merge) tt
         = Ok (g', rs')))
  /\ (solve_entry_tips lowest_source g_merge_huge
                       (get_starting_nodes g_merge_huge) tt
      = Raise OverflowError
      /\ forall x,
           solve_entry_tips lowest_source g_merge_huge
                            (get_starting_nodes g_merge_huge) tt = Raise x ->
           x = OverflowError).
Proof.
  assert (H : graph_invariant g_merge).
  { apply (@build_graph_invariant [("ATC", 1%Z); ("GTC", 1%Z)]).
    intros k c [E | [E | []]]; inversion E; lia. }
  assert (H' : graph_invariant g_merge_huge).
  { apply (@build_graph_invariant [("ATC", (10 ^ 400)%Z); ("GTC", 1%Z)]).
    intros k c [E | [E | []]]; injection E as <- <-; vm_compute; discriminate. }
  split; [| split].
  - apply (@tips_exceptions_on_acyclic_graph lowest_source g_merge tt).
    + apply H.
    + apply H.
    + exact g_merge_acyclic.
    + split.
      * intros e He. vm_compute in He.
        destruct He as [<- | [<- | []]]; vm_compute; discriminate.
      * vm_compute. discriminate.
  - vm_compute. reflexivity.
  - apply (@tips_exceptions_on_acyclic_graph lowest_source g_merge_huge tt).
    + apply H'.
    + apply H'.
    + exists (fun n => if String.eqb n "TC" then 1 else 0).
      intros e He. vm_compute in He.
      destruct He as [<- | [<- | []]]; apply Nat.ltb_lt; reflexivity.
Defined.

(** ** No node of an acyclic graph is left out of the contigs *)

Lemma chain_append (g : DiGraph) (p q : list node) (a u : node) :
  chain g (a :: p) -> last (a :: p) a = u -> chain g (u :: q) ->
  chain g (a :: p ++ q).
Proof.
  revert a. induction p as [|b r IH]; intros a Hp Hl Hq.
  - simpl in Hl. subst u. exact Hq.
  - destruct Hp as [He Hp]. split; [exact He |].
    apply IH; [exact Hp | | exact Hq].
    rewrite <- Hl. change (last (a :: b :: r) a) with (last (b :: r) a).
    apply last_default. discriminate.
Qed.

Lemma last_append (p q : list node) (d : node) :
  q <> [] -> last (p ++ q) d = last q d.
Proof.
  intros Hq. induction p as [|x r IH]; [reflexivity |].
  simpl. destruct (r ++ q) eqn:E; [| exact IH].
  apply app_eq_nil in E. destruct E. contradiction.
Qed.

Lemma get_contigs_covers (graph : DiGraph) (contigs : list (string * Z)) :
  well_formed graph -> acyclic graph ->
  (forall n, In n (nodes graph) -> n <> "") ->
  get_contigs graph (get_starting_nodes graph) (get_sink_nodes graph) = Ok contigs ->
  forall n, In n (nodes graph) ->
    exists node_start node_target path,
      In node_start (get_starting_nodes graph)
      /\ In node_target (get_sink_nodes graph)
      /\ simple_path graph node_start node_target path
      /\ In n path
      /\ In (contig_of path, contig_length path) contigs.
Proof.
  intros W [rank Hr] Hne H n Hn.
  destruct (@between_start_and_sink graph rank Hr W n Hn) as [s [t [Hs [Ht [Rs Rt]]]]].
  apply reaches_chain in Rs. destruct Rs as [p [Cp Lp]].
  apply reaches_chain in Rt. destruct Rt as [q [Cq Lq]].
  pose proof (@chain_append graph p q s n Cp Lp Cq) as Hc.
  assert (Hl : last (s :: p ++ q) s = t).
  { destruct q as [|y q'].
    - simpl in Lq. subst t. rewrite app_nil_r. exact Lp.
    - change (s :: p ++ y :: q') with ((s :: p) ++ y :: q').
      rewrite last_append by discriminate.
      rewrite <- Lq. change (last (n :: y :: q') n) with (last (y :: q') n).
      apply last_default. discriminate. }
  assert (Hsp : simple_path graph s t (s :: p ++ q)).
  { split; [exact (@chain_NoDup graph rank Hr _ Hc) |].
    split; [exact Hc |]. split; [reflexivity | exact Hl]. }
  exists s, t, (s :: p ++ q).
  split; [exact Hs |]. split; [exact Ht |]. split; [exact Hsp |]. split.
  - destruct p as [|b r].
    + simpl in Lp. subst n. now left.
    + right. apply in_or_app. left. rewrite <- Lp.
      change (last (s :: b :: r) s) with (last (b :: r) s).
      apply last_In. discriminate.
  - apply (@get_contigs_finds graph (get_starting_nodes graph) (get_sink_nodes graph)
             contigs s t (s :: p ++ q) W); [| exact H | exact Hs | exact Ht | exact Hsp].
    intros m Hm. apply Hne. apply get_starting_nodes_In in Hm. now destruct Hm.
Qed.

(** X22. On an acyclic graph without an empty node, the contigs that
    [get_contigs] returns for the starting nodes and the sink nodes of the
    graph leave no node out: every node of the graph is on a simple path of
    the graph, from a starting node to a sink node, whose contig is in the
    list. *)
Theorem get_contigs_covers_every_node (graph : DiGraph)
        (contigs : list (string * Z)) :
  well_formed graph -> acyclic graph ->
  (forall n, In n (nodes graph) -> n <> "") ->
  get_contigs graph (get_starting_nodes graph) (get_sink_nodes graph) = Ok contigs ->
  forall n, In n (nodes graph) ->
    exists node_start node_target path,
      In node_start (get_starting_nodes graph)
      /\ In node_target (get_sink_nodes graph)
      /\ simple_path graph node_start node_target path
      /\ In n path
      /\ In (contig_of path, contig_length path) contigs.
Proof.
  exact (@get_contigs_covers graph contigs).
Qed.

Lemma get_contigs_covers_every_node_witness :
  exists node_start node_target path,
    In node_start (get_starting_nodes g_merge)
    /\ In node_target (get_sink_nodes g_merge)
    /\ simple_path g_merge node_start node_target path
    /\ In "TC" path
    /\ In (contig_of path, contig_length path) [("ATC", 3%Z); ("GTC", 3%Z)].
Proof.
  apply (@get_contigs_covers_every_node g_merge [("ATC", 3%Z); ("GTC", 3%Z)]
           g_merge_well_formed g_merge_acyclic).
  - intros n H. vm_compute in H.
    repeat (destruct H as [<- | H]; [discriminate |]). destruct H.
  - reflexivity.
  - vm_compute. tauto.
Defined.

(** ** Every string of three characters of the reads is in a contig *)

Lemma contig_window_of_pair (Q : string -> Prop) (path : list node)
      (kmer : string) :
  overlapping Q path ->
  String.length kmer = 3 ->
  consecutive path (prefix_of kmer) (suffix_of kmer) ->
  exists i,
    i + 3 <= String.length (contig_of path)
    /\ substring i 3 (contig_of path) = kmer.
Proof.
  intros Ho Lk. induction path as [|u r IH]; intros Hc.
  - destruct Hc as [before [after E]]. destruct before; discriminate.
  - destruct r as [|v r'].
    + destruct Hc as [before [after E]]. destruct before as [|b [|c l]]; discriminate.
    + destruct Ho as [[k0 [L [P [S _]]]] Ho].
      destruct (three_mer_nodes k0 L) as [a [b [c [Ek [P' S']]]]].
      rewrite P in P'. rewrite S in S'.
      assert (E : contig_of (u :: v :: r') = String a (contig_of (v :: r'))).
      { rewrite P', S'. reflexivity. }
      rewrite E. apply consecutive_cons in Hc. destruct Hc as [[t [Et Eu]] | Hc].
      * injection Et as Ev Er.
        assert (Ekk : kmer = k0).
        { apply kmer_of_nodes; [lia | lia | congruence | congruence]. }
        exists 0. rewrite Ekk, S', Ek. split.
        -- simpl. lia.
        -- simpl. destruct (fold_right _ _ r'); reflexivity.
      * destruct (IH Ho Hc) as [i [Hi Ei]]. exists (Datatypes.S i). split.
        -- change (Datatypes.S (i + 3)
                   <= Datatypes.S (String.length (contig_of (v :: r')))). lia.
        -- exact Ei.
Qed.

Lemma main_contigs_hold_reads (fastq_file reads : list string)
      (kmer_dict : dict Z) (contigs : list (string * Z)) :
  read_fastq fastq_file = Ok reads ->
  build_kmer_dict fastq_file 200%Z = Ok kmer_dict ->
  acyclic (build_graph kmer_dict) ->
  main_contigs fastq_file = Ok contigs ->
  forall kmer,
    0 < occurrences kmer reads ->
    exists sequence len i,
      In (sequence, len) contigs
      /\ i + 3 <= String.length sequence
      /\ substring i 3 sequence = kmer.
Proof.
  intros Hr Hd [rank Hrank] Hm kmer Hocc.
  unfold main_contigs in Hm. rewrite Hd in Hm. simpl in Hm.
  unfold build_kmer_dict in Hd. rewrite Hr in Hd. simpl in Hd. injection Hd as Ed.
  destruct (count_reads_dict reads) as [_ [T C]]. cbv zeta in T, C.
  rewrite Ed in T, C.
  set (g := build_graph kmer_dict) in *.
  assert (W : well_formed g).
  { apply build_graph_invariant. intros k c H. now apply (T k c). }
  destruct (@three_mer_graph (fun _ => True) kmer_dict) as [N2 Hov].
  { intros k c H. split; [now apply (T k c) | exact I]. }
  fold g in N2, Hov.
  assert (Hin : In (kmer, Z.of_nat (occurrences kmer reads)) kmer_dict)
    by (apply C; split; [exact Hocc | reflexivity]).
  destruct (T _ _ Hin) as [Lk _].
  destruct (build_graph_contents kmer_dict) as [_ [E _]]. fold g in E.
  assert (He : has_edge g (prefix_of kmer) (suffix_of kmer) = true)
    by (apply E; now exists kmer, (Z.of_nat (occurrences kmer reads))).
  destruct (@has_edge_nodes g W _ _ He) as [Hu Hv].
  destruct (@between_start_and_sink g rank Hrank W _ Hu) as [s [_ [Hs [_ [Rs _]]]]].
  destruct (@between_start_and_sink g rank Hrank W _ Hv) as [_ [t [_ [Ht [_ Rt]]]]].
  apply reaches_chain in Rs. destruct Rs as [p [Cp Lp]].
  apply reaches_chain in Rt. destruct Rt as [q [Cq Lq]].
  assert (Hc : chain g (s :: p ++ suffix_of kmer :: q)).
  { apply (@chain_append g p (suffix_of kmer :: q) s (prefix_of kmer) Cp Lp).
    split; assumption. }
  assert (Hl : last (s :: p ++ suffix_of kmer :: q) s = t).
  { change (s :: p ++ suffix_of kmer :: q) with ((s :: p) ++ suffix_of kmer :: q).
    rewrite last_append by discriminate. rewrite <- Lq.
    apply last_default. discriminate. }
  assert (Hsp : simple_path g s t (s :: p ++ suffix_of kmer :: q)).
  { split; [exact (@chain_NoDup g rank Hrank _ Hc) |].
    split; [exact Hc |]. split; [reflexivity | exact Hl]. }
  assert (Hcons : consecutive (s :: p ++ suffix_of kmer :: q)
                              (prefix_of kmer) (suffix_of kmer)).
  { exists (removelast (s :: p)), q.
    change (s :: p ++ suffix_of kmer :: q) with ((s :: p) ++ suffix_of kmer :: q).
    assert (Hne : s :: p <> []) by discriminate.
    rewrite (app_removelast_last s Hne) at 1. rewrite Lp, <- app_assoc. reflexivity. }
  assert (Hfound : In (contig_of (s :: p ++ suffix_of kmer :: q),
                       contig_length (s :: p ++ suffix_of kmer :: q)) contigs).
  { apply (@get_contigs_finds g (get_starting_nodes g) (get_sink_nodes g)
             contigs s t _ W); [| exact Hm | exact Hs | exact Ht | exact Hsp].
    intros m Hmn E0. apply get_starting_nodes_In in Hmn. destruct Hmn as [Hmn _].
    apply N2 in Hmn. rewrite E0 in Hmn. discriminate. }
  destruct (@contig_window_of_pair (fun _ => True) _ kmer
              (Hov _ Hc) Lk Hcons) as [i [Hi Ei]].
  exists (contig_of (s :: p ++ suffix_of kmer :: q)),
         (contig_length (s :: p ++ suffix_of kmer :: q)), i.
  split; [exact Hfound |]. split; [exact Hi | exact Ei].
Qed.

(** X23. The program on reads whose graph is acyclic: every string of three
    characters that occurs in a read is a window of one of the contigs passed
    to [save_contigs]. *)
Theorem main_contigs_hold_every_3mer (fastq_file reads : list string)
        (kmer_dict : dict Z) (contigs : list (string * Z)) :
  read_fastq fastq_file = Ok reads ->
  build_kmer_dict fastq_file 200%Z = Ok kmer_dict ->
  acyclic (build_graph kmer_dict) ->
  main_contigs fastq_file = Ok contigs ->
  forall kmer,
    0 < occurrences kmer reads ->
    exists sequence len i,
      In (sequence, len) contigs
      /\ i + 3 <= String.length sequence
      /\ substring i 3 sequence = kmer.
Proof.
  exact (@main_contigs_hold_reads fastq_file reads kmer_dict contigs).
Qed.

Lemma main_contigs_hold_every_3mer_witness :
  exists sequence len i,
    In (sequence, len) [("ACGTA", 5%Z)]
    /\ i + 3 <= String.length sequence
    /\ substring i 3 sequence = "CGT".
Proof.
  apply (@main_contigs_hold_every_3mer one_read ["ACGTA"]
           [("ACG", 1%Z); ("CGT", 1%Z); ("GTA", 1%Z)] [("ACGTA", 5%Z)]).
  - reflexivity.
  - reflexivity.
  - exists (fun n => if String.eqb n "AC" then 0
                     else if String.eqb n "CG" then 1
                     else if String.eqb n "GT" then 2 else 3).
    intros e He. vm_compute in He.
    destruct He as [<- | [<- | [<- | []]]]; apply Nat.ltb_lt; reflexivity.
  - reflexivity.
  - vm_compute. lia.
Defined.
